(** * Game of Hex: the board graph, the connectivity oracle, the Monte
      Carlo move selection and the turn loop of [GameOfHex.cpp], embedded
      and verified.

    C++ [int] is modelled by [Z] (no value of the program leaves the 32-bit
    range for board sizes 2..11), [vector<T>] by [list T] indexed through
    [vget]/[vset], [char] by [ascii], [std::string] by [string], [double]
    by the exact rationals [Q]; the evaluator is also given on the binary64
    floats of the machine and proved to return the same cell.  Output to
    [cout] is left out, but for the move [aiMove] prints and the message
    that ends the game.  A call returns a [result]: a value, or the fault
    that ends it. *)

From Stdlib Require Import ZArith QArith List Ascii String Lia Bool Permutation.
From Stdlib Require PrimFloat Uint63.
From stdpp Require Import base list relations.

Local Open Scope Z_scope.

(** ** Vectors indexed by a C++ [int] *)

(** [v[i]] for reading.  Outside [0, size) the source has undefined
    behaviour; the model reads the default [d] there. *)
Definition vget {A} (d : A) (v : list A) (i : Z) : A :=
  if i <? 0 then d else default d (v !! Z.to_nat i).

(** [v[i] = x].  Outside [0, size) the source has undefined behaviour; the
    model leaves the vector unchanged there. *)
Definition vset {A} (v : list A) (i : Z) (x : A) : list A :=
  if i <? 0 then v else <[Z.to_nat i := x]> v.

(** [for (int i = a; i < stop; i = i + step)]: the values taken by [i]. *)
Fixpoint loop_up (fuel : nat) (i stop step : Z) : list Z :=
  match fuel with
  | O => []
  | S k => if i <? stop then i :: loop_up k (i + step) stop step else []
  end.

(** [for (int j = a; j >= stop; j--)]: the values taken by [j]. *)
Fixpoint loop_down (fuel : nat) (j stop : Z) : list Z :=
  match fuel with
  | O => []
  | S k => if stop <=? j then j :: loop_down k (j - 1) stop else []
  end.

(** Running a loop body over the values of the loop variable. *)
Definition for_each {S} (idx : list Z) (body : Z -> S -> S) (s : S) : S :=
  fold_left (fun acc i => body i acc) idx s.

(** ** Constants *)

Definition INFINIT : Z := 2147483647.
Definition SIMUL : Z := 1000.

(** ** class Graph *)

Record Graph := mkGraph {
  adjMatrix : list Z;
  sign : list ascii;
  numVertices : Z;
  numEdges : Z;
  startNode : list Z;   (* int startNode[3]; slot 0 is never written *)
  endNode : list Z      (* int endNode[3]; slot 0 is never written *)
}.

Definition V (g : Graph) : Z := numVertices g - 4.

Definition E (g : Graph) : Z := numEdges g.

Definition get_edge_value (g : Graph) (x y : Z) : Z :=
  vget 0 (adjMatrix g) (x * numVertices g + y).

Definition adjacent (g : Graph) (x y : Z) : bool :=
  negb (get_edge_value g x y =? INFINIT) && negb (get_edge_value g x y =? 0).

Definition set_edge_value (g : Graph) (x y value : Z) : Graph :=
  let ne := if adjacent g x y then numEdges g else numEdges g + 1 in
  let nv := numVertices g in
  mkGraph (vset (vset (adjMatrix g) (y * nv + x) value) (x * nv + y) value)
          (sign g) nv ne (startNode g) (endNode g).

Definition get_sign (g : Graph) (x y : Z) : ascii :=
  vget "000"%char (sign g) (x * numVertices g + y).

Definition set_sign (g : Graph) (x y : Z) (s : ascii) : Graph :=
  mkGraph (adjMatrix g) (vset (sign g) (x * numVertices g + y) s)
          (numVertices g) (numEdges g) (startNode g) (endNode g).

Definition get_startNode (g : Graph) (playerNum : Z) : Z :=
  vget 0 (startNode g) playerNum.

Definition get_endNode (g : Graph) (playerNum : Z) : Z :=
  vget 0 (endNode g) playerNum.

(** [Graph::Graph(int numVertices)], with the global [sizeofBoard] as an
    explicit argument.  [/] and [%] of C++ truncate: [Z.quot], [Z.rem]. *)
Definition Graph_new (sizeofBoard nv : Z) : Graph :=
  let cells := Z.to_nat (nv * nv) in
  let g0 := mkGraph (replicate cells INFINIT) (replicate cells "."%char) nv 0
                    [0; 0; 0] [0; 0; 0] in
  let g1 := for_each (loop_up (Z.to_nat nv) 0 nv 1)
              (fun i g => mkGraph (vset (adjMatrix g) (i * nv + i) 0) (sign g)
                            (numVertices g) (numEdges g) (startNode g) (endNode g))
              g0 in
  let vnodeWest := sizeofBoard * sizeofBoard in
  let vnodeEast := sizeofBoard * sizeofBoard + 1 in
  let vnodeNorth := sizeofBoard * sizeofBoard + 2 in
  let vnodeSouth := sizeofBoard * sizeofBoard + 3 in
  let g2 := set_sign g1 (Z.quot vnodeNorth sizeofBoard) (Z.rem vnodeNorth sizeofBoard) "X"%char in
  let g3 := for_each (loop_up (Z.to_nat sizeofBoard) 0 sizeofBoard 1)
              (fun i g => set_edge_value g vnodeNorth i 1) g2 in
  let g4 := set_sign g3 (Z.quot vnodeSouth sizeofBoard) (Z.rem vnodeSouth sizeofBoard) "X"%char in
  let g5 := for_each (loop_down (Z.to_nat sizeofBoard) (V g4 - 1) (V g4 - sizeofBoard))
              (fun j g => set_edge_value g vnodeSouth j 1) g4 in
  let g6 := set_sign g5 (Z.quot vnodeWest sizeofBoard) (Z.rem vnodeWest sizeofBoard) "O"%char in
  let g7 := for_each (loop_up (Z.to_nat (V g6)) 0 (V g6) sizeofBoard)
              (fun i g => set_edge_value g vnodeWest i 1) g6 in
  let g8 := set_sign g7 (Z.quot vnodeEast sizeofBoard) (Z.rem vnodeEast sizeofBoard) "O"%char in
  let g9 := for_each (loop_up (Z.to_nat (V g8)) (sizeofBoard - 1) (V g8) sizeofBoard)
              (fun j g => set_edge_value g vnodeEast j 1) g8 in
  mkGraph (adjMatrix g9) (sign g9) (numVertices g9) (numEdges g9)
          [0; vnodeNorth; vnodeWest] [0; vnodeSouth; vnodeEast].

(** ** hexGame::setEdges *)

Definition setEdges (sizeofBoard x y : Z) (g : Graph) : Graph :=
  let iNode := x * sizeofBoard + y in
  let g :=
    if 0 <? x then
      let g := set_edge_value g iNode ((x - 1) * sizeofBoard + y) 1 in
      if y <? sizeofBoard - 1
      then set_edge_value g iNode ((x - 1) * sizeofBoard + y + 1) 1
      else g
    else g in
  let g :=
    if 0 <? y then
      let g := set_edge_value g iNode (x * sizeofBoard + y - 1) 1 in
      if x <? sizeofBoard - 1
      then set_edge_value g iNode ((x + 1) * sizeofBoard + y - 1) 1
      else g
    else g in
  let g :=
    if y <? sizeofBoard - 1
    then set_edge_value g iNode (x * sizeofBoard + y + 1) 1
    else g in
  if x <? sizeofBoard - 1
  then set_edge_value g iNode ((x + 1) * sizeofBoard + y) 1
  else g.

(** Placing a stone: [set_sign] followed by [setEdges], the two statements
    shared by [playerMove], [aiMove] and [probMonteCarlo]. *)
Definition place (sizeofBoard : Z) (g : Graph) (x y : Z) (s : ascii) : Graph :=
  setEdges sizeofBoard x y (set_sign g x y s).

(** ** Outcomes of a call *)

(** What ends a call other than a returned value. *)
Inductive fault :=
| OutOfBounds (i : Z)   (* an array cell outside its storage is touched *)
| PastTheEnd            (* an iterator equal to [end()] is dereferenced *)
| BadNumber             (* [stoi] finds no digit and throws *)
| Quit                  (* [exit(EXIT_SUCCESS)] *)
| OutOfFuel.            (* the model's loop bound is exhausted *)

Inductive result (A : Type) :=
| Ret (a : A)
| Fault (f : fault).
Arguments Ret {A} a.
Arguments Fault {A} f.

Definition bind {A B} (r : result A) (k : A -> result B) : result B :=
  match r with
  | Ret a => k a
  | Fault f => Fault f
  end.

Notation "'let*' x ':=' r 'in' k" := (bind r (fun x => k))
  (at level 10, x pattern, r at level 200, k at level 200, only parsing).

(** Monadic loop over the values of the loop variable. *)
Fixpoint for_each_r {S} (idx : list Z) (body : Z -> S -> result S) (s : S)
  : result S :=
  match idx with
  | [] => Ret s
  | i :: rest => let* s' := body i s in for_each_r rest body s'
  end.

(** ** class Evaluate *)

(** The heap block behind [bool* visited].  The list holds the cells the
    run may touch; touching any other index is [OutOfBounds]. *)
Definition visited_set (visited : list bool) (i : Z) (b : bool)
  : result (list bool) :=
  if (0 <=? i) && (i <? Z.of_nat (List.length visited))
  then Ret (<[Z.to_nat i := b]> visited)
  else Fault (OutOfBounds i).

Definition visited_get (visited : list bool) (i : Z) : result bool :=
  if (0 <=? i) && (i <? Z.of_nat (List.length visited))
  then Ret (default false (visited !! Z.to_nat i))
  else Fault (OutOfBounds i).

(** The test of the neighbour loop of [isReachable] for the dequeued node
    [s] and a node [y]. *)
Definition linked (sizeofBoard : Z) (g : Graph) (sg : ascii) (s y : Z) : bool :=
  let i := Z.quot y sizeofBoard in
  let j := Z.rem y sizeofBoard in
  let m := Z.quot s sizeofBoard in
  let n := Z.rem s sizeofBoard in
  adjacent g s y && Ascii.eqb (get_sign g i j) sg && Ascii.eqb (get_sign g m n) sg.

(** [for (int y = 0; y < g.V() + 4; y++) if (...) adj.push_back(y);] *)
Definition push_neighbours (sizeofBoard : Z) (g : Graph) (sg : ascii) (s : Z)
  (adj : list Z) : list Z :=
  for_each (loop_up (Z.to_nat (V g + 4)) 0 (V g + 4) 1)
    (fun y adj => if linked sizeofBoard g sg s y then adj ++ [y] else adj) adj.

(** [for (auto i : adj)]: [None] when the destination is met. *)
Fixpoint scan (d : Z) (adj : list Z) (visited : list bool) (queue : list Z)
  : result (option (list bool * list Z)) :=
  match adj with
  | [] => Ret (Some (visited, queue))
  | i :: rest =>
      if i =? d then Ret None
      else
        let* seen := visited_get visited i in
        if negb seen
        then let* visited := visited_set visited i true in
             scan d rest visited (queue ++ [i])
        else scan d rest visited queue
  end.

(** [while (!queue.empty())].  [adj] is declared outside the loop and is
    never cleared, so it is carried from one round to the next. *)
Fixpoint bfs (fuel : nat) (sizeofBoard : Z) (g : Graph) (d : Z) (sg : ascii)
  (adj : list Z) (visited : list bool) (queue : list Z) : result bool :=
  match fuel with
  | O => Fault OutOfFuel
  | S fuel =>
      match queue with
      | [] => Ret false
      | s :: queue =>
          let adj := push_neighbours sizeofBoard g sg s adj in
          let* r := scan d adj visited queue in
          match r with
          | None => Ret true
          | Some (visited, queue) => bfs fuel sizeofBoard g d sg adj visited queue
          end
      end
  end.

(** [Evaluate::isReachable].  [new bool[g.V()]] gives a block of [V g]
    cells; [room] is the number of cells behind the block that the run may
    touch as well ([room = 0] is the C++ abstract machine).  The cells of
    the fresh block are indeterminate in the source; the model starts them
    at [false], which the first loop writes anyway.  The fuel of [bfs] is
    one more than the number of nodes: a node is queued at most once. *)
Definition isReachable (room : Z) (sizeofBoard : Z) (g : Graph) (s d : Z)
  (sg : ascii) : result bool :=
  if s =? d then Ret true
  else
    let visited := replicate (Z.to_nat (V g + room)) false in
    let* visited := for_each_r (loop_up (Z.to_nat (V g + 4)) 0 (V g + 4) 1)
                 (fun i visited => visited_set visited i false) visited in
    let* visited := visited_set visited s true in
    bfs (S (Z.to_nat (V g + 4))) sizeofBoard g d sg [] visited [s].

(** [Evaluate::winnerAI] *)
Definition winnerAI (room : Z) (sizeofBoard : Z) (g : Graph) (playerNum : Z)
  : result Z :=
  if playerNum =? 1 then
    let* won := isReachable room sizeofBoard g (get_startNode g playerNum)
             (get_endNode g playerNum) "X"%char in
    if won then Ret playerNum
    else
      let* won := isReachable room sizeofBoard g (get_startNode g 2)
               (get_endNode g 2) "O"%char in
      if won then Ret 2 else Ret 0
  else
    let* won := isReachable room sizeofBoard g (get_startNode g playerNum)
             (get_endNode g playerNum) "O"%char in
    if won then Ret playerNum
    else
      let* won := isReachable room sizeofBoard g (get_startNode g 1)
               (get_endNode g 1) "X"%char in
      if won then Ret 1 else Ret 0.

(** ** Characters and strings *)

(** The value of a [char] (signed, as on the usual targets of the program). *)
Definition code (c : ascii) : Z :=
  let v := Z.of_N (N_of_ascii c) in if v <? 128 then v else v - 256.

(** [isdigit] and [toupper] are called on the value of a [char].  For a
    negative value (a byte above 127) the C standard leaves the call
    undefined; the answer here is the one of the usual C libraries, which
    take such a value for no digit and no letter. *)
Definition isdigit (c : ascii) : bool := (48 <=? code c) && (code c <=? 57).

Definition toupper (c : ascii) : ascii :=
  if (97 <=? code c) && (code c <=? 122)
  then ascii_of_N (Z.to_N (code c - 32)) else c.

(** [command[i]] for [i <= length]; the terminating NUL is read at
    [i = length].  A read past the terminator is undefined in the source:
    the one place where the program makes such a read, [command[1]] of an
    empty entry in [validMove], is a fault there, and the value [char_at]
    has past the terminator decides nothing. *)
Definition char_at (command : string) (i : nat) : ascii :=
  match String.get i command with
  | Some c => c
  | None => "000"%char
  end.

Definition strlen (command : string) : Z := Z.of_nat (String.length command).

Fixpoint stoi_digits (acc : Z) (s : string) : Z :=
  match s with
  | String c rest =>
      if isdigit c then stoi_digits (acc * 10 + (code c - 48)) rest else acc
  | EmptyString => acc
  end.

(** [std::stoi] on a string that starts with a digit; it throws when the
    string holds no number.  (Leading blanks and signs never reach it.) *)
Definition stoi (s : string) : result Z :=
  if isdigit (char_at s 0) then Ret (stoi_digits 0 s) else Fault BadNumber.

(** [coordinates(command)] *)
Definition coordinates (command : string) : result (Z * Z) :=
  let substring := String.substring 1 2 command in
  let y := code (char_at command 0) - 65 in
  let* v := stoi substring in
  Ret (v - 1, y).

(** ** class hexGame *)

(** [hexGame::validMove].  The first test that looks at the characters
    reads [command[1]]: on an empty entry that is a read past the
    terminator, undefined in the source and [OutOfBounds 1] here.  On any
    other entry the reads stay within the string: [command[0]] and
    [command[1]] are at most the terminator, and [command[2]] decides only
    where the length is 3.  The read of [sign] at the parsed coordinates is
    checked against the vector's size: [OutOfBounds] where the source has
    undefined behaviour. *)
Definition validMove (sizeofBoard : Z) (g : Graph) (command : string)
  : result bool :=
  let maxNum := 48 + sizeofBoard in
  let maxLetter := 65 + sizeofBoard - 1 in
  let c0 := code (char_at command 0) in
  let c1 := code (char_at command 1) in
  let c2 := code (char_at command 2) in
  let len := strlen command in
  if String.eqb command "-1" then Fault Quit
  else if len =? 0 then Fault (OutOfBounds 1)
  else if ((2 <? len) && (sizeofBoard <? 10)) || (maxNum <? c1) || (maxLetter <? c0)
  then Ret false
  else if (len <? 2) || (3 <? len) || (c0 <? 65) || (75 <? c0)
  then Ret false
  else if negb (isdigit (char_at command 1))
          || ((len =? 3) && negb (isdigit (char_at command 2)))
          || ((len =? 3) && ((49 <? c1) || (49 <? c2)))
          || ((sizeofBoard =? 10) && (len =? 3) && ((49 <? c1) || (48 <? c2)))
  then Ret false
  else
    let* (x, y) := coordinates command in
    let k := x * numVertices g + y in
    if (0 <=? k) && (k <? Z.of_nat (List.length (sign g))) then
      if negb (Ascii.eqb (get_sign g x y) ".") then Ret false else Ret true
    else Fault (OutOfBounds k).

(** [hexGame::playerMove]: the board after the call and the returned flag. *)
Definition playerMove (sizeofBoard : Z) (g : Graph) (command : string)
  (playerNum : Z) : result (Graph * bool) :=
  let command :=
    match command with
    | String c rest => String (toupper c) rest
    | EmptyString => EmptyString
    end in
  let sg := if playerNum =? 1 then "X"%char else "O"%char in
  let* valid := validMove sizeofBoard g command in
  if valid then
    let* (x, y) := coordinates command in
    Ret (place sizeofBoard g x y sg, true)
  else Ret (g, false).

(** The two nested loops of [availablePositions], before the shuffle. *)
Definition free_cells (sizeofBoard : Z) (g : Graph) : list (Z * Z) :=
  for_each (loop_up (Z.to_nat sizeofBoard) 0 sizeofBoard 1)
    (fun i avail =>
       for_each (loop_up (Z.to_nat sizeofBoard) 0 sizeofBoard 1)
         (fun j avail =>
            if Ascii.eqb (get_sign g i j) "." then avail ++ [(i, j)] else avail)
         avail)
    [].

(** Strict comparison of two [double]s, modelled by exact rationals. *)
Definition Qltb (a b : Q) : bool := negb (Qle_bool b a).

Section Evaluator.

(** Cells behind the block of [visited] that a run may touch. *)
Variable room : Z.

(** [std::shuffle] driven by [default_random_engine{seed}]: the order it
    leaves the vector in is fixed by the seed and the vector. *)
Variable shuffle : Z -> list (Z * Z) -> list (Z * Z).

(** [hexGame::availablePositions].  [tick] is the count read from
    [steady_clock] by this call; the seed is its cast to [unsigned int]. *)
Definition availablePositions (tick : Z) (sizeofBoard : Z) (g : Graph)
  : list (Z * Z) :=
  let seed := tick mod 2 ^ 32 in
  shuffle seed (free_cells sizeofBoard g).

(** [while (winner == 0)] of one simulation; [rest] is what [posptr] has
    still to walk. *)
Fixpoint playout (sizeofBoard playerNum : Z) (sg sgH : ascii)
  (rest : list (Z * Z)) (currentG : Graph) (total goesNext winner : Z)
  : result Z :=
  if winner =? 0 then
    match rest with
    | [] => Fault PastTheEnd
    | (i, j) :: rest =>
        let currentG :=
          if goesNext =? playerNum
          then place sizeofBoard currentG i j sg
          else place sizeofBoard currentG i j sgH in
        let total := total - 1 in
        let goesNext := Z.rem (goesNext * 2) 3 in
        let* winner :=
          (if total =? 0 then winnerAI room sizeofBoard currentG playerNum
           else Ret winner) in
        playout sizeofBoard playerNum sg sgH rest currentG total goesNext winner
    end
  else Ret winner.

(** The simulation loop of [probMonteCarlo]; [rounds] counts the rounds
    before [it < numsim] fails, [ticks it] is the clock count read in
    round [it].  Returns [numwins].

    The test of the cutoff is made on exact rationals.  The source makes
    it on [double]s, and the two differ for some [numsim] and [bestProb]
    (with [numsim = 49] and the rate 1/49, [doubles_differ]).  They agree
    where the program makes the call: [numsim] is [SIMUL] and [bestProb]
    is -1 or a rate [w / SIMUL] of an earlier candidate.
    [simulations_double] below is the loop on [double]s, and
    [monteCarloSims_double_agrees] proves that the evaluator on [double]s
    returns what this one returns. *)
Fixpoint simulations (rounds : nat) (ticks : Z -> Z) (sizeofBoard : Z)
  (g : Graph) (bestProb : Q) (playerNum numsim : Z) (sg sgH : ascii)
  (winnerG it numwins : Z) : result Z :=
  match rounds with
  | O => Ret numwins
  | S rounds =>
      if Qltb (bestProb * inject_Z numsim) (inject_Z ((numsim - it) + numwins))
      then
        let goesNext := Z.rem (playerNum * 2) 3 in
        let available := availablePositions (ticks it) sizeofBoard g in
        let total := Z.of_nat (List.length available) in
        let* winner :=
          playout sizeofBoard playerNum sg sgH available g total goesNext winnerG in
        let numwins := if winner =? playerNum then numwins + 1 else numwins in
        simulations rounds ticks sizeofBoard g bestProb playerNum numsim sg sgH
          winnerG (it + 1) numwins
      else Ret numwins
  end.

(** [hexGame::probMonteCarlo] *)
Definition probMonteCarlo (ticks : Z -> Z) (sizeofBoard : Z) (g : Graph)
  (i : Z * Z) (bestProb : Q) (playerNum numsim : Z) : result Q :=
  let sg := if playerNum =? 1 then "X"%char else "O"%char in
  let sgH := if playerNum =? 1 then "O"%char else "X"%char in
  let '(x, y) := i in
  let g := place sizeofBoard g x y sg in
  let* winnerG := winnerAI room sizeofBoard g playerNum in
  let* numwins :=
    simulations (Z.to_nat numsim) ticks sizeofBoard g bestProb playerNum
      numsim sg sgH winnerG 0 0 in
  Ret (inject_Z numwins / inject_Z numsim)%Q.

(** [for (auto i : candidates)] of [monteCarloSims]; [ci] numbers the
    candidates, [ticks ci] are the clock counts of its simulations, and
    [numsim] is the number of simulations per candidate ([SIMUL] in the
    call). *)
Fixpoint candidates_loop (ticks : nat -> Z -> Z) (sizeofBoard : Z)
  (g : Graph) (playerNum numsim : Z) (candidates : list (Z * Z)) (ci : nat)
  (bestMove : Z * Z) (bestprob : Q) : result (Z * Z) :=
  match candidates with
  | [] => Ret bestMove
  | i :: rest =>
      let* probMC :=
        probMonteCarlo (ticks ci) sizeofBoard g i bestprob playerNum numsim in
      if Qltb bestprob probMC
      then candidates_loop ticks sizeofBoard g playerNum numsim rest (S ci) i probMC
      else candidates_loop ticks sizeofBoard g playerNum numsim rest (S ci)
             bestMove bestprob
  end.

(** [hexGame::monteCarloSims].  [pair<int,int> bestMove;] is
    value-initialised to (0,0); [tick0] is the clock count of the
    candidate shuffle.  The locals [visited], [total] and [threads] are
    never read and are left out. *)
Definition monteCarloSims (tick0 : Z) (ticks : nat -> Z -> Z)
  (sizeofBoard : Z) (g : Graph) (playerNum : Z) : result (Z * Z) :=
  let candidates := availablePositions tick0 sizeofBoard g in
  candidates_loop ticks sizeofBoard g playerNum SIMUL candidates 0%nat
    (0, 0) (-1)%Q.

(** [hexGame::aiMove]: the board after the call. *)
Definition aiMove (tick0 : Z) (ticks : nat -> Z -> Z) (sizeofBoard : Z)
  (g : Graph) (playerNum : Z) : result Graph :=
  let sg := if playerNum =? 1 then "X"%char else "O"%char in
  let* (x, y) := monteCarloSims tick0 ticks sizeofBoard g playerNum in
  Ret (place sizeofBoard g x y sg).

(** *** The evaluator of the specification without the early cutoff

    Every candidate runs all its [numsim] simulations; the rest is
    [probMonteCarlo] and the loop of [monteCarloSims]. *)
Fixpoint all_simulations (rounds : nat) (ticks : Z -> Z) (sizeofBoard : Z)
  (g : Graph) (playerNum : Z) (sg sgH : ascii) (winnerG it numwins : Z)
  : result Z :=
  match rounds with
  | O => Ret numwins
  | S rounds =>
      let goesNext := Z.rem (playerNum * 2) 3 in
      let available := availablePositions (ticks it) sizeofBoard g in
      let total := Z.of_nat (List.length available) in
      let* winner :=
        playout sizeofBoard playerNum sg sgH available g total goesNext winnerG in
      let numwins := if winner =? playerNum then numwins + 1 else numwins in
      all_simulations rounds ticks sizeofBoard g playerNum sg sgH winnerG
        (it + 1) numwins
  end.

Definition probMonteCarlo_full (ticks : Z -> Z) (sizeofBoard : Z) (g : Graph)
  (i : Z * Z) (playerNum numsim : Z) : result Q :=
  let sg := if playerNum =? 1 then "X"%char else "O"%char in
  let sgH := if playerNum =? 1 then "O"%char else "X"%char in
  let '(x, y) := i in
  let g := place sizeofBoard g x y sg in
  let* winnerG := winnerAI room sizeofBoard g playerNum in
  let* numwins :=
    all_simulations (Z.to_nat numsim) ticks sizeofBoard g playerNum sg sgH
      winnerG 0 0 in
  Ret (inject_Z numwins / inject_Z numsim)%Q.

Fixpoint candidates_loop_full (ticks : nat -> Z -> Z) (sizeofBoard : Z)
  (g : Graph) (playerNum numsim : Z) (candidates : list (Z * Z)) (ci : nat)
  (bestMove : Z * Z) (bestprob : Q) : result (Z * Z) :=
  match candidates with
  | [] => Ret bestMove
  | i :: rest =>
      let* probMC :=
        probMonteCarlo_full (ticks ci) sizeofBoard g i playerNum numsim in
      if Qltb bestprob probMC
      then candidates_loop_full ticks sizeofBoard g playerNum numsim rest (S ci)
             i probMC
      else candidates_loop_full ticks sizeofBoard g playerNum numsim rest (S ci)
             bestMove bestprob
  end.

(** *** The moves of a game *)

(** One move on the shared board: a call of [playerMove] (the board is
    unchanged when the entry is refused), or a call of [aiMove] on a board
    that has an empty cell. *)
Inductive game_step (sizeofBoard : Z) : Graph -> Graph -> Prop :=
| step_player g command playerNum g' valid :
    playerMove sizeofBoard g command playerNum = Ret (g', valid) ->
    game_step sizeofBoard g g'
| step_ai g tick0 ticks playerNum g' :
    free_cells sizeofBoard g <> [] ->
    aiMove tick0 ticks sizeofBoard g playerNum = Ret g' ->
    game_step sizeofBoard g g'.

End Evaluator.

(** ** Game::start: the board size *)

Definition INT_MAX : Z := 2147483647.
Definition INT_MIN : Z := -2147483648.

(** What a read [cin >> sizeofBoard] finds in the input: a number, or text
    that is no number. *)
Inductive entry : Type :=
| Number (v : Z)
| NotANumber.

(** [cin >> sizeofBoard] and the loop that asks again.  [typed] is what
    the reads find, one entry after the other, up to the end of the input;
    [asked] counts the times the program has asked again.

    A read fails on text that is no number, on a number that does not fit
    an [int] and at the end of the input.  It leaves [cin] failed and
    [sizeofBoard] outside 2..11 (0, [INT_MAX], [INT_MIN], or the refused
    value it had), so every later read fails as well: the loop asks for
    ever and no board is made, which is [None].  Otherwise the loop ends
    at the first entry within 2..11 and the result is that entry with the
    number of times the program has asked again. *)
Fixpoint read_sizeofBoard (typed : list entry) (asked : nat)
  : option (Z * nat) :=
  match typed with
  | Number v :: rest =>
      if (v <? INT_MIN) || (INT_MAX <? v) then None
      else if (v <? 2) || (11 <? v) then read_sizeofBoard rest (S asked)
      else Some (v, asked)
  | NotANumber :: _ => None
  | [] => None
  end.

(** The board [Game::start] plays on, [Graph g(sizeofBoard * sizeofBoard + 4)],
    with its side and the number of times the size was asked again. *)
Definition start_board (typed : list entry) : option (Z * nat * Graph) :=
  match read_sizeofBoard typed 0 with
  | Some (n, asked) => Some (n, asked, Graph_new n (n * n + 4))
  | None => None
  end.


(** ** Boards and moves *)

Definition cell (sizeofBoard x y : Z) : Z := x * sizeofBoard + y.

(** The sign of node [u], read the way [isReachable] reads it. *)
Definition node_sign (sizeofBoard : Z) (g : Graph) (u : Z) : ascii :=
  get_sign g (Z.quot u sizeofBoard) (Z.rem u sizeofBoard).

(** The sign a player places. *)
Definition sign_of (playerNum : Z) : ascii :=
  if playerNum =? 1 then "X"%char else "O"%char.

(** Boards reached from the fresh board by legal moves: a stone ['X'] or
    ['O'] placed on an empty cell of the board. *)
Inductive reachable (n : Z) : Graph -> Prop :=
| reachable_new : reachable n (Graph_new n (n * n + 4))
| reachable_place g x y s :
    reachable n g ->
    0 <= x < n -> 0 <= y < n ->
    get_sign g x y = "."%char ->
    s = "X"%char \/ s = "O"%char ->
    reachable n (place n g x y s).

(** The sizes of the vectors of a board of side [n]. *)
Definition sized (n : Z) (g : Graph) : Prop :=
  numVertices g = n * n + 4 /\
  List.length (adjMatrix g) = Z.to_nat ((n * n + 4) * (n * n + 4)) /\
  List.length (sign g) = Z.to_nat ((n * n + 4) * (n * n + 4)).

(** The sizes and the start and end nodes of a board of side [n]. *)
Definition shaped (n : Z) (g : Graph) : Prop :=
  sized n g /\
  startNode g = [0; n * n + 2; n * n] /\
  endNode g = [0; n * n + 3; n * n + 1].

(** Node [w] is one of the neighbours that [setEdges] links to cell (x,y). *)
Definition nbr_node (n x y w : Z) : Prop :=
  (0 < x /\ w = (x - 1) * n + y) \/
  (0 < x /\ y < n - 1 /\ w = (x - 1) * n + y + 1) \/
  (0 < y /\ w = x * n + y - 1) \/
  (0 < y /\ x < n - 1 /\ w = (x + 1) * n + y - 1) \/
  (y < n - 1 /\ w = x * n + y + 1) \/
  (x < n - 1 /\ w = (x + 1) * n + y).

(** The edges at the four virtual nodes, as the constructor lays them. *)
Definition border_edge (n u v : Z) : Prop :=
  (u = n * n + 2 /\ 0 <= v < n) \/
  (u = n * n + 3 /\ n * n - n <= v < n * n) \/
  (u = n * n /\ 0 <= v < n * n /\ v mod n = 0) \/
  (u = n * n + 1 /\ 0 <= v < n * n /\ v mod n = n - 1).

(** ** Winning chains *)

(** [u], then the nodes of [path], then [v]: each adjacent to the next. *)
Fixpoint chain (g : Graph) (u : Z) (path : list Z) (v : Z) : Prop :=
  match path with
  | [] => adjacent g u v = true
  | w :: rest => adjacent g u w = true /\ chain g w rest v
  end.

(** A path from the start node of the player to its end node whose
    intermediate nodes are cells of the board that carry the player's sign. *)
Definition winning_chain (n : Z) (g : Graph) (playerNum : Z) : Prop :=
  exists cells,
    (forall c, In c cells -> 0 <= c < n * n /\ node_sign n g c = sign_of playerNum) /\
    chain g (get_startNode g playerNum) cells (get_endNode g playerNum).

(** The connectivity query made for a player by [winnerAI]. *)
Definition has_winning_chain (room n : Z) (g : Graph) (playerNum : Z) : result bool :=
  isReachable room n g (get_startNode g playerNum) (get_endNode g playerNum)
    (sign_of playerNum).


(** ** The constructor, block by block *)

(** The board after the diagonal has been cleared: no edge yet. *)
Definition blank (nv : Z) (g : Graph) : Prop :=
  numVertices g = nv /\
  List.length (adjMatrix g) = Z.to_nat (nv * nv) /\
  sign g = replicate (Z.to_nat (nv * nv)) "."%char /\
  startNode g = [0; 0; 0] /\ endNode g = [0; 0; 0] /\
  forall k, vget 0 (adjMatrix g) k = INFINIT \/ vget 0 (adjMatrix g) k = 0.

(** The slot of [sign] that holds the sign of node [u]. *)
Definition sign_slot (n u : Z) : Z := Z.quot u n * (n * n + 4) + Z.rem u n.

(** One block of the constructor: the sign of a virtual node, then its
    edges. *)
Definition border_block (n : Z) (g : Graph) (a : Z) (c : ascii) (idx : list Z)
  : Graph :=
  for_each idx (fun i g => set_edge_value g a i 1)
    (set_sign g (Z.quot a n) (Z.rem a n) c).

(** The boards the constructor goes through: the cleared diagonal, then
    the blocks of the north, south, west and east nodes. *)
Definition new_blank (nv : Z) : Graph :=
  for_each (loop_up (Z.to_nat nv) 0 nv 1)
    (fun i g => mkGraph (vset (adjMatrix g) (i * nv + i) 0) (sign g)
                  (numVertices g) (numEdges g) (startNode g) (endNode g))
    (mkGraph (replicate (Z.to_nat (nv * nv)) INFINIT)
             (replicate (Z.to_nat (nv * nv)) "."%char) nv 0 [0; 0; 0] [0; 0; 0]).

Definition new_north (n nv : Z) : Graph :=
  border_block n (new_blank nv) (n * n + 2) "X"
    (loop_up (Z.to_nat n) 0 n 1).

Definition new_south (n nv : Z) : Graph :=
  border_block n (new_north n nv) (n * n + 3) "X"
    (loop_down (Z.to_nat n) (V (new_north n nv) - 1) (V (new_north n nv) - n)).

Definition new_west (n nv : Z) : Graph :=
  border_block n (new_south n nv) (n * n) "O"
    (loop_up (Z.to_nat (V (new_south n nv))) 0 (V (new_south n nv)) n).

Definition new_east (n nv : Z) : Graph :=
  border_block n (new_west n nv) (n * n + 1) "O"
    (loop_up (Z.to_nat (V (new_west n nv))) (n - 1) (V (new_west n nv)) n).

(** ** Edges of a reached board *)

(** [u] is an occupied cell and [v] one of its neighbours on the board. *)
Definition stone_edge (n : Z) (g : Graph) (u v : Z) : Prop :=
  exists x y, 0 <= x < n /\ 0 <= y < n /\ u = cell n x y /\
    nbr_node n x y v /\ node_sign n g u <> "."%char.

(** ** The state of the search *)

(** Node [i] is marked in [visited]. *)
Definition marked (visited : list bool) (i : Z) : Prop :=
  0 <= i /\ visited !! Z.to_nat i = Some true.

(** The number of nodes below [nv] that are not marked. *)
Definition unmarked (nv : nat) (visited : list bool) : nat :=
  List.length (List.filter (fun k => negb (default false (visited !! k))) (seq 0 nv)).

(** The edges the search follows. *)
Definition follows (n : Z) (g : Graph) (sg : ascii) (u v : Z) : Prop :=
  0 <= v < V g + 4 /\ linked n g sg u v = true.

(** What holds of the state at the head of every round of [bfs], for a
    search started at [s0]. *)
Definition search_inv (n : Z) (g : Graph) (d : Z) (sg : ascii) (s0 : Z)
  (adj : list Z) (visited : list bool) (queue : list Z) : Prop :=
  (Z.to_nat (V g + 4) <= List.length visited)%nat /\
  (forall i, In i queue -> marked visited i) /\
  (forall i, marked visited i ->
     0 <= i < V g + 4 /\ rtc (follows n g sg) s0 i /\ i <> d) /\
  (forall i, In i adj -> marked visited i) /\
  (forall u v, marked visited u -> ~ In u queue -> follows n g sg u v ->
     marked visited v) /\
  marked visited s0.

(** ** The game of Y and the board of Hex *)

(** A board of Y of side [m] is the triangle of the points (i,j) with
    [0 <= i], [0 <= j], [i + j <= m - 1]; a colour wins when one of its
    connected groups touches the three sides.  [nb]: the six neighbours of
    a point, which are the six neighbours [setEdges] gives a cell. *)
Definition nb (p q : Z * Z) : Prop :=
  -1 <= q.1 - p.1 <= 1 /\ -1 <= q.2 - p.2 <= 1 /\
  -1 <= (q.1 - p.1) + (q.2 - p.2) <= 1 /\ p <> q.

Definition inT (m : Z) (p : Z * Z) : Prop :=
  0 <= p.1 /\ 0 <= p.2 /\ p.1 + p.2 <= m - 1.

Definition ystep (m : Z) (f : Z * Z -> bool) (c : bool) (p q : Z * Z) : Prop :=
  inT m p /\ inT m q /\ f p = c /\ f q = c /\ nb p q.

Definition yconn (m : Z) (f : Z * Z -> bool) (c : bool) : Z * Z -> Z * Z -> Prop :=
  rtc (ystep m f c).

Definition ywin (m : Z) (f : Z * Z -> bool) (c : bool) : Prop :=
  exists a b e, inT m a /\ f a = c /\ a.1 = 0 /\ b.2 = 0 /\ e.1 + e.2 = m - 1 /\
    yconn m f c a b /\ yconn m f c a e.

(** The majority of three colours. *)
Definition maj (a b c : bool) : bool := (a && b) || (a && c) || (b && c).

(** The colour of a point of the reduced triangle: the majority of the
    small triangle above it. *)
Definition red (f : Z * Z -> bool) (p : Z * Z) : bool :=
  maj (f p) (f (p.1 + 1, p.2)) (f (p.1, p.2 + 1)).

(** [u] is one of the three points of the small triangle above [p]. *)
Definition tri (p u : Z * Z) : Prop :=
  u = p \/ u = (p.1 + 1, p.2) \/ u = (p.1, p.2 + 1).

(** The board of Hex of side [n]: the points of the square, with the
    neighbours of the triangle.  The colour [true] joins the rows 0 and
    [n - 1], the colour [false] the columns 0 and [n - 1]. *)
Definition inR (n : Z) (p : Z * Z) : Prop := 0 <= p.1 < n /\ 0 <= p.2 < n.

Definition hstep (n : Z) (h : Z * Z -> bool) (c : bool) (p q : Z * Z) : Prop :=
  inR n p /\ inR n q /\ h p = c /\ h q = c /\ nb p q.

Definition hconn (n : Z) (h : Z * Z -> bool) (c : bool) : Z * Z -> Z * Z -> Prop :=
  rtc (hstep n h c).

Definition hwin_rows (n : Z) (h : Z * Z -> bool) : Prop :=
  exists a b, inR n a /\ h a = true /\ a.1 = 0 /\ b.1 = n - 1 /\ hconn n h true a b.

Definition hwin_cols (n : Z) (h : Z * Z -> bool) : Prop :=
  exists a b, inR n a /\ h a = false /\ a.2 = 0 /\ b.2 = n - 1 /\ hconn n h false a b.

(** The triangle of side [2 n - 1] around the square: [true] below the
    last row, [false] right of the last column. *)
Definition fill (n : Z) (h : Z * Z -> bool) (p : Z * Z) : bool :=
  if p.1 <? n then (if p.2 <? n then h p else false) else true.

(** ** The board of the program as a board of Hex *)

(** The colouring of the cells: [true] for ['X']. *)
Definition colour (g : Graph) (p : Z * Z) : bool :=
  Ascii.eqb (get_sign g p.1 p.2) "X".

(** Every cell of the board holds a stone. *)
Definition full (n : Z) (g : Graph) : Prop :=
  forall x y, 0 <= x < n -> 0 <= y < n -> get_sign g x y <> "."%char.

(** The point of the board behind a node. *)
Definition point (n c : Z) : Z * Z := (c / n, c mod n).

(** ** Empty cells *)

(** Cell (x,y) of the board is empty. *)
Definition is_free (n : Z) (g : Graph) (q : Z * Z) : Prop :=
  0 <= q.1 < n /\ 0 <= q.2 < n /\ get_sign g q.1 q.2 = "."%char.

(** ** Concrete boards *)

(** A shuffle that leaves the order as it is, for the concrete runs. *)
Definition no_shuffle (seed : Z) (l : list (Z * Z)) : list (Z * Z) := l.

(** The fresh board of side 2, and the same board with a stone on every
    cell. *)
Definition fresh2 : Graph := Graph_new 2 8.

Definition full2 : Graph :=
  place 2 (place 2 (place 2 (place 2 fresh2 0 0 "X") 0 1 "O") 1 0 "X") 1 1 "O".

(** ** The move [aiMove] prints *)

(** [cout << v] for an [int]: the decimal digits, the most significant
    first, after the sign. *)
Fixpoint show_digits (fuel : nat) (v : Z) (acc : string) : string :=
  match fuel with
  | O => acc
  | S k =>
      let acc := String (ascii_of_N (Z.to_N (48 + Z.rem v 10))) acc in
      if v <? 10 then acc else show_digits k (Z.quot v 10) acc
  end.

Definition show_int (v : Z) : string :=
  if v <? 0 then String "-" (show_digits 10 (- v) EmptyString)
  else show_digits 10 v EmptyString.

(** [cout << static_cast<char>(y + 'A'); cout << x + 1] of [aiMove]: the
    text of the cell the AI has chosen. *)
Definition move_text (x y : Z) : string :=
  String (ascii_of_N (Z.to_N ((y + 65) mod 256))) (show_int (x + 1)).

(** ** Game::start: the turn loop *)

(** The members of [Game] that the turn loop reads and writes. *)
Record Game := mkGame {
  moveCount : Z;
  movesAI : Z;
  valid : bool;
  command : string;
  winner : Z;
  user : Z;
  computer : Z;
  goesNext : Z
}.

(** The members when the loop is entered: the initialisers of the class
    ([bool valid = -1] is [true]) and the answer [swap] to the question
    whether the user wants to go second. *)
Definition Game_start (swap : ascii) : Game :=
  if Ascii.eqb (toupper swap) "N"
  then mkGame 0 0 true EmptyString 0 1 2 1
  else mkGame 0 0 true EmptyString 0 2 1 1.

(** [while (command != "-1" && winner == 0)] *)
Definition in_play (st : Game) : bool :=
  negb (String.eqb (command st) "-1") && (winner st =? 0).

Section Flow.

Variable room : Z.
Variable shuffle : Z -> list (Z * Z) -> list (Z * Z).

(** One round of the loop.  [typed] is what [cin >> command] reads in a
    round of the user, [tick0] and [ticks] are the clock counts read in a
    round of the AI.  [drawBoard] only prints. *)
Definition turn (tick0 : Z) (ticks : nat -> Z -> Z) (typed : string)
  (sizeofBoard : Z) (g : Graph) (st : Game) : result (Graph * Game) :=
  let* (g, st) :=
    (if negb (goesNext st =? user st) then
       let* g := aiMove room shuffle tick0 ticks sizeofBoard g (computer st) in
       let movesAI' := movesAI st + 1 in
       let* winner' :=
         (if sizeofBoard <=? movesAI'
          then winnerAI room sizeofBoard g (computer st)
          else Ret (winner st)) in
       Ret (g, mkGame (moveCount st) movesAI' (valid st) (command st) winner'
                 (user st) (computer st) (goesNext st))
     else
       let* (g, valid') := playerMove sizeofBoard g typed (user st) in
       if valid' then
         let moveCount' := moveCount st + 1 in
         let* winner' :=
           (if sizeofBoard <=? moveCount'
            then winnerAI room sizeofBoard g (user st)
            else Ret (winner st)) in
         Ret (g, mkGame moveCount' (movesAI st) valid' typed winner'
                   (user st) (computer st) (goesNext st))
       else
         Ret (g, mkGame (moveCount st) (movesAI st) valid' typed (winner st)
                   (user st) (computer st) (goesNext st))) in
  if negb (winner st =? 0) then Ret (g, st)
  else if valid st
  then Ret (g, mkGame (moveCount st) (movesAI st) (valid st) (command st)
                 (winner st) (user st) (computer st)
                 (Z.rem (goesNext st * 2) 3))
  else Ret (g, st).

(** The rounds of a game: the loop test holds and the round returns. *)
Definition round (sizeofBoard : Z) (s s' : Graph * Game) : Prop :=
  in_play s.2 = true /\
  exists tick0 ticks typed, turn tick0 ticks typed sizeofBoard s.1 s.2 = Ret s'.

End Flow.

(** ** Counting stones and edges *)

(** The pairs (i, j) of numbers below [n], row by row: the cells of the
    board of side [n]. *)
Definition cells (n : Z) : list (Z * Z) :=
  flat_map (fun i => map (pair i) (loop_up (Z.to_nat n) 0 n 1))
    (loop_up (Z.to_nat n) 0 n 1).

(** The number of cells of the board that show the sign [s]. *)
Definition stones (n : Z) (g : Graph) (s : ascii) : Z :=
  Z.of_nat (List.length
    (List.filter (fun q => Ascii.eqb (get_sign g q.1 q.2) s) (cells n))).

(** The pairs of nodes [u < v] of a graph of [nv] nodes. *)
Definition node_pairs (nv : Z) : list (Z * Z) :=
  List.filter (fun q => q.1 <? q.2) (cells nv).

(** The number of edges in the matrix, each counted once. *)
Definition edge_count (g : Graph) : Z :=
  Z.of_nat (List.length
    (List.filter (fun q => adjacent g q.1 q.2) (node_pairs (numVertices g)))).

(** The matrix of the graph of a board of side [n] is as it should be: it
    is symmetric, no node is linked to itself, it holds 0 on the diagonal,
    1 for an edge and [INFINIT] elsewhere, and [numEdges] is the number of
    its edges. *)
Definition counted (n : Z) (g : Graph) : Prop :=
  sized n g /\
  (forall u v, 0 <= u < n * n + 4 -> 0 <= v < n * n + 4 ->
     adjacent g u v = adjacent g v u) /\
  (forall u, 0 <= u < n * n + 4 -> adjacent g u u = false) /\
  E g = edge_count g /\
  (forall u v, 0 <= u < n * n + 4 -> 0 <= v < n * n + 4 ->
     get_edge_value g u v =
     if u =? v then 0 else if adjacent g u v then 1 else INFINIT).

(** The line of a cell that counts for a player: its row for player 1,
    who joins north and south, its column for player 2. *)
Definition line (n p c : Z) : Z := if p =? 1 then c / n else c mod n.

(** ** The entries [validMove] refuses by their text *)

(** The three tests of [validMove] on the text of the entry alone. *)
Definition refused (sizeofBoard : Z) (command : string) : bool :=
  let maxNum := 48 + sizeofBoard in
  let maxLetter := 65 + sizeofBoard - 1 in
  let c0 := code (char_at command 0) in
  let c1 := code (char_at command 1) in
  let c2 := code (char_at command 2) in
  let len := strlen command in
  (((2 <? len) && (sizeofBoard <? 10)) || (maxNum <? c1) || (maxLetter <? c0))
  || ((len <? 2) || (3 <? len) || (c0 <? 65) || (75 <? c0))
  || (negb (isdigit (char_at command 1))
      || ((len =? 3) && negb (isdigit (char_at command 2)))
      || ((len =? 3) && ((49 <? c1) || (49 <? c2)))
      || ((sizeofBoard =? 10) && (len =? 3) && ((49 <? c1) || (48 <? c2)))).

(** The entries made of the letter of a column and the number of a row of
    the board, as [aiMove] prints them, that pass the tests and are read
    back as the cell they name. *)
Definition reads_back (sizeofBoard x y : Z) : bool :=
  negb (String.eqb (move_text x y) "-1") &&
  negb (refused sizeofBoard (move_text x y)) &&
  match coordinates (move_text x y) with
  | Ret (a, b) => (a =? x) && (b =? y)
  | Fault _ => false
  end &&
  match move_text x y with
  | String c _ => Ascii.eqb (toupper c) c
  | EmptyString => false
  end.

(** ** What the turn loop keeps *)

(** The state at the head of a round of the loop of [Game::start] on a
    board of side [n]. *)
Definition game_inv (n : Z) (s : Graph * Game) : Prop :=
  let g := s.1 in
  let st := s.2 in
  reachable n g /\
  ((user st = 1 /\ computer st = 2) \/ (user st = 2 /\ computer st = 1)) /\
  (goesNext st = 1 \/ goesNext st = 2) /\
  stones n g (sign_of (user st)) = moveCount st /\
  stones n g (sign_of (computer st)) = movesAI st /\
  stones n g "O" <= stones n g "X" <= stones n g "O" + 1 /\
  (winner st = 0 ->
     ~ winning_chain n g 1 /\ ~ winning_chain n g 2 /\
     (goesNext st <> user st -> valid st = true) /\
     stones n g "X" = stones n g "O" + (if goesNext st =? 1 then 0 else 1)) /\
  (winner st <> 0 ->
     (winner st = 1 \/ winner st = 2) /\ winning_chain n g (winner st) /\
     stones n g "X" = stones n g "O" + (if winner st =? 1 then 1 else 0)).

(** ** The board a simulation ends on *)

(** The board after the moves of the loop of one simulation: a stone on
    every cell of [rest] in turn, of the sign of the player whose turn it
    is. *)
Fixpoint played (sizeofBoard playerNum : Z) (sg sgH : ascii)
  (rest : list (Z * Z)) (currentG : Graph) (goesNext : Z) : Graph :=
  match rest with
  | [] => currentG
  | (i, j) :: rest =>
      played sizeofBoard playerNum sg sgH rest
        (if goesNext =? playerNum
         then place sizeofBoard currentG i j sg
         else place sizeofBoard currentG i j sgH)
        (Z.rem (goesNext * 2) 3)
  end.

(** ** Graphs as the class lays them out *)

(** The two vectors of a graph hold [numVertices * numVertices] entries,
    as the constructor sizes them, and the graph has its four virtual
    nodes. *)
Definition well_formed (g : Graph) : Prop :=
  4 <= numVertices g /\
  List.length (adjMatrix g) = Z.to_nat (numVertices g * numVertices g) /\
  List.length (sign g) = Z.to_nat (numVertices g * numVertices g).

(** ** The end of [Game::start] *)

(** The message after the loop. *)
Inductive verdict := UserWon | AIWon.

(** [if (winner == user) ... else ...] after the loop: the message, and the
    player number and the count printed in the line "Total move count for
    player ...". *)
Definition final_report (st : Game) : verdict * Z * Z :=
  if winner st =? user st
  then (UserWon, user st, moveCount st)
  else (AIWon, computer st, moveCount st).

(** ** The entry as [playerMove] reads it *)


(** ** The simulations a player wins *)

Section Won.

Variable room : Z.
Variable shuffle : Z -> list (Z * Z) -> list (Z * Z).

(** The simulation that reads the clock count [tick], on the board [g]
    with the candidate placed, ends on a board that player [p] has won. *)
Definition won_simulation (n : Z) (g : Graph) (p : Z) (tick : Z) : bool :=
  match
    winnerAI room n
      (played n p (if p =? 1 then "X"%char else "O"%char)
         (if p =? 1 then "O"%char else "X"%char)
         (availablePositions shuffle tick n g) g (Z.rem (p * 2) 3)) p
  with
  | Ret w => w =? p
  | Fault _ => false
  end.

(** The number of the simulations [first .. first + rounds - 1] that
    player [p] wins. *)
Definition wins (n : Z) (g : Graph) (p : Z) (ticks : Z -> Z)
  (rounds : nat) (first : Z) : Z :=
  Z.of_nat (List.length
    (List.filter (fun it => won_simulation n g p (ticks it))
       (loop_up rounds first (first + Z.of_nat rounds) 1))).

End Won.

(** ** The evaluator on one clock

    Every call of [availablePositions] reads [steady_clock] once, so a
    call of [monteCarloSims] reads it once for the candidates and once for
    each simulation that is run, one read after the other.  The functions
    below carry the number of reads made since the call of
    [monteCarloSims] and return it with their result. *)

Section Clock.

Variable room : Z.
Variable shuffle : Z -> list (Z * Z) -> list (Z * Z).

(** [clock r] is the count that read [r] returns. *)
Variable clock : nat -> Z.

(** [cut] is [true] for the loop of the program, with its early cutoff,
    and [false] for the evaluator of the specification that runs every
    simulation. *)
Variable cut : bool.

Fixpoint simulations_clock (rounds : nat) (sizeofBoard : Z) (g : Graph)
  (bestProb : Q) (playerNum numsim : Z) (sg sgH : ascii)
  (winnerG it numwins : Z) (reads : nat) : result (Z * nat) :=
  match rounds with
  | O => Ret (numwins, reads)
  | S rounds =>
      if negb cut
         || Qltb (bestProb * inject_Z numsim) (inject_Z ((numsim - it) + numwins))
      then
        let goesNext := Z.rem (playerNum * 2) 3 in
        let available :=
          availablePositions shuffle (clock reads) sizeofBoard g in
        let total := Z.of_nat (List.length available) in
        let* winner :=
          playout room sizeofBoard playerNum sg sgH available g total goesNext
            winnerG in
        let numwins := if winner =? playerNum then numwins + 1 else numwins in
        simulations_clock rounds sizeofBoard g bestProb playerNum numsim sg sgH
          winnerG (it + 1) numwins (S reads)
      else Ret (numwins, reads)
  end.

Definition probMonteCarlo_clock (sizeofBoard : Z) (g : Graph) (i : Z * Z)
  (bestProb : Q) (playerNum numsim : Z) (reads : nat) : result (Q * nat) :=
  let sg := if playerNum =? 1 then "X"%char else "O"%char in
  let sgH := if playerNum =? 1 then "O"%char else "X"%char in
  let '(x, y) := i in
  let g := place sizeofBoard g x y sg in
  let* winnerG := winnerAI room sizeofBoard g playerNum in
  let* (numwins, reads) :=
    simulations_clock (Z.to_nat numsim) sizeofBoard g bestProb playerNum
      numsim sg sgH winnerG 0 0 reads in
  Ret ((inject_Z numwins / inject_Z numsim)%Q, reads).

Fixpoint candidates_loop_clock (sizeofBoard : Z) (g : Graph)
  (playerNum numsim : Z) (candidates : list (Z * Z)) (bestMove : Z * Z)
  (bestprob : Q) (reads : nat) : result (Z * Z) :=
  match candidates with
  | [] => Ret bestMove
  | i :: rest =>
      let* (probMC, reads) :=
        probMonteCarlo_clock sizeofBoard g i bestprob playerNum numsim reads in
      if Qltb bestprob probMC
      then candidates_loop_clock sizeofBoard g playerNum numsim rest i probMC
             reads
      else candidates_loop_clock sizeofBoard g playerNum numsim rest bestMove
             bestprob reads
  end.

(** [hexGame::monteCarloSims]: read 0 seeds the shuffle of the candidates. *)
Definition monteCarloSims_clock (sizeofBoard : Z) (g : Graph)
  (playerNum : Z) : result (Z * Z) :=
  let candidates := availablePositions shuffle (clock 0) sizeofBoard g in
  candidates_loop_clock sizeofBoard g playerNum SIMUL candidates (0, 0)
    (-1)%Q 1%nat.

End Clock.

(** A shuffle that depends on its seed: the vector is turned by [seed]
    places. *)
Definition turn_shuffle (seed : Z) (l : list (Z * Z)) : list (Z * Z) :=
  let s := Z.to_nat (seed mod Z.of_nat (List.length l)) in
  drop s l ++ take s l.

(** ** The evaluator on doubles *)

(** The conversion of an [int] to [double]. *)
Definition double_of_int (v : Z) : PrimFloat.float :=
  if v <? 0 then PrimFloat.opp (PrimFloat.of_uint63 (Uint63.of_Z (- v)))
  else PrimFloat.of_uint63 (Uint63.of_Z v).

Section Doubles.

Variable room : Z.
Variable shuffle : Z -> list (Z * Z) -> list (Z * Z).

(** The simulation loop of [probMonteCarlo], its test
    [(numsim - it) + numwins > bestProb * numsim] on [double]s. *)
Fixpoint simulations_double (rounds : nat) (ticks : Z -> Z) (sizeofBoard : Z)
  (g : Graph) (bestProb : PrimFloat.float) (playerNum numsim : Z)
  (sg sgH : ascii) (winnerG it numwins : Z) : result Z :=
  match rounds with
  | O => Ret numwins
  | S rounds =>
      if PrimFloat.ltb (PrimFloat.mul bestProb (double_of_int numsim))
           (double_of_int ((numsim - it) + numwins))
      then
        let goesNext := Z.rem (playerNum * 2) 3 in
        let available := availablePositions shuffle (ticks it) sizeofBoard g in
        let total := Z.of_nat (List.length available) in
        let* winner :=
          playout room sizeofBoard playerNum sg sgH available g total goesNext
            winnerG in
        let numwins := if winner =? playerNum then numwins + 1 else numwins in
        simulations_double rounds ticks sizeofBoard g bestProb playerNum numsim
          sg sgH winnerG (it + 1) numwins
      else Ret numwins
  end.

(** [hexGame::probMonteCarlo]:
    [static_cast<double>(numwins) / static_cast<double>(numsim)]. *)
Definition probMonteCarlo_double (ticks : Z -> Z) (sizeofBoard : Z)
  (g : Graph) (i : Z * Z) (bestProb : PrimFloat.float)
  (playerNum numsim : Z) : result PrimFloat.float :=
  let sg := if playerNum =? 1 then "X"%char else "O"%char in
  let sgH := if playerNum =? 1 then "O"%char else "X"%char in
  let '(x, y) := i in
  let g := place sizeofBoard g x y sg in
  let* winnerG := winnerAI room sizeofBoard g playerNum in
  let* numwins :=
    simulations_double (Z.to_nat numsim) ticks sizeofBoard g bestProb
      playerNum numsim sg sgH winnerG 0 0 in
  Ret (PrimFloat.div (double_of_int numwins) (double_of_int numsim)).

Fixpoint candidates_loop_double (ticks : nat -> Z -> Z) (sizeofBoard : Z)
  (g : Graph) (playerNum numsim : Z) (candidates : list (Z * Z)) (ci : nat)
  (bestMove : Z * Z) (bestprob : PrimFloat.float) : result (Z * Z) :=
  match candidates with
  | [] => Ret bestMove
  | i :: rest =>
      let* probMC :=
        probMonteCarlo_double (ticks ci) sizeofBoard g i bestprob playerNum
          numsim in
      if PrimFloat.ltb bestprob probMC
      then candidates_loop_double ticks sizeofBoard g playerNum numsim rest
             (S ci) i probMC
      else candidates_loop_double ticks sizeofBoard g playerNum numsim rest
             (S ci) bestMove bestprob
  end.

(** [hexGame::monteCarloSims] with [double bestprob = -1.0]. *)
Definition monteCarloSims_double (tick0 : Z) (ticks : nat -> Z -> Z)
  (sizeofBoard : Z) (g : Graph) (playerNum : Z) : result (Z * Z) :=
  let candidates := availablePositions shuffle tick0 sizeofBoard g in
  candidates_loop_double ticks sizeofBoard g playerNum SIMUL candidates 0%nat
    (0, 0) (double_of_int (-1)).

End Doubles.

(** The rate [w / SIMUL] as the program computes it, and the numbers of
    wins a call can return. *)
Definition rate_double (w : Z) : PrimFloat.float :=
  PrimFloat.div (double_of_int w) (double_of_int SIMUL).

Definition win_counts : list Z := List.map Z.of_nat (List.seq 0 1001).

(** The two tests of the evaluator on the doubles of the program, checked
    against the integers they stand for. *)
Definition cutoff_test_exact (w m : Z) : bool :=
  Bool.eqb
    (PrimFloat.ltb (PrimFloat.mul (rate_double w) (double_of_int SIMUL))
       (double_of_int m))
    (w <? m).

Definition rate_test_exact (w m : Z) : bool :=
  Bool.eqb (PrimFloat.ltb (rate_double w) (rate_double m)) (w <? m).

Definition first_test_exact (m : Z) : bool :=
  PrimFloat.ltb (PrimFloat.mul (double_of_int (-1)) (double_of_int SIMUL))
    (double_of_int m)
  && PrimFloat.ltb (double_of_int (-1)) (rate_double m).

(** A clock in three stages: the count 0 up to read 999, the count 2 up to
    read 2001, the count 1 from then on. *)
Definition staged_clock (r : nat) : Z :=
  if (r <? 1000)%nat then 0 else if (r <=? 2001)%nat then 2 else 1.

(** A best rate of the program, as a [double] and as a rational: -1, or
    the rate [w / SIMUL] of a candidate that has won [w] simulations. *)
Definition same_rate (d : PrimFloat.float) (q : Q) : Prop :=
  (d = double_of_int (-1) /\ q = (-1)%Q) \/
  exists w, 0 <= w <= SIMUL /\ d = rate_double w /\
            q = (inject_Z w / inject_Z SIMUL)%Q.

(** * Vectors and loops *)

Lemma length_vset {A} (v : list A) i x : List.length (vset v i x) = List.length v.
Proof. unfold vset. destruct (i <? 0); [done | apply length_insert]. Qed.

Lemma vget_vset_eq {A} (d : A) v i x :
  0 <= i < Z.of_nat (List.length v) -> vget d (vset v i x) i = x.
Proof.
  intros Hi. unfold vget, vset.
  destruct (i <? 0) eqn:E; [lia |].
  rewrite list_lookup_insert_eq by lia. done.
Qed.

Lemma vget_vset_ne {A} (d : A) v i j x :
  i <> j -> vget d (vset v i x) j = vget d v j.
Proof.
  intros Hne. unfold vget, vset.
  destruct (j <? 0) eqn:Ej; [done |].
  destruct (i <? 0) eqn:Ei; [done |].
  rewrite list_lookup_insert_ne by lia. done.
Qed.

Lemma vget_replicate {A} (d x : A) k i :
  0 <= i < Z.of_nat k -> vget d (replicate k x) i = x.
Proof.
  intros Hi. unfold vget. destruct (i <? 0) eqn:E; [lia |].
  rewrite lookup_replicate_2 by lia. done.
Qed.

Lemma in_loop_up1 fuel a stop i :
  (Z.to_nat (stop - a) <= fuel)%nat ->
  In i (loop_up fuel a stop 1) <-> a <= i < stop.
Proof.
  revert a. induction fuel as [|k IH]; intros a Hf; simpl.
  - split; [tauto | lia].
  - destruct (a <? stop) eqn:E.
    + simpl. rewrite IH by lia. lia.
    + simpl. lia.
Qed.

Lemma in_loop_up fuel a stop step i :
  0 < step -> (Z.to_nat (stop - a) <= fuel)%nat ->
  In i (loop_up fuel a stop step) <->
  a <= i < stop /\ exists k, 0 <= k /\ i = a + k * step.
Proof.
  intros Hs. revert a. induction fuel as [|k IH]; intros a Hf; simpl.
  - split; [tauto | lia].
  - destruct (a <? stop) eqn:E.
    + simpl. rewrite IH by lia. split.
      * intros [<- | [Hr [j [Hj ->]]]].
        -- split; [lia | exists 0; lia].
        -- split; [nia | exists (j + 1); split; [lia | ring]].
      * intros [Hr [j [Hj ->]]].
        destruct (Z.eq_dec j 0) as [-> | Hne]; [left; lia |].
        right. split; [nia | exists (j - 1); split; [lia | ring]].
    + simpl. lia.
Qed.

Lemma in_loop_down fuel a stop j :
  (Z.to_nat (a - stop + 1) <= fuel)%nat ->
  In j (loop_down fuel a stop) <-> stop <= j <= a.
Proof.
  revert a. induction fuel as [|k IH]; intros a Hf; simpl.
  - split; [tauto | lia].
  - destruct (stop <=? a) eqn:E.
    + simpl. rewrite IH by lia. lia.
    + simpl. lia.
Qed.

(** A property kept by every round of a loop holds after it. *)
Lemma for_each_inv {S} (P : S -> Prop) idx (body : Z -> S -> S) s :
  P s -> (forall i s, In i idx -> P s -> P (body i s)) -> P (for_each idx body s).
Proof.
  revert s. induction idx as [|i idx IH]; intros s Hs Hb; simpl; [done |].
  apply IH; [apply Hb; [by left | done] |].
  intros j s' Hj. apply Hb. by right.
Qed.

(** * Shape of a board *)

Lemma idx_inj nv u v x y :
  0 <= v < nv -> 0 <= y < nv -> u * nv + v = x * nv + y -> u = x /\ v = y.
Proof.
  intros Hv Hy H.
  assert (u = x) as ->; [| lia].
  destruct (Z.lt_trichotomy u x) as [L | [L | L]]; [| done |].
  - assert (1 <= x - u) by lia. nia.
  - assert (1 <= u - x) by lia. nia.
Qed.

Lemma idx_range nv u v :
  0 <= u < nv -> 0 <= v < nv -> 0 <= u * nv + v < nv * nv.
Proof. intros. nia. Qed.

Lemma sized_set_edge_value n g x y w :
  sized n g -> sized n (set_edge_value g x y w).
Proof.
  intros (Hn & Ha & Hs). unfold sized, set_edge_value; simpl.
  rewrite !length_vset. done.
Qed.

Lemma sized_set_sign n g x y s : sized n g -> sized n (set_sign g x y s).
Proof.
  intros (Hn & Ha & Hs). unfold sized, set_sign; simpl.
  rewrite !length_vset. done.
Qed.

Lemma sized_setEdges n x y g : sized n g -> sized n (setEdges n x y g).
Proof.
  intros H. unfold setEdges.
  repeat (match goal with |- context [if ?b then _ else _] => destruct b end);
    repeat apply sized_set_edge_value; done.
Qed.

Lemma sized_place n g x y s : sized n g -> sized n (place n g x y s).
Proof. intros H. apply sized_setEdges, sized_set_sign, H. Qed.

Lemma ends_setEdges n x y g :
  startNode (setEdges n x y g) = startNode g /\
  endNode (setEdges n x y g) = endNode g.
Proof.
  unfold setEdges.
  repeat (match goal with |- context [if ?b then _ else _] => destruct b end);
    done.
Qed.

Lemma shaped_place n g x y s : shaped n g -> shaped n (place n g x y s).
Proof.
  intros (H & Hs & He). unfold shaped. split; [by apply sized_place |].
  unfold place. destruct (ends_setEdges n x y (set_sign g x y s)) as [-> ->].
  done.
Qed.

(** * Edges *)

Lemma adjacent_set_sign g x y s u v :
  adjacent (set_sign g x y s) u v = adjacent g u v.
Proof. reflexivity. Qed.

Lemma adjacent_set_edge_value n g x y u v :
  sized n g ->
  0 <= x < n * n + 4 -> 0 <= y < n * n + 4 ->
  0 <= u < n * n + 4 -> 0 <= v < n * n + 4 ->
  adjacent (set_edge_value g x y 1) u v = true <->
  adjacent g u v = true \/ (u = x /\ v = y) \/ (u = y /\ v = x).
Proof.
  intros (Hn & Ha & Hs) Hx Hy Hu Hv.
  unfold adjacent, get_edge_value, set_edge_value; simpl. rewrite Hn.
  set (nv := n * n + 4) in *.
  pose proof (idx_range nv x y Hx Hy) as Rxy.
  pose proof (idx_range nv y x Hy Hx) as Ryx.
  destruct (Z.eq_dec (u * nv + v) (x * nv + y)) as [E1 | N1].
  - rewrite E1, vget_vset_eq by (rewrite length_vset; lia).
    apply idx_inj in E1; [| lia | lia]. simpl. intuition.
  - rewrite vget_vset_ne by congruence.
    destruct (Z.eq_dec (u * nv + v) (y * nv + x)) as [E2 | N2].
    + rewrite E2, vget_vset_eq by lia.
      apply idx_inj in E2; [| lia | lia]. simpl. intuition.
    + rewrite vget_vset_ne by congruence.
      split; [tauto |]. intros [H | [[-> ->] | [-> ->]]]; [done | done | done].
Qed.

Lemma nbr_node_range n x y w :
  0 <= x < n -> 0 <= y < n -> nbr_node n x y w -> 0 <= w < n * n.
Proof. unfold nbr_node. intros Hx Hy H. nia. Qed.

Lemma cell_range n x y : 0 <= x < n -> 0 <= y < n -> 0 <= cell n x y < n * n.
Proof. unfold cell. intros. nia. Qed.

Lemma adjacent_setEdges n g x y u v :
  sized n g -> 0 <= x < n -> 0 <= y < n ->
  0 <= u < n * n + 4 -> 0 <= v < n * n + 4 ->
  adjacent (setEdges n x y g) u v = true <->
  adjacent g u v = true \/
  (u = cell n x y /\ nbr_node n x y v) \/ (v = cell n x y /\ nbr_node n x y u).
Proof.
  intros Hg Hx Hy Hu Hv.
  pose proof (cell_range n x y Hx Hy) as Hc. unfold cell in *.
  unfold setEdges, nbr_node.
  destruct (0 <? x) eqn:E1; destruct (y <? n - 1) eqn:E2;
    destruct (0 <? y) eqn:E3; destruct (x <? n - 1) eqn:E4;
    repeat (rewrite (adjacent_set_edge_value n);
            [ | repeat apply sized_set_edge_value; exact Hg
              | nia | nia | lia | lia ]);
    intuition lia.
Qed.


(** * The fresh board *)

Lemma sized_for_each_edges n a idx g :
  sized n g -> sized n (for_each idx (fun i g => set_edge_value g a i 1) g).
Proof.
  intros H. apply for_each_inv; [done |].
  intros i s _ Hs. by apply sized_set_edge_value.
Qed.

Lemma sign_for_each_edges a idx g :
  sign (for_each idx (fun i g => set_edge_value g a i 1) g) = sign g.
Proof.
  unfold for_each. revert g. induction idx as [|i idx IH]; intros g; simpl; [done |].
  rewrite IH. done.
Qed.

Lemma adjacent_for_each_edges n a idx g u v :
  sized n g -> 0 <= a < n * n + 4 ->
  (forall i, In i idx -> 0 <= i < n * n + 4) ->
  0 <= u < n * n + 4 -> 0 <= v < n * n + 4 ->
  adjacent (for_each idx (fun i g => set_edge_value g a i 1) g) u v = true <->
  adjacent g u v = true \/ (u = a /\ In v idx) \/ (v = a /\ In u idx).
Proof.
  intros Hg Ha Hidx Hu Hv. unfold for_each. revert g Hg.
  induction idx as [|i idx IH]; intros g Hg; simpl.
  - tauto.
  - rewrite IH.
    + rewrite (adjacent_set_edge_value n) by (auto; apply Hidx; by left).
      intuition (subst; auto).
    + intros j Hj. apply Hidx. by right.
    + by apply sized_set_edge_value.
Qed.

Lemma blank_adjacent nv g u v : blank nv g -> adjacent g u v = false.
Proof.
  intros (_ & _ & _ & _ & _ & H). unfold adjacent, get_edge_value.
  destruct (H (u * numVertices g + v)) as [-> | ->]; reflexivity.
Qed.

Lemma quot_rem_cell n x y :
  0 <= x -> 0 <= y < n -> Z.quot (cell n x y) n = x /\ Z.rem (cell n x y) n = y.
Proof.
  intros Hx Hy. unfold cell.
  rewrite Z.quot_div_nonneg, Z.rem_mod_nonneg by nia.
  split.
  - rewrite Z.div_add_l by lia. rewrite Z.div_small by lia. lia.
  - rewrite Z.add_comm, Z.mod_add by lia. apply Z.mod_small. lia.
Qed.

Lemma sign_slot_range n u :
  2 <= n -> 0 <= u < n * n + 4 ->
  0 <= sign_slot n u < (n * n + 4) * (n * n + 4).
Proof.
  intros Hn Hu. unfold sign_slot.
  pose proof (Z.quot_rem' u n) as E.
  pose proof (Z.rem_bound_pos u n ltac:(lia) ltac:(lia)) as B.
  assert (0 <= Z.quot u n) by (apply Z.quot_pos; lia).
  assert (Z.quot u n <= n + 1) by nia.
  nia.
Qed.

Lemma sign_slot_inj n u v :
  2 <= n -> 0 <= u -> 0 <= v -> sign_slot n u = sign_slot n v -> u = v.
Proof.
  intros Hn Hu Hv. unfold sign_slot. intros H.
  pose proof (Z.quot_rem' u n) as Eu.
  pose proof (Z.quot_rem' v n) as Ev.
  pose proof (Z.rem_bound_pos u n ltac:(lia) ltac:(lia)) as Bu.
  pose proof (Z.rem_bound_pos v n ltac:(lia) ltac:(lia)) as Bv.
  apply idx_inj in H; [| nia | nia]. destruct H as [H1 H2].
  rewrite Eu, Ev, H1, H2. done.
Qed.

Lemma sign_slot_cell n x y :
  0 <= x -> 0 <= y < n -> sign_slot n (cell n x y) = x * (n * n + 4) + y.
Proof.
  intros Hx Hy. unfold sign_slot.
  destruct (quot_rem_cell n x y Hx Hy) as [-> ->]. done.
Qed.

Lemma node_sign_slot n g u :
  numVertices g = n * n + 4 -> node_sign n g u = vget "000"%char (sign g) (sign_slot n u).
Proof. intros H. unfold node_sign, get_sign, sign_slot. by rewrite H. Qed.

Lemma get_sign_cell n g x y :
  numVertices g = n * n + 4 -> 0 <= x -> 0 <= y < n ->
  get_sign g x y = node_sign n g (cell n x y).
Proof.
  intros H Hx Hy. unfold node_sign.
  destruct (quot_rem_cell n x y Hx Hy) as [-> ->]. done.
Qed.

Lemma border_block_spec n g a c idx :
  sized n g -> 0 <= a < n * n + 4 ->
  (forall i, In i idx -> 0 <= i < n * n + 4) ->
  sized n (border_block n g a c idx) /\
  sign (border_block n g a c idx) = vset (sign g) (sign_slot n a) c /\
  forall u v, 0 <= u < n * n + 4 -> 0 <= v < n * n + 4 ->
    (adjacent (border_block n g a c idx) u v = true <->
     adjacent g u v = true \/ (u = a /\ In v idx) \/ (v = a /\ In u idx)).
Proof.
  intros Hg Ha Hidx. unfold border_block. split; [| split].
  - apply sized_for_each_edges, sized_set_sign, Hg.
  - rewrite sign_for_each_edges. simpl. unfold sign_slot.
    destruct Hg as (-> & _). done.
  - intros u v Hu Hv.
    rewrite (adjacent_for_each_edges n); auto using sized_set_sign.
Qed.

Lemma Graph_new_blocks n nv :
  Graph_new n nv =
  mkGraph (adjMatrix (new_east n nv)) (sign (new_east n nv))
          (numVertices (new_east n nv)) (numEdges (new_east n nv))
          [0; n * n + 2; n * n] [0; n * n + 3; n * n + 1].
Proof. reflexivity. Qed.

Lemma blank_new_blank nv : 0 <= nv -> blank nv (new_blank nv).
Proof.
  intros Hnv. unfold new_blank. apply for_each_inv.
  - unfold blank; simpl. rewrite length_replicate.
    repeat split; try done.
    intros k. unfold vget. destruct (k <? 0); [by right |].
    destruct (replicate _ INFINIT !! Z.to_nat k) eqn:E; simpl; [| by right].
    apply lookup_replicate in E as [-> _]. by left.
  - intros i g _ (H1 & H2 & H3 & H4 & H5 & H6). unfold blank; simpl.
    rewrite length_vset. repeat split; try done.
    intros k. destruct (Z.eq_dec (i * nv + i) k) as [<- | Hne].
    + unfold vget, vset. destruct (i * nv + i <? 0) eqn:E; [by right |].
      destruct (decide (Z.to_nat (i * nv + i) < List.length (adjMatrix g))%nat).
      * rewrite list_lookup_insert_eq by done. by right.
      * rewrite list_insert_ge by lia. specialize (H6 (i * nv + i)).
        unfold vget in H6. by rewrite E in H6.
    + rewrite vget_vset_ne by done. apply H6.
Qed.

Lemma sized_blank n g : blank (n * n + 4) g -> sized n g.
Proof.
  intros (H1 & H2 & H3 & _). unfold sized.
  rewrite H3, length_replicate. done.
Qed.

Lemma mod_step n r i :
  0 < n -> 0 <= r < n -> 0 <= i ->
  (exists k, 0 <= k /\ i = r + k * n) <-> i mod n = r.
Proof.
  intros Hn Hr Hi. split.
  - intros (k & Hk & ->). rewrite Z.mod_add by lia. apply Z.mod_small. lia.
  - intros <-. exists (i / n). split; [apply Z.div_pos; lia |].
    pose proof (Z.div_mod i n ltac:(lia)). lia.
Qed.

Lemma vget_vset_slot {A} n (d : A) v a u c :
  2 <= n -> 0 <= a < n * n + 4 -> 0 <= u ->
  Z.of_nat (List.length v) = (n * n + 4) * (n * n + 4) ->
  vget d (vset v (sign_slot n a) c) (sign_slot n u) =
  if u =? a then c else vget d v (sign_slot n u).
Proof.
  intros Hn Ha Hu Hl. destruct (Z.eqb_spec u a) as [-> | Hne].
  - apply vget_vset_eq. rewrite Hl. by apply sign_slot_range.
  - apply vget_vset_ne. intros Hs. apply sign_slot_inj in Hs; lia.
Qed.

(** The last block of the constructor, in terms of the blank board. *)
Lemma new_east_spec n :
  2 <= n ->
  sized n (new_east n (n * n + 4)) /\
  sign (new_east n (n * n + 4)) =
    vset (vset (vset (vset (replicate (Z.to_nat ((n * n + 4) * (n * n + 4))) "."%char)
      (sign_slot n (n * n + 2)) "X"%char) (sign_slot n (n * n + 3)) "X"%char)
      (sign_slot n (n * n)) "O"%char) (sign_slot n (n * n + 1)) "O"%char /\
  (forall u v, 0 <= u < n * n + 4 -> 0 <= v < n * n + 4 ->
     (adjacent (new_east n (n * n + 4)) u v = true <->
      border_edge n u v \/ border_edge n v u)).
Proof.
  intros Hn. set (nv := n * n + 4).
  pose proof (blank_new_blank nv ltac:(nia)) as B0.
  pose proof (sized_blank n _ B0) as S0.
  assert (IN : forall i, In i (loop_up (Z.to_nat n) 0 n 1) <-> 0 <= i < n)
    by (intros i; apply in_loop_up1; lia).
  destruct (border_block_spec n (new_blank nv) (n * n + 2) "X"
              (loop_up (Z.to_nat n) 0 n 1) S0 ltac:(lia)) as (S1 & G1 & A1).
  { intros i Hi. apply IN in Hi. nia. }
  fold (new_north n nv) in S1, G1, A1.
  assert (V1 : V (new_north n nv) = n * n) by (unfold V; destruct S1 as [-> _]; lia).
  assert (IS : forall j, In j (loop_down (Z.to_nat n) (n * n - 1) (n * n - n))
                         <-> n * n - n <= j < n * n)
    by (intros j; rewrite in_loop_down by lia; lia).
  destruct (border_block_spec n (new_north n nv) (n * n + 3) "X"
              (loop_down (Z.to_nat n) (n * n - 1) (n * n - n)) S1 ltac:(lia))
    as (S2 & G2 & A2).
  { intros i Hi. apply IS in Hi. nia. }
  assert (D2 : new_south n nv = border_block n (new_north n nv) (n * n + 3) "X"
            (loop_down (Z.to_nat n) (n * n - 1) (n * n - n)))
    by (unfold new_south; rewrite V1; done).
  rewrite <- D2 in S2, G2, A2.
  assert (V2 : V (new_south n nv) = n * n) by (unfold V; destruct S2 as [-> _]; lia).
  assert (IW : forall i, In i (loop_up (Z.to_nat (n * n)) 0 (n * n) n)
                         <-> 0 <= i < n * n /\ i mod n = 0).
  { intros i. rewrite in_loop_up by lia.
    split; intros [Hr Hk]; (split; [done |]).
    - apply mod_step in Hk; [done | lia | lia | lia].
    - apply (mod_step n 0); [lia | lia | lia | done]. }
  destruct (border_block_spec n (new_south n nv) (n * n) "O"
              (loop_up (Z.to_nat (n * n)) 0 (n * n) n) S2 ltac:(lia))
    as (S3 & G3 & A3).
  { intros i Hi. apply IW in Hi. lia. }
  assert (D3 : new_west n nv = border_block n (new_south n nv) (n * n) "O"
            (loop_up (Z.to_nat (n * n)) 0 (n * n) n))
    by (unfold new_west; rewrite V2; done).
  rewrite <- D3 in S3, G3, A3.
  assert (V3 : V (new_west n nv) = n * n) by (unfold V; destruct S3 as [-> _]; lia).
  assert (IE : forall i, In i (loop_up (Z.to_nat (n * n)) (n - 1) (n * n) n)
                         <-> 0 <= i < n * n /\ i mod n = n - 1).
  { intros i. rewrite in_loop_up by lia.
    split; intros [Hr Hk].
    - split; [lia |]. apply mod_step in Hk; [done | lia | lia | lia].
    - assert (Hk' := Hk). apply (mod_step n (n - 1)) in Hk'; [| lia | lia | lia].
      split; [| done]. destruct Hk' as (k & Hk1 & Hk2). nia. }
  destruct (border_block_spec n (new_west n nv) (n * n + 1) "O"
              (loop_up (Z.to_nat (n * n)) (n - 1) (n * n) n) S3 ltac:(lia))
    as (S4 & G4 & A4).
  { intros i Hi. apply IE in Hi. lia. }
  assert (D4 : new_east n nv = border_block n (new_west n nv) (n * n + 1) "O"
            (loop_up (Z.to_nat (n * n)) (n - 1) (n * n) n))
    by (unfold new_east; rewrite V3; done).
  rewrite <- D4 in S4, G4, A4.
  split; [exact S4 |]. split.
  - rewrite G4, G3, G2, G1. destruct B0 as (_ & _ & -> & _). done.
  - intros u v Hu Hv. rewrite A4, A3, A2, A1 by done.
    rewrite (blank_adjacent nv _ u v B0).
    rewrite !IN, !IS, !IW, !IE. clear. unfold border_edge.
    intuition (try discriminate).
Qed.

Lemma shaped_Graph_new n : 2 <= n -> shaped n (Graph_new n (n * n + 4)).
Proof.
  intros Hn. rewrite Graph_new_blocks.
  destruct (new_east_spec n Hn) as (S & _). split; [exact S | done].
Qed.

Lemma adjacent_Graph_new n u v :
  2 <= n -> 0 <= u < n * n + 4 -> 0 <= v < n * n + 4 ->
  adjacent (Graph_new n (n * n + 4)) u v = true <->
  border_edge n u v \/ border_edge n v u.
Proof.
  intros Hn Hu Hv. destruct (new_east_spec n Hn) as (_ & _ & A).
  rewrite <- (A u v Hu Hv). rewrite Graph_new_blocks. reflexivity.
Qed.

(** The signs of the nodes of the fresh board. *)
Lemma node_sign_Graph_new n u :
  2 <= n -> 0 <= u < n * n + 4 ->
  node_sign n (Graph_new n (n * n + 4)) u =
  if u =? n * n + 1 then "O"%char else if u =? n * n then "O"%char
  else if u =? n * n + 3 then "X"%char else if u =? n * n + 2 then "X"%char
  else "."%char.
Proof.
  intros Hn Hu. destruct (new_east_spec n Hn) as (S & G & _).
  rewrite Graph_new_blocks. rewrite node_sign_slot by (simpl; apply S). simpl.
  rewrite G. clear G S.
  pose proof (sign_slot_range n u Hn Hu) as Ru.
  rewrite !(vget_vset_slot n) by
    (rewrite ?length_vset, ?length_replicate; lia).
  rewrite vget_replicate by lia. done.
Qed.

(** * Boards reached by legal moves *)

Lemma sign_setEdges n x y g : sign (setEdges n x y g) = sign g.
Proof.
  unfold setEdges.
  repeat (match goal with |- context [if ?b then _ else _] => destruct b end);
    done.
Qed.

Lemma numVertices_setEdges n x y g : numVertices (setEdges n x y g) = numVertices g.
Proof.
  unfold setEdges.
  repeat (match goal with |- context [if ?b then _ else _] => destruct b end);
    done.
Qed.

Lemma node_sign_place n g x y s u :
  2 <= n -> sized n g -> 0 <= x < n -> 0 <= y < n -> 0 <= u ->
  node_sign n (place n g x y s) u =
  if u =? cell n x y then s else node_sign n g u.
Proof.
  intros Hn Hg Hx Hy Hu.
  rewrite !node_sign_slot; [| apply Hg | apply (sized_place n g x y s Hg)].
  unfold place. rewrite sign_setEdges. simpl.
  destruct Hg as (-> & _ & Hl).
  rewrite <- (sign_slot_cell n x y) by lia.
  apply vget_vset_slot; [done | | done | lia].
  pose proof (cell_range n x y Hx Hy). lia.
Qed.

Lemma adjacent_place n g x y s u v :
  sized n g -> 0 <= x < n -> 0 <= y < n ->
  0 <= u < n * n + 4 -> 0 <= v < n * n + 4 ->
  adjacent (place n g x y s) u v = true <->
  adjacent g u v = true \/
  (u = cell n x y /\ nbr_node n x y v) \/ (v = cell n x y /\ nbr_node n x y u).
Proof.
  intros Hg Hx Hy Hu Hv. unfold place.
  rewrite (adjacent_setEdges n) by (auto using sized_set_sign).
  rewrite adjacent_set_sign. done.
Qed.

Lemma reachable_shaped n g : 2 <= n -> reachable n g -> shaped n g.
Proof.
  intros Hn H. induction H; [by apply shaped_Graph_new | by apply shaped_place].
Qed.

Lemma reachable_sized n g : 2 <= n -> reachable n g -> sized n g.
Proof. intros Hn H. by apply reachable_shaped. Qed.

(** The signs of the four virtual nodes never change, and a cell holds
    ['.'], ['X'] or ['O']. *)
Lemma reachable_signs n g :
  2 <= n -> reachable n g ->
  node_sign n g (n * n + 2) = "X"%char /\
  node_sign n g (n * n + 3) = "X"%char /\
  node_sign n g (n * n) = "O"%char /\
  node_sign n g (n * n + 1) = "O"%char /\
  forall u, 0 <= u < n * n ->
    node_sign n g u = "."%char \/ node_sign n g u = "X"%char \/
    node_sign n g u = "O"%char.
Proof.
  intros Hn H. induction H as [| g x y s H IH Hx Hy He Hs].
  - rewrite !node_sign_Graph_new by nia.
    rewrite !Z.eqb_refl.
    repeat split;
      try (repeat (match goal with |- context [?a =? ?b] =>
                     destruct (Z.eqb_spec a b); [lia |] end); done).
    intros u Hu. rewrite node_sign_Graph_new by lia.
    repeat (match goal with |- context [?a =? ?b] =>
              destruct (Z.eqb_spec a b); [lia |] end). by left.
  - pose proof (reachable_sized n g Hn H) as Sg.
    pose proof (cell_range n x y Hx Hy) as Hc.
    rewrite !(node_sign_place n g x y s) by first [done | nia].
    destruct IH as (I1 & I2 & I3 & I4 & I5).
    repeat split;
      try (match goal with |- context [?a =? ?b] =>
             destruct (Z.eqb_spec a b); [lia | done] end).
    intros u Hu. rewrite (node_sign_place n g x y s) by first [done | lia].
    destruct (Z.eqb_spec u (cell n x y)); [| by apply I5].
    destruct Hs as [-> | ->]; auto.
Qed.

Lemma reachable_edges n g u v :
  2 <= n -> reachable n g ->
  0 <= u < n * n + 4 -> 0 <= v < n * n + 4 ->
  adjacent g u v = true <->
  border_edge n u v \/ border_edge n v u \/ stone_edge n g u v \/ stone_edge n g v u.
Proof.
  intros Hn H Hu Hv. induction H as [| g x y s H IH Hx Hy He Hs].
  - rewrite adjacent_Graph_new by lia.
    assert (N : forall a b, ~ stone_edge n (Graph_new n (n * n + 4)) a b).
    { intros a b (x & y & Hx & Hy & -> & _ & Hne). apply Hne.
      pose proof (cell_range n x y Hx Hy).
      rewrite node_sign_Graph_new by lia.
      repeat (match goal with |- context [?a =? ?b] =>
                destruct (Z.eqb_spec a b); [lia |] end). done. }
    specialize (N u v) as N1. specialize (N v u) as N2. tauto.
  - pose proof (reachable_sized n g Hn H) as Sg.
    pose proof (cell_range n x y Hx Hy) as Hc.
    rewrite (adjacent_place n) by done. rewrite IH.
    assert (St : forall a b, 0 <= a ->
      stone_edge n (place n g x y s) a b <->
      stone_edge n g a b \/ (a = cell n x y /\ nbr_node n x y b)).
    { intros a b Ha. unfold stone_edge. split.
      - intros (x' & y' & Hx' & Hy' & Ea & Nb & Sn).
        rewrite (node_sign_place n g x y s) in Sn by first [done | lia].
        destruct (Z.eqb_spec a (cell n x y)) as [Ec | Nc].
        + right. split; [done |]. rewrite Ea in Ec. unfold cell in Ec.
          apply idx_inj in Ec as [-> ->]; [done | lia | lia].
        + left. exists x', y'. done.
      - intros [(x' & y' & Hx' & Hy' & Ea & Nb & Sn) | [Ea Nb]].
        + exists x', y'. repeat split; try done; try lia.
          rewrite (node_sign_place n g x y s) by first [done | lia].
          destruct (Z.eqb_spec a (cell n x y)) as [Ec | Nc]; [| done].
          destruct Hs as [-> | ->]; done.
        + exists x, y. repeat split; try done; try lia.
          rewrite (node_sign_place n g x y s) by first [done | lia].
          rewrite Ea, Z.eqb_refl. destruct Hs as [-> | ->]; done. }
    rewrite (St u v), (St v u) by lia. tauto.
Qed.

Lemma adjacent_sym_reachable n g u v :
  2 <= n -> reachable n g ->
  0 <= u < n * n + 4 -> 0 <= v < n * n + 4 ->
  adjacent g u v = adjacent g v u.
Proof.
  intros Hn H Hu Hv.
  apply eq_true_iff_eq.
  rewrite !(reachable_edges n) by done. tauto.
Qed.

(** * The breadth-first search of [isReachable] *)

Lemma filter_flip (p q : nat -> bool) l j :
  NoDup l -> In j l -> p j = true -> q j = false ->
  (forall k, k <> j -> q k = p k) ->
  (List.length (List.filter q l) + 1 = List.length (List.filter p l))%nat.
Proof.
  intros Hnd Hj Hp Hq Hpq. induction l as [|a l IH]; [destruct Hj |].
  apply NoDup_cons in Hnd as [Ha Hnd]. simpl.
  destruct (Nat.eq_dec a j) as [-> | Hne].
  - rewrite Hp, Hq. simpl.
    assert (E : List.filter q l = List.filter p l).
    { apply List.filter_ext_in. intros k Hk. apply Hpq. intros ->.
      apply Ha. by apply list_elem_of_In. }
    rewrite E. lia.
  - rewrite (Hpq a Hne). destruct Hj as [Hj | Hj]; [done |].
    specialize (IH Hnd Hj). destruct (p a); simpl; lia.
Qed.

Lemma unmarked_mark nv visited j :
  (j < nv)%nat -> visited !! j = Some false ->
  (unmarked nv (<[j := true]> visited) + 1 = unmarked nv visited)%nat.
Proof.
  intros Hj Hv. unfold unmarked. apply (filter_flip _ _ _ j).
  - apply NoDup_seq.
  - apply in_seq. lia.
  - by rewrite Hv.
  - rewrite list_lookup_insert_eq; [done |]. by apply lookup_lt_Some in Hv.
  - intros k Hk. rewrite list_lookup_insert_ne by done. done.
Qed.

Lemma visited_get_ok visited i :
  0 <= i < Z.of_nat (List.length visited) ->
  visited_get visited i = Ret (default false (visited !! Z.to_nat i)).
Proof.
  intros H. unfold visited_get.
  destruct (0 <=? i) eqn:E1; [| lia]. destruct (i <? _) eqn:E2; [done | lia].
Qed.

Lemma visited_set_ok visited i b :
  0 <= i < Z.of_nat (List.length visited) ->
  visited_set visited i b = Ret (<[Z.to_nat i := b]> visited).
Proof.
  intros H. unfold visited_set.
  destruct (0 <=? i) eqn:E1; [| lia]. destruct (i <? _) eqn:E2; [done | lia].
Qed.

Lemma visited_set_out visited i b :
  ~ (0 <= i < Z.of_nat (List.length visited)) ->
  visited_set visited i b = Fault (OutOfBounds i).
Proof.
  intros H. unfold visited_set.
  destruct (0 <=? i) eqn:E1; [| done]. destruct (i <? _) eqn:E2; [lia | done].
Qed.

Lemma marked_insert visited j i :
  0 <= j < Z.of_nat (List.length visited) ->
  marked (<[Z.to_nat j := true]> visited) i <-> marked visited i \/ i = j.
Proof.
  intros Hj. unfold marked.
  destruct (Z.eq_dec i j) as [-> | Hne].
  - rewrite list_lookup_insert_eq by lia. intuition lia.
  - destruct (Z_lt_le_dec i 0); [lia |].
    rewrite list_lookup_insert_ne by lia. intuition lia.
Qed.

Section Bfs.

Variables (n : Z) (g : Graph) (d : Z) (sg : ascii).

(** [push_neighbours] appends the nodes linked to [s], in increasing order. *)
Lemma push_neighbours_spec s adj :
  0 <= V g + 4 ->
  exists new, push_neighbours n g sg s adj = adj ++ new /\
    forall y, In y new <-> 0 <= y < V g + 4 /\ linked n g sg s y = true.
Proof.
  intros Hnv. unfold push_neighbours.
  assert (IN : forall y, In y (loop_up (Z.to_nat (V g + 4)) 0 (V g + 4) 1)
                         <-> 0 <= y < V g + 4)
    by (intros y; apply in_loop_up1; lia).
  revert IN. generalize (loop_up (Z.to_nat (V g + 4)) 0 (V g + 4) 1) as idx.
  intros idx IN.
  assert (G : forall idx adj, exists new,
    for_each idx (fun y adj => if linked n g sg s y then adj ++ [y] else adj) adj
      = adj ++ new /\
    forall y, In y new <-> In y idx /\ linked n g sg s y = true).
  { clear. unfold for_each. induction idx as [|i idx IH]; intros adj; simpl.
    - exists []. rewrite app_nil_r. split; [done |]. simpl. tauto.
    - destruct (linked n g sg s i) eqn:E.
      + destruct (IH (adj ++ [i])) as (new & -> & Hnew).
        exists (i :: new). rewrite <- app_assoc. split; [done |].
        intros y. simpl. rewrite Hnew. intuition congruence.
      + destruct (IH adj) as (new & -> & Hnew).
        exists new. split; [done |]. intros y. rewrite Hnew.
        intuition congruence. }
  destruct (G idx adj) as (new & E & Hnew). exists new. split; [done |].
  intros y. rewrite Hnew, IN. done.
Qed.

(** One pass of [scan]: either the destination is in [adj], or every
    node of [adj] ends up marked and the fresh ones are queued. *)
Lemma scan_spec nv adj visited queue :
  (nv <= List.length visited)%nat ->
  (forall i, In i adj -> 0 <= i < Z.of_nat nv) ->
  (In d adj /\ scan d adj visited queue = Ret None) \/
  (~ In d adj /\ exists visited' new,
     scan d adj visited queue = Ret (Some (visited', queue ++ new)) /\
     List.length visited' = List.length visited /\
     (forall i, marked visited' i <-> marked visited i \/ In i adj) /\
     (forall i, In i new -> In i adj) /\
     (forall i, In i adj -> marked visited i \/ In i new) /\
     (unmarked nv visited' + List.length new = unmarked nv visited)%nat).
Proof.
  revert visited queue. induction adj as [|i adj IH]; intros visited queue Hl Hadj.
  - right. split; [tauto |]. exists visited, []. simpl. rewrite app_nil_r.
    split_and!; try done; try lia. intros i; simpl; tauto.
  - simpl. destruct (Z.eqb_spec i d) as [-> | Hne].
    + left. split; [by left | done].
    + assert (Hi : 0 <= i < Z.of_nat nv) by (apply Hadj; by left).
      rewrite visited_get_ok by lia. simpl.
      destruct (visited !! Z.to_nat i) as [b|] eqn:Ei;
        [| apply lookup_ge_None in Ei; lia].
      simpl. destruct b; simpl.
      * destruct (IH visited queue Hl) as [[Hd E] | (Hd & v' & new & E & L & M & N & C & U)].
        -- intros j Hj. apply Hadj. by right.
        -- left. split; [by right | done].
        -- right. split; [intros [? | ?]; congruence |].
           exists v', new. split_and!; try done.
           ++ intros j. rewrite M. simpl. split; [tauto |].
              intros [H | [<- | H]]; [tauto | | tauto].
              left. split; [lia | done].
           ++ intros j Hj. right. by apply N.
           ++ intros j [<- | Hj]; [| by apply C].
              left. split; [lia | done].
      * rewrite visited_set_ok by lia. simpl.
        destruct (IH (<[Z.to_nat i := true]> visited) (queue ++ [i]))
          as [[Hd E] | (Hd & v' & new & E & L & M & N & C & U)].
        -- rewrite length_insert. done.
        -- intros j Hj. apply Hadj. by right.
        -- left. split; [by right | done].
        -- right. split; [intros [? | ?]; congruence |].
           exists v', (i :: new). rewrite <- app_assoc in E.
           rewrite length_insert in L.
           split_and!; try done.
           ++ intros j. rewrite M, marked_insert by lia. simpl.
              intuition congruence.
           ++ intros j [<- | Hj]; [by left | right; by apply N].
           ++ intros j [<- | Hj]; [right; by left |].
              destruct (C j Hj) as [H | H]; [| right; by right].
              apply marked_insert in H; [| lia].
              destruct H as [H | ->]; [by left | right; by left].
           ++ pose proof (unmarked_mark nv visited (Z.to_nat i) ltac:(lia) Ei).
              simpl. lia.
Qed.

Lemma bfs_spec s0 fuel adj visited queue :
  0 <= V g + 4 ->
  search_inv n g d sg s0 adj visited queue ->
  (unmarked (Z.to_nat (V g + 4)) visited + List.length queue < fuel)%nat ->
  exists b, bfs fuel n g d sg adj visited queue = Ret b /\
            (b = true <-> rtc (follows n g sg) s0 d).
Proof.
  intros Hnv. revert adj visited queue.
  induction fuel as [|fuel IH]; intros adj visited queue Inv Hm; [lia |].
  destruct Inv as (IL & IQ & IM & IA & IC & IS).
  destruct queue as [|s queue]; simpl.
  - exists false. split; [done |]. split; [done |]. intros Hr. exfalso.
    assert (H : marked visited d).
    { revert Hr. apply (rtc_ind_r (fun z => marked visited z) s0); [done |].
      intros y z _ Hyz Hy. apply (IC y z); auto. }
    apply IM in H. tauto.
  - destruct (push_neighbours_spec s adj Hnv) as (new & -> & Hnew).
    assert (Ms : marked visited s) by (apply IQ; by left).
    destruct (IM s Ms) as (Rs & Ps & Ds).
    destruct (scan_spec (Z.to_nat (V g + 4)) (adj ++ new) visited queue IL)
      as [[Hd E] | (Hd & v' & new' & E & L & M & N & C & U)].
    { intros i Hi. apply in_app_or in Hi as [Hi | Hi].
      - apply IA, IM in Hi. lia.
      - apply Hnew in Hi. lia. }
    + rewrite E. simpl. exists true. split; [done |]. split; [intros _ | done].
      apply in_app_or in Hd as [Hd | Hd].
      * apply IA, IM in Hd. tauto.
      * apply Hnew in Hd. eapply rtc_r; [exact Ps | exact Hd].
    + rewrite E. simpl. apply IH.
      * unfold search_inv. split_and!.
        -- lia.
        -- intros i Hi. apply M. apply in_app_or in Hi as [Hi | Hi].
           ++ left. apply IQ. by right.
           ++ right. by apply N.
        -- intros i Hi. apply M in Hi as [Hi | Hi]; [by apply IM |].
           apply in_app_or in Hi as [Hi | Hi]; [by apply IM, IA |].
           assert (Hi' := Hi). apply Hnew in Hi'. split_and!; try lia.
           ++ eapply rtc_r; [exact Ps | exact Hi'].
           ++ intros ->. apply Hd. apply in_or_app. by right.
        -- intros i Hi. apply M. by right.
        -- intros u v Hu Hq Hf. apply M.
           apply M in Hu as [Hu | Hu].
           ++ destruct (Z.eq_dec u s) as [-> | Hne].
              ** right. apply in_or_app. right. by apply Hnew.
              ** left. apply (IC u v); [done | | done].
                 intros [? | ?]; [congruence |]. apply Hq, in_or_app. by left.
           ++ destruct (C u Hu) as [H | H].
              ** destruct (Z.eq_dec u s) as [-> | Hne].
                 --- right. apply in_or_app. right. by apply Hnew.
                 --- left. apply (IC u v); [done | | done].
                     intros [? | ?]; [congruence |]. apply Hq, in_or_app. by left.
              ** exfalso. apply Hq, in_or_app. by right.
        -- apply M. by left.
      * rewrite length_app. simpl in Hm. lia.
Qed.

End Bfs.

(** The loop that clears [visited], when every index it uses is inside
    the storage. *)
Lemma clear_visited_ok idx len :
  (forall i, In i idx -> 0 <= i < Z.of_nat len) ->
  for_each_r idx (fun i visited => visited_set visited i false)
    (replicate len false) = Ret (replicate len false).
Proof.
  induction idx as [|i idx IH]; intros H; simpl; [done |].
  rewrite visited_set_ok by (rewrite length_replicate; apply H; by left).
  simpl. rewrite list_insert_id.
  - apply IH. intros j Hj. apply H. by right.
  - apply lookup_replicate_2. specialize (H i ltac:(by left)). lia.
Qed.

(** The same loop, when it runs past the end of the storage. *)
Lemma clear_visited_overrun fuel a stop (visited : list bool) :
  0 <= a <= Z.of_nat (List.length visited) ->
  Z.of_nat (List.length visited) < stop ->
  (Z.to_nat (stop - a) <= fuel)%nat ->
  for_each_r (loop_up fuel a stop 1)
    (fun i visited => visited_set visited i false) visited
  = Fault (OutOfBounds (Z.of_nat (List.length visited))).
Proof.
  revert a visited. induction fuel as [|fuel IH]; intros a visited Ha Hs Hf; [lia |].
  simpl. destruct (a <? stop) eqn:E; [| lia]. simpl.
  destruct (Z.eq_dec a (Z.of_nat (List.length visited))) as [-> | Hne].
  - rewrite visited_set_out by lia. done.
  - rewrite visited_set_ok by lia. simpl.
    rewrite <- (length_insert visited (Z.to_nat a) false).
    apply IH; rewrite ?length_insert; lia.
Qed.

Lemma unmarked_replicate nv len : unmarked nv (replicate len false) = nv.
Proof.
  unfold unmarked.
  transitivity (List.length (seq 0 nv)); [| apply length_seq]. f_equal.
  apply forallb_filter_id. apply forallb_forall. intros k _.
  destruct (decide (k < len)%nat).
  - rewrite lookup_replicate_2 by done. done.
  - rewrite (proj1 (lookup_replicate_None len false k)) by lia. done.
Qed.

(** [isReachable] answers whether [d] can be reached from [s] along the
    edges the search follows, whenever four cells behind the block of
    [visited] may be used. *)
Lemma isReachable_spec room n g s d sg :
  4 <= room -> 0 <= V g -> 0 <= s < V g + 4 ->
  exists b, isReachable room n g s d sg = Ret b /\
            (b = true <-> rtc (follows n g sg) s d).
Proof.
  intros Hr Hv Hs. unfold isReachable.
  destruct (Z.eqb_spec s d) as [-> | Hne].
  - exists true. split; [done |]. split; [intros _; apply rtc_refl | done].
  - rewrite clear_visited_ok; [| intros i Hi; apply in_loop_up1 in Hi; lia].
    cbn [bind]. rewrite visited_set_ok by (rewrite length_replicate; lia).
    cbn [bind]. set (len := Z.to_nat (V g + room)).
    assert (E0 : replicate len false !! Z.to_nat s = Some false)
      by (apply lookup_replicate_2; lia).
    apply (bfs_spec n g d sg s); [lia | |].
    + unfold search_inv. split_and!.
      * rewrite length_insert, length_replicate. lia.
      * intros i [<- | []]. apply marked_insert;
          [rewrite length_replicate; lia | by right].
      * intros i Hi. apply marked_insert in Hi; [| rewrite length_replicate; lia].
        destruct Hi as [[_ Hi] | ->].
        -- apply lookup_replicate in Hi as [? _]. done.
        -- split_and!; [lia | lia | apply rtc_refl | done].
      * intros i [].
      * intros u v Hu Hq _. exfalso. apply Hq.
        apply marked_insert in Hu; [| rewrite length_replicate; lia].
        destruct Hu as [[_ Hu] | ->]; [| by left].
        apply lookup_replicate in Hu as [? _]. done.
      * apply marked_insert; [rewrite length_replicate; lia | by right].
    + pose proof (unmarked_mark (Z.to_nat (V g + 4)) (replicate len false)
                    (Z.to_nat s) ltac:(lia) E0) as U.
      rewrite unmarked_replicate in U. simpl. lia.
Qed.

(** With the block of [V g] cells alone, the clearing loop leaves it. *)
Lemma isReachable_overrun n g s d sg :
  0 <= V g -> s <> d ->
  isReachable 0 n g s d sg = Fault (OutOfBounds (V g)).
Proof.
  intros Hv Hne. unfold isReachable.
  destruct (Z.eqb_spec s d) as [| _]; [done |].
  rewrite (clear_visited_overrun _ 0 (V g + 4));
    rewrite ?length_replicate; try lia.
  simpl. f_equal. f_equal. lia.
Qed.

(** * Winning chains and the search *)

Lemma linked_iff n g sg u v :
  linked n g sg u v = true <->
  adjacent g u v = true /\ node_sign n g v = sg /\ node_sign n g u = sg.
Proof.
  unfold linked, node_sign.
  rewrite !andb_true_iff, !Ascii.eqb_eq. tauto.
Qed.

Lemma reachable_ends n g p :
  2 <= n -> reachable n g -> p = 1 \/ p = 2 ->
  V g = n * n /\
  get_startNode g p = (if p =? 1 then n * n + 2 else n * n) /\
  get_endNode g p = (if p =? 1 then n * n + 3 else n * n + 1) /\
  node_sign n g (get_startNode g p) = sign_of p /\
  node_sign n g (get_endNode g p) = sign_of p /\
  (forall u, n * n <= u < n * n + 4 -> node_sign n g u = sign_of p ->
     u = get_startNode g p \/ u = get_endNode g p).
Proof.
  intros Hn H Hp.
  destruct (reachable_shaped n g Hn H) as ((Hnv & _) & Hs & He).
  destruct (reachable_signs n g Hn H) as (S1 & S2 & S3 & S4 & _).
  unfold V, get_startNode, get_endNode, sign_of. rewrite Hnv, Hs, He.
  destruct Hp as [-> | ->]; simpl; (split_and!; try done; try lia).
  - intros u Hu Su.
    assert (C : u = n * n \/ u = n * n + 1 \/ u = n * n + 2 \/ u = n * n + 3) by lia.
    destruct C as [-> | [-> | [-> | ->]]]; [congruence | congruence | tauto | tauto].
  - intros u Hu Su.
    assert (C : u = n * n \/ u = n * n + 1 \/ u = n * n + 2 \/ u = n * n + 3) by lia.
    destruct C as [-> | [-> | [-> | ->]]]; [tauto | tauto | congruence | congruence].
Qed.

(** A chain gives a walk of the search. *)
Lemma chain_follows n g sg cells u d :
  0 <= V g -> V g = n * n ->
  node_sign n g u = sg -> node_sign n g d = sg -> 0 <= d < V g + 4 ->
  (forall c, In c cells -> 0 <= c < n * n /\ node_sign n g c = sg) ->
  chain g u cells d -> rtc (follows n g sg) u d.
Proof.
  intros Hv Hvn Su Sd Hd. revert u Su.
  induction cells as [|c cells IH]; intros u Su Hc; simpl.
  - intros A. apply rtc_once. split; [done |]. apply linked_iff. done.
  - intros [A C]. destruct (Hc c ltac:(by left)) as [Rc Sc].
    apply (rtc_l _ u c).
    + split; [lia |]. apply linked_iff. done.
    + apply IH; [done | | done]. intros c' Hc'. apply Hc. by right.
Qed.

(** A walk of the search from the start node gives a chain. *)
Lemma follows_chain n g p u :
  2 <= n -> reachable n g -> p = 1 \/ p = 2 ->
  rtc (follows n g (sign_of p)) u (get_endNode g p) ->
  u = get_endNode g p \/
  exists cells,
    (forall c, In c cells -> 0 <= c < n * n /\ node_sign n g c = sign_of p) /\
    (chain g u cells (get_endNode g p) \/
     chain g (get_startNode g p) cells (get_endNode g p)).
Proof.
  intros Hn H Hp.
  destruct (reachable_ends n g p Hn H Hp) as (Hv & _ & _ & _ & _ & Hvirt).
  remember (get_endNode g p) as d eqn:Ed.
  induction 1 as [| u w d [Rw L] _ IH]; [by left |].
  specialize (IH Ed Hvirt). right. apply linked_iff in L as (A & Sw & Su).
  destruct IH as [-> | (cells & Hc & [C | C])].
  - exists []. split; [intros c [] | left; done].
  - destruct (Z_lt_le_dec w (n * n)) as [Hw | Hw].
    + exists (w :: cells). split.
      * intros c [<- | Hin]; [split; [lia | done] | by apply Hc].
      * left. simpl. done.
    + destruct (Hvirt w ltac:(lia) Sw) as [-> | ->].
      * exists cells. split; [done | by right].
      * exists []. split; [intros c [] | left; exact A].
  - exists cells. split; [done | by right].
Qed.

Lemma start_not_end n g p :
  2 <= n -> reachable n g -> p = 1 \/ p = 2 ->
  get_startNode g p <> get_endNode g p.
Proof.
  intros Hn H Hp.
  destruct (reachable_ends n g p Hn H Hp) as (_ & -> & -> & _).
  destruct (p =? 1); lia.
Qed.

(** The query of [winnerAI] for a player answers whether the player has a
    winning chain. *)
Lemma has_winning_chain_spec room n g p :
  2 <= n -> 4 <= room -> reachable n g -> p = 1 \/ p = 2 ->
  exists b, has_winning_chain room n g p = Ret b /\
            (b = true <-> winning_chain n g p).
Proof.
  intros Hn Hr H Hp.
  destruct (reachable_ends n g p Hn H Hp) as (Hv & Es & Ee & Ss & Se & Hvirt).
  pose proof (start_not_end n g p Hn H Hp) as Hne.
  assert (Rs : 0 <= get_startNode g p < V g + 4)
    by (rewrite Hv, Es; destruct (p =? 1); nia).
  assert (Re : 0 <= get_endNode g p < V g + 4)
    by (rewrite Hv, Ee; destruct (p =? 1); nia).
  destruct (isReachable_spec room n g (get_startNode g p) (get_endNode g p)
              (sign_of p) Hr ltac:(nia) Rs) as (b & E & Hb).
  exists b. split; [exact E |]. rewrite Hb. split.
  - intros W. apply (follows_chain n g p _ Hn H Hp) in W.
    destruct W as [W | (cells & Hc & [C | C])]; [done | |]; by exists cells.
  - intros (cells & Hc & C).
    apply (chain_follows n g (sign_of p) cells); try done. nia.
Qed.

(** No player has a winning chain on the fresh board. *)
Lemma no_chain_Graph_new n p :
  2 <= n -> p = 1 \/ p = 2 -> ~ winning_chain n (Graph_new n (n * n + 4)) p.
Proof.
  intros Hn Hp (cells & Hc & C).
  pose proof (reachable_new n) as H.
  destruct (reachable_ends n _ p Hn H Hp) as (Hv & Es & Ee & _).
  destruct cells as [|c cells].
  - simpl in C. apply adjacent_Graph_new in C; [| done | |];
      [| rewrite Es; destruct (p =? 1); nia | rewrite Ee; destruct (p =? 1); nia].
    rewrite Es, Ee in C. unfold border_edge in C.
    destruct (p =? 1); nia.
  - destruct (Hc c ltac:(by left)) as [Rc Sc].
    rewrite node_sign_Graph_new in Sc by lia.
    repeat (match type of Sc with context [?a =? ?b] =>
              destruct (Z.eqb_spec a b); [lia |] end).
    unfold sign_of in Sc. destruct (p =? 1); discriminate.
Qed.

(** * The game of Y, and why Hex has exactly one winner

    A board of Y of side [m] is the triangle of the points (i,j) with
    [0 <= i], [0 <= j], [i + j <= m - 1]; a colour wins when one of its
    connected groups touches the three sides.  The reduction of a coloured
    triangle of side [m] to one of side [m - 1] keeps the winner; a triangle
    of side 1 has one point.  A Hex board sits in a triangle whose two
    remaining corners are filled with one colour each. *)

Lemma pair_neq (a b c d : Z) : (a, b) <> (c, d) <-> a <> c \/ b <> d.
Proof.
  split.
  - intros H. destruct (Z.eq_dec a c) as [-> | ?]; [| by left].
    right. intros ->. by apply H.
  - intros [H | H] E; injection E; intros; subst; by apply H.
Qed.

Ltac yarith :=
  unfold ystep, inT, nb, tri in *; simpl in *;
  rewrite ?pair_neq in *; simpl in *.

Lemma ystep_sym m f c p q : ystep m f c p q -> ystep m f c q p.
Proof.
  destruct p as [i j], q as [i' j']. unfold ystep, inT, nb. simpl.
  rewrite !pair_neq. intuition lia.
Qed.

Lemma yconn_sym m f c p q : yconn m f c p q -> yconn m f c q p.
Proof.
  induction 1 as [| x y z S _ IH]; [apply rtc_refl |].
  eapply rtc_r; [exact IH | by apply ystep_sym].
Qed.

Lemma yconn_trans m f c p q r :
  yconn m f c p q -> yconn m f c q r -> yconn m f c p r.
Proof. apply rtc_trans. Qed.

(** Connected points lie in the triangle and carry the colour. *)
Lemma yconn_in m f c p q :
  yconn m f c p q -> inT m p -> f p = c -> inT m q /\ f q = c.
Proof.
  induction 1 as [| x y z S _ IH]; [done |].
  intros _ _. apply IH; apply S.
Qed.

Lemma maj_two a b e c :
  maj a b e = c -> (a = c /\ b = c) \/ (a = c /\ e = c) \/ (b = c /\ e = c).
Proof. destruct a, b, e, c; simpl; intros; try discriminate; tauto. Qed.

Lemma two_maj a b e c :
  (a = c /\ b = c) \/ (a = c /\ e = c) \/ (b = c /\ e = c) -> maj a b e = c.
Proof. destruct a, b, e, c; simpl; intuition discriminate. Qed.

(** ** From the reduced triangle to the triangle *)

(** Two points of the colour in one small triangle are connected. *)
Lemma tri_conn m f c p u v :
  inT (m - 1) p -> tri p u -> tri p v -> f u = c -> f v = c ->
  yconn m f c u v.
Proof.
  intros Hp Hu Hv Fu Fv.
  destruct (decide (u = v)) as [-> | Hne]; [apply rtc_refl |].
  apply rtc_once. destruct p as [i j], u as [a b], v as [a' b'].
  unfold ystep. split_and!; try done; yarith;
    repeat match goal with
    | H : _ \/ _ |- _ => destruct H
    | H : (_, _) = (_, _) |- _ => injection H as ? ?
    end; lia.
Qed.

Lemma tri_in m p u : inT (m - 1) p -> tri p u -> inT m u.
Proof.
  destruct p as [i j], u as [a b]. yarith.
  intros Hp [H | [H | H]]; injection H as -> ->; lia.
Qed.

(** Neighbouring points of the reduced triangle, both of the colour, have
    connected points of the colour in their small triangles. *)
Lemma bridge m f c p q :
  inT (m - 1) p -> inT (m - 1) q -> nb p q -> red f p = c -> red f q = c ->
  exists u v, tri p u /\ tri q v /\ f u = c /\ f v = c /\ yconn m f c u v.
Proof.
  intros Hp Hq Hn Rp Rq. destruct p as [i j], q as [i' j'].
  unfold red in Rp, Rq. simpl in Rp, Rq.
  apply maj_two in Rp, Rq.
  assert (D : (i' = i + 1 /\ j' = j) \/ (i' = i - 1 /\ j' = j) \/
              (i' = i /\ j' = j + 1) \/ (i' = i /\ j' = j - 1) \/
              (i' = i + 1 /\ j' = j - 1) \/ (i' = i - 1 /\ j' = j + 1)).
  { unfold nb in Hn. simpl in Hn. rewrite pair_neq in Hn. lia. }
  clear Hn.
  assert (S : forall u v, tri (i, j) u -> tri (i', j') v -> f u = c -> f v = c ->
                (u = v \/ nb u v) ->
                exists u v, tri (i, j) u /\ tri (i', j') v /\ f u = c /\ f v = c /\
                            yconn m f c u v).
  { intros u v Tu Tv Fu Fv E. exists u, v. split_and!; try done.
    destruct E as [-> | E]; [apply rtc_refl |].
    apply rtc_once. unfold ystep. split_and!; try done.
    - by apply (tri_in m (i, j)).
    - by apply (tri_in m (i', j')). }
  destruct D as [[-> ->] | [[-> ->] | [[-> ->] | [[-> ->] | [[-> ->] | [-> ->]]]]]].
  - (* q = p + (1,0); shared point (i+1, j) *)
    destruct (bool_decide (f (i + 1, j) = c)) eqn:B.
    + apply bool_decide_eq_true in B.
      apply (S (i + 1, j) (i + 1, j)); try done; unfold tri; simpl; auto.
    + apply bool_decide_eq_false in B.
      apply (S (i, j + 1) (i + 1, j + 1)); unfold tri, nb; simpl;
        rewrite ?pair_neq; auto; try tauto. lia.
  - (* q = p - (1,0); shared point (i, j) *)
    replace (i - 1 + 1) with i in Rq by lia.
    destruct (bool_decide (f (i, j) = c)) eqn:B.
    + apply bool_decide_eq_true in B.
      apply (S (i, j) (i, j)); try done; unfold tri; simpl; auto.
      right; left. f_equal. lia.
    + apply bool_decide_eq_false in B.
      apply (S (i, j + 1) (i - 1, j + 1)); unfold tri, nb; simpl;
        rewrite ?pair_neq; auto; try tauto. lia.
  - (* q = p + (0,1); shared point (i, j+1) *)
    destruct (bool_decide (f (i, j + 1) = c)) eqn:B.
    + apply bool_decide_eq_true in B.
      apply (S (i, j + 1) (i, j + 1)); try done; unfold tri; simpl; auto.
    + apply bool_decide_eq_false in B.
      apply (S (i + 1, j) (i + 1, j + 1)); unfold tri, nb; simpl;
        rewrite ?pair_neq; auto; try tauto. lia.
  - (* q = p - (0,1); shared point (i, j) *)
    replace (j - 1 + 1) with j in Rq by lia.
    destruct (bool_decide (f (i, j) = c)) eqn:B.
    + apply bool_decide_eq_true in B.
      apply (S (i, j) (i, j)); try done; unfold tri; simpl; auto.
      right; right. f_equal. lia.
    + apply bool_decide_eq_false in B.
      apply (S (i + 1, j) (i + 1, j - 1)); unfold tri, nb; simpl;
        rewrite ?pair_neq; auto; try tauto. lia.
  - (* q = p + (1,-1); shared point (i+1, j) *)
    replace (j - 1 + 1) with j in Rq by lia.
    destruct (bool_decide (f (i + 1, j) = c)) eqn:B.
    + apply bool_decide_eq_true in B.
      apply (S (i + 1, j) (i + 1, j)); try done; unfold tri; simpl; auto.
      right; right. f_equal. lia.
    + apply bool_decide_eq_false in B.
      apply (S (i, j) (i + 1, j - 1)); unfold tri, nb; simpl;
        rewrite ?pair_neq; auto; try tauto. lia.
  - (* q = p + (-1,1); shared point (i, j+1) *)
    replace (i - 1 + 1) with i in Rq by lia.
    destruct (bool_decide (f (i, j + 1) = c)) eqn:B.
    + apply bool_decide_eq_true in B.
      apply (S (i, j + 1) (i, j + 1)); try done; unfold tri; simpl; auto.
      right; left. f_equal. lia.
    + apply bool_decide_eq_false in B.
      apply (S (i, j) (i - 1, j + 1)); unfold tri, nb; simpl;
        rewrite ?pair_neq; auto; try tauto. lia.
Qed.

(** Points connected in the reduced triangle have their small triangles
    connected in the triangle. *)
Lemma lift_conn m f c p q :
  yconn (m - 1) (red f) c p q -> inT (m - 1) p ->
  forall u v, tri p u -> tri q v -> f u = c -> f v = c -> yconn m f c u v.
Proof.
  induction 1 as [p | p w q S _ IH]; intros Hp u v Tu Tv Fu Fv.
  - by apply (tri_conn m f c p).
  - destruct S as (Ip & Iw & Rp & Rw & N).
    destruct (bridge m f c p w Ip Iw N Rp Rw) as (u0 & v0 & Tu0 & Tv0 & Fu0 & Fv0 & C).
    apply (yconn_trans _ _ _ _ u0); [by apply (tri_conn m f c p) |].
    apply (yconn_trans _ _ _ _ v0); [done |].
    by apply IH.
Qed.

(** A point of the colour on a side of the reduced triangle has a point of
    the colour of its small triangle on the same side of the triangle. *)
Lemma lift_side f c p :
  red f p = c ->
  (p.1 = 0 -> exists u, tri p u /\ f u = c /\ u.1 = 0) /\
  (p.2 = 0 -> exists u, tri p u /\ f u = c /\ u.2 = 0) /\
  (forall m, p.1 + p.2 = m - 2 -> exists u, tri p u /\ f u = c /\ u.1 + u.2 = m - 1).
Proof.
  intros R. destruct p as [i j]. unfold red in R. simpl in *.
  apply maj_two in R. split_and!.
  - intros ->. destruct R as [[A B] | [[A B] | [A B]]].
    + exists (0, j). unfold tri; simpl. auto.
    + exists (0, j). unfold tri; simpl. auto.
    + exists (0, j + 1). unfold tri; simpl. auto.
  - intros ->. destruct R as [[A B] | [[A B] | [A B]]].
    + exists (i, 0). unfold tri; simpl. auto.
    + exists (i, 0). unfold tri; simpl. auto.
    + exists (i + 1, 0). unfold tri; simpl. auto.
  - intros m E. destruct R as [[A B] | [[A B] | [A B]]].
    + exists (i + 1, j). unfold tri; simpl. split_and!; auto. lia.
    + exists (i, j + 1). unfold tri; simpl. split_and!; auto. lia.
    + exists (i + 1, j). unfold tri; simpl. split_and!; auto. lia.
Qed.

Lemma lift_win m f c : ywin (m - 1) (red f) c -> ywin m f c.
Proof.
  intros (a & b & e & Ia & Fa & Sa & Sb & Se & Cb & Ce).
  destruct (yconn_in _ _ _ _ _ Cb Ia Fa) as [Ib Fb].
  destruct (yconn_in _ _ _ _ _ Ce Ia Fa) as [Ie Fe].
  destruct (lift_side f c a Fa) as (HA & _ & _).
  destruct (lift_side f c b Fb) as (_ & HB & _).
  destruct (lift_side f c e Fe) as (_ & _ & HE).
  destruct (HA Sa) as (a' & Ta & Fa' & Sa').
  destruct (HB Sb) as (b' & Tb & Fb' & Sb').
  destruct (HE m ltac:(lia)) as (e' & Te & Fe' & Se').
  exists a', b', e'. split_and!; try done.
  - by apply (tri_in m a).
  - by apply (lift_conn m f c a b).
  - by apply (lift_conn m f c a e).
Qed.

(** ** From the triangle to the reduced triangle *)

(** The two ends of a step lie in one small triangle, whose point in the
    reduced triangle has the colour. *)
Lemma edge_tri m f c u v :
  ystep m f c u v ->
  exists p, inT (m - 1) p /\ tri p u /\ tri p v /\ red f p = c.
Proof.
  intros (Iu & Iv & Fu & Fv & N). destruct u as [i j], v as [i' j'].
  assert (D : (i' = i + 1 /\ j' = j) \/ (i' = i - 1 /\ j' = j) \/
              (i' = i /\ j' = j + 1) \/ (i' = i /\ j' = j - 1) \/
              (i' = i + 1 /\ j' = j - 1) \/ (i' = i - 1 /\ j' = j + 1)).
  { unfold nb in N. simpl in N. rewrite pair_neq in N. lia. }
  clear N. unfold inT in *. simpl in *.
  destruct D as [[-> ->] | [[-> ->] | [[-> ->] | [[-> ->] | [[-> ->] | [-> ->]]]]]].
  - exists (i, j). unfold tri, red, inT; simpl. split_and!; auto; try lia.
    apply two_maj. auto.
  - exists (i - 1, j). unfold tri, red, inT; simpl.
    replace (i - 1 + 1) with i by lia. split_and!; auto; try lia.
    apply two_maj. auto.
  - exists (i, j). unfold tri, red, inT; simpl. split_and!; auto; try lia.
    apply two_maj. auto.
  - exists (i, j - 1). unfold tri, red, inT; simpl.
    replace (j - 1 + 1) with j by lia. split_and!; auto; try lia.
    apply two_maj. auto.
  - exists (i, j - 1). unfold tri, red, inT; simpl.
    replace (j - 1 + 1) with j by lia. split_and!; auto; try lia.
    apply two_maj. auto.
  - exists (i - 1, j). unfold tri, red, inT; simpl.
    replace (i - 1 + 1) with i by lia. split_and!; auto; try lia.
    apply two_maj. auto.
Qed.

(** Two small triangles that share a point are equal or neighbours. *)
Lemma same_point m f c p q u :
  inT (m - 1) p -> inT (m - 1) q -> tri p u -> tri q u ->
  red f p = c -> red f q = c -> yconn (m - 1) (red f) c p q.
Proof.
  intros Ip Iq Tp Tq Rp Rq.
  destruct (decide (p = q)) as [-> | Hne]; [apply rtc_refl |].
  apply rtc_once. unfold ystep. split_and!; try done.
  destruct p as [i j], q as [i' j'], u as [a b].
  unfold nb, tri in *. simpl in *. rewrite pair_neq in *.
  destruct Tp as [E | [E | E]]; injection E as -> ->;
    destruct Tq as [E | [E | E]]; injection E as ? ?; lia.
Qed.

Lemma push_conn m f c u v :
  yconn m f c u v ->
  forall p q, inT (m - 1) p -> inT (m - 1) q -> tri p u -> tri q v ->
    red f p = c -> red f q = c -> yconn (m - 1) (red f) c p q.
Proof.
  induction 1 as [u | u w v S _ IH]; intros p q Ip Iq Tp Tq Rp Rq.
  - by apply (same_point m f c p q u).
  - destruct (edge_tri m f c u w S) as (r & Ir & Tu & Tw & Rr).
    apply (yconn_trans _ _ _ _ r).
    + by apply (same_point m f c p r u).
    + by apply IH.
Qed.

(** The small triangle of a point on a side of the triangle lies on the
    same side of the reduced triangle. *)
Lemma push_side m p u :
  inT (m - 1) p -> tri p u ->
  (u.1 = 0 -> p.1 = 0) /\ (u.2 = 0 -> p.2 = 0) /\
  (u.1 + u.2 = m - 1 -> p.1 + p.2 = m - 2).
Proof.
  destruct p as [i j], u as [a b]. unfold inT, tri. simpl.
  intros Ip [E | [E | E]]; injection E as -> ->; lia.
Qed.

(** A point connected to another point has a step, hence a small triangle. *)
Lemma conn_tri m f c u v :
  yconn m f c u v -> u <> v ->
  (exists p, inT (m - 1) p /\ tri p u /\ red f p = c) /\
  (exists q, inT (m - 1) q /\ tri q v /\ red f q = c).
Proof.
  intros C Hne. split.
  - apply rtc_inv in C as [-> | (w & S & _)]; [done |].
    destruct (edge_tri m f c u w S) as (p & Ip & Tu & _ & Rp). by exists p.
  - apply rtc_inv_r in C as [-> | (w & _ & S)]; [done |].
    destruct (edge_tri m f c w v S) as (p & Ip & _ & Tv & Rp). by exists p.
Qed.

Lemma push_win m f c : 2 <= m -> ywin m f c -> ywin (m - 1) (red f) c.
Proof.
  intros Hm (a & b & e & Ia & Fa & Sa & Sb & Se & Cb & Ce).
  assert (T : exists pa pb pe,
    (inT (m - 1) pa /\ tri pa a /\ red f pa = c) /\
    (inT (m - 1) pb /\ tri pb b /\ red f pb = c) /\
    (inT (m - 1) pe /\ tri pe e /\ red f pe = c)).
  { destruct (decide (a = b)) as [Eab | Nab].
    - assert (Nae : a <> e).
      { intros <-. subst b. destruct a as [i j]. simpl in *. lia. }
      destruct (conn_tri m f c a e Ce Nae) as [(pa & Pa) (pe & Pe)].
      exists pa, pa, pe. subst b. done.
    - destruct (conn_tri m f c a b Cb Nab) as [(pa & Pa) (pb & Pb)].
      destruct (decide (a = e)) as [Eae | Nae].
      + exists pa, pb, pa. subst e. done.
      + destruct (conn_tri m f c a e Ce Nae) as [_ (pe & Pe)].
        by exists pa, pb, pe. }
  destruct T as (pa & pb & pe & (Ipa & Ta & Ra) & (Ipb & Tb & Rb) & (Ipe & Te & Re)).
  exists pa, pb, pe.
  destruct (push_side m pa a Ipa Ta) as (HA & _ & _).
  destruct (push_side m pb b Ipb Tb) as (_ & HB & _).
  destruct (push_side m pe e Ipe Te) as (_ & _ & HE).
  split_and!; auto.
  - specialize (HE Se). lia.
  - by apply (push_conn m f c a b).
  - by apply (push_conn m f c a e).
Qed.

(** ** The theorem of Y *)

Lemma ywin_one f c : ywin 1 f c <-> f (0, 0) = c.
Proof.
  split.
  - intros (a & b & e & Ia & Fa & _). destruct a as [i j].
    unfold inT in Ia. simpl in Ia.
    assert (i = 0) as -> by lia. assert (j = 0) as -> by lia. done.
  - intros F. exists (0, 0), (0, 0), (0, 0). unfold inT. simpl.
    split_and!; try done; try lia; apply rtc_refl.
Qed.

Lemma y_some_winner k f : ywin (Z.of_nat (S k)) f true \/ ywin (Z.of_nat (S k)) f false.
Proof.
  revert f. induction k as [|k IH]; intros f.
  - change (Z.of_nat 1) with 1. rewrite !ywin_one. destruct (f (0, 0)); auto.
  - replace (Z.of_nat (S k)) with (Z.of_nat (S (S k)) - 1) in IH by lia.
    destruct (IH (red f)) as [W | W]; [left | right]; by apply lift_win.
Qed.

Lemma y_one_winner k f :
  ywin (Z.of_nat (S k)) f true -> ywin (Z.of_nat (S k)) f false -> False.
Proof.
  revert f. induction k as [|k IH]; intros f.
  - change (Z.of_nat 1) with 1. rewrite !ywin_one. congruence.
  - intros W1 W2. apply push_win in W1, W2; try lia.
    replace (Z.of_nat (S (S k)) - 1) with (Z.of_nat (S k)) in W1, W2 by lia.
    by apply (IH (red f)).
Qed.

(** ** Hex inside Y *)

Lemma fill_in n h p : inR n p -> fill n h p = h p.
Proof.
  intros [H1 H2]. unfold fill.
  destruct (p.1 <? n) eqn:E1; [| lia]. destruct (p.2 <? n) eqn:E2; [done | lia].
Qed.

Lemma inR_inT n p : inR n p -> inT (2 * n - 1) p.
Proof. unfold inR, inT. lia. Qed.

Lemma hconn_in n h c p q :
  hconn n h c p q -> inR n p -> h p = c -> inR n q /\ h q = c.
Proof.
  induction 1 as [| x y z S _ IH]; [done |].
  intros _ _. apply IH; apply S.
Qed.

Lemma hconn_yconn n h c p q :
  hconn n h c p q -> yconn (2 * n - 1) (fill n h) c p q.
Proof.
  induction 1 as [| x y z (Ix & Iy & Fx & Fy & N) _ IH]; [apply rtc_refl |].
  eapply rtc_l; [| exact IH].
  unfold ystep. rewrite !fill_in by done. auto using inR_inT.
Qed.

(** A [true] group that starts in the square stays in it, or has met the
    last row. *)
Lemma escape_rows n h a u :
  yconn (2 * n - 1) (fill n h) true a u -> inR n a ->
  (inR n u /\ hconn n h true a u) \/ (exists v, v.1 = n - 1 /\ hconn n h true a v).
Proof.
  intros C Ia. revert u C.
  apply (rtc_ind_r (fun u => (inR n u /\ hconn n h true a u) \/
                             (exists v, v.1 = n - 1 /\ hconn n h true a v))).
  - left. split; [done | apply rtc_refl].
  - intros y z _ (Iy & Iz & Fy & Fz & N) [[Ry Cy] | R]; [| by right].
    destruct y as [i j], z as [i' j'].
    unfold fill, inR, inT, nb in *. simpl in *. rewrite pair_neq in N.
    destruct (i' <? n) eqn:E1.
    + destruct (j' <? n) eqn:E2; [| discriminate].
      left. split; [lia |]. eapply rtc_r; [exact Cy |].
      unfold hstep, inR, nb. simpl. rewrite pair_neq.
      destruct (i <? n) eqn:E3; [| lia]. destruct (j <? n) eqn:E4; [| lia].
      split_and!; try done; lia.
    + right. exists (i, j). simpl. split; [lia | done].
Qed.

(** A [false] group that starts in the square stays in it, or has met the
    last column. *)
Lemma escape_cols n h a u :
  yconn (2 * n - 1) (fill n h) false a u -> inR n a ->
  (inR n u /\ hconn n h false a u) \/ (exists v, v.2 = n - 1 /\ hconn n h false a v).
Proof.
  intros C Ia. revert u C.
  apply (rtc_ind_r (fun u => (inR n u /\ hconn n h false a u) \/
                             (exists v, v.2 = n - 1 /\ hconn n h false a v))).
  - left. split; [done | apply rtc_refl].
  - intros y z _ (Iy & Iz & Fy & Fz & N) [[Ry Cy] | R]; [| by right].
    destruct y as [i j], z as [i' j'].
    unfold fill, inR, inT, nb in *. simpl in *. rewrite pair_neq in N.
    destruct (i' <? n) eqn:E1; [| discriminate].
    destruct (j' <? n) eqn:E2.
    + left. split; [lia |]. eapply rtc_r; [exact Cy |].
      unfold hstep, inR, nb. simpl. rewrite pair_neq.
      destruct (i <? n) eqn:E3; [| lia]. destruct (j <? n) eqn:E4; [| lia].
      split_and!; try done; lia.
    + right. exists (i, j). simpl. split; [lia | done].
Qed.

Lemma ywin_rows n h : 1 <= n -> ywin (2 * n - 1) (fill n h) true -> hwin_rows n h.
Proof.
  intros Hn (a & b & e & Ia & Fa & Sa & _ & Se & _ & Ce).
  assert (Ra : inR n a).
  { destruct a as [i j]. unfold fill, inT, inR in *. simpl in *. subst i.
    destruct (0 <? n) eqn:E1; [| lia]. destruct (j <? n) eqn:E2; [lia | discriminate]. }
  assert (Ha : h a = true) by (by rewrite <- (fill_in n h a)).
  destruct (escape_rows n h a e Ce Ra) as [[Re C] | (v & Rv & C)].
  - exists a, e. split_and!; try done. unfold inR in Re. lia.
  - by exists a, v.
Qed.

Lemma ywin_cols n h : 1 <= n -> ywin (2 * n - 1) (fill n h) false -> hwin_cols n h.
Proof.
  intros Hn (a & b & e & Ia & Fa & _ & Sb & Se & Cb & Ce).
  destruct (yconn_in _ _ _ _ _ Cb Ia Fa) as [Ib Fb].
  assert (Rb : inR n b).
  { destruct b as [i j]. unfold fill, inT, inR in *. simpl in *. subst j.
    destruct (i <? n) eqn:E1; [lia | discriminate]. }
  assert (Hb : h b = false) by (by rewrite <- (fill_in n h b)).
  assert (C : yconn (2 * n - 1) (fill n h) false b e).
  { eapply yconn_trans; [apply yconn_sym; exact Cb | exact Ce]. }
  destruct (escape_cols n h b e C Rb) as [[Re C'] | (v & Rv & C')].
  - exists b, e. split_and!; try done. unfold inR in Re. lia.
  - by exists b, v.
Qed.

(** Walks in the two corners of the triangle. *)
Lemma walk_below n h j k :
  0 <= j -> j + Z.of_nat k <= n - 2 ->
  yconn (2 * n - 1) (fill n h) true (n, j) (n, j + Z.of_nat k).
Proof.
  intros Hj. induction k as [|k IH]; intros Hk.
  - replace (j + Z.of_nat 0) with j by lia. apply rtc_refl.
  - eapply rtc_r; [apply IH; lia |].
    replace (j + Z.of_nat (S k)) with (j + Z.of_nat k + 1) in * by lia.
    assert (0 <= j + Z.of_nat k) by lia.
    generalize dependent (j + Z.of_nat k). intros t _ Ht Ht0.
    unfold ystep, inT, nb, fill. cbn [fst snd]. rewrite pair_neq.
    rewrite Z.ltb_irrefl. split_and!; try done; lia.
Qed.

Lemma walk_right n h i k :
  0 <= i -> i + Z.of_nat k <= n - 2 ->
  yconn (2 * n - 1) (fill n h) false (i, n) (i + Z.of_nat k, n).
Proof.
  intros Hi. induction k as [|k IH]; intros Hk.
  - replace (i + Z.of_nat 0) with i by lia. apply rtc_refl.
  - eapply rtc_r; [apply IH; lia |].
    replace (i + Z.of_nat (S k)) with (i + Z.of_nat k + 1) in * by lia.
    assert (0 <= i + Z.of_nat k) by lia.
    generalize dependent (i + Z.of_nat k). intros t _ Ht Ht0.
    unfold ystep, inT, nb, fill. cbn [fst snd]. rewrite pair_neq.
    rewrite Z.ltb_irrefl.
    destruct (t <? n) eqn:E1; [| lia].
    destruct (t + 1 <? n) eqn:E2; [| lia].
    split_and!; try done; lia.
Qed.

Lemma rows_ywin n h : 2 <= n -> hwin_rows n h -> ywin (2 * n - 1) (fill n h) true.
Proof.
  intros Hn (a & b & Ra & Ha & Sa & Sb & C).
  destruct (hconn_in n h true a b C Ra Ha) as [Rb Hb].
  apply hconn_yconn in C.
  destruct b as [i j]. unfold inR in Rb. simpl in Rb, Sb. subst i.
  set (j' := if j <? n - 1 then j else j - 1).
  assert (Hj' : 0 <= j' <= n - 2) by (unfold j'; destruct (j <? n - 1) eqn:E; lia).
  assert (S : ystep (2 * n - 1) (fill n h) true (n - 1, j) (n, j')).
  { unfold ystep. rewrite (fill_in n h (n - 1, j)) by (unfold inR; simpl; lia).
    unfold inT, nb, fill. simpl. rewrite pair_neq, Z.ltb_irrefl.
    unfold j'. destruct (j <? n - 1) eqn:E; split_and!; try done; lia. }
  assert (C' : yconn (2 * n - 1) (fill n h) true a (n, j')).
  { eapply rtc_r; [exact C | exact S]. }
  exists a, (n, 0), (n, n - 2). simpl.
  split_and!; try done; try lia.
  - by apply inR_inT.
  - by rewrite fill_in.
  - eapply yconn_trans; [exact C' |]. apply yconn_sym.
    pose proof (walk_below n h 0 (Z.to_nat j') ltac:(lia) ltac:(lia)) as W.
    replace (0 + Z.of_nat (Z.to_nat j')) with j' in W by lia. exact W.
  - eapply yconn_trans; [exact C' |].
    pose proof (walk_below n h j' (Z.to_nat (n - 2 - j')) ltac:(lia) ltac:(lia)) as W.
    replace (j' + Z.of_nat (Z.to_nat (n - 2 - j'))) with (n - 2) in W by lia. exact W.
Qed.

Lemma cols_ywin n h : 2 <= n -> hwin_cols n h -> ywin (2 * n - 1) (fill n h) false.
Proof.
  intros Hn (a & b & Ra & Ha & Sa & Sb & C).
  destruct (hconn_in n h false a b C Ra Ha) as [Rb Hb].
  apply hconn_yconn in C.
  destruct b as [i j]. unfold inR in Rb. simpl in Rb, Sb. subst j.
  set (i' := if i <? n - 1 then i else i - 1).
  assert (Hi' : 0 <= i' <= n - 2) by (unfold i'; destruct (i <? n - 1) eqn:E; lia).
  assert (F : forall k, 0 <= k <= n - 2 -> fill n h (k, n) = false).
  { intros k Hk. unfold fill. simpl. rewrite Z.ltb_irrefl.
    destruct (k <? n) eqn:E; [done | lia]. }
  assert (S : ystep (2 * n - 1) (fill n h) false (i, n - 1) (i', n)).
  { unfold ystep. rewrite (fill_in n h (i, n - 1)) by (unfold inR; simpl; lia).
    rewrite F by done.
    unfold inT, nb. simpl. rewrite pair_neq.
    unfold i' in *. destruct (i <? n - 1) eqn:E; split_and!; try done; lia. }
  assert (C' : yconn (2 * n - 1) (fill n h) false a (i', n)).
  { eapply rtc_r; [exact C | exact S]. }
  assert (W0 : yconn (2 * n - 1) (fill n h) false (i', n) (0, n)).
  { apply yconn_sym.
    pose proof (walk_right n h 0 (Z.to_nat i') ltac:(lia) ltac:(lia)) as W.
    replace (0 + Z.of_nat (Z.to_nat i')) with i' in W by lia. exact W. }
  exists (0, n), a, (n - 2, n). simpl.
  split_and!; try done; try lia.
  - unfold inT. simpl. lia.
  - apply F. lia.
  - apply yconn_sym. eapply yconn_trans; [exact C' | exact W0].
  - eapply yconn_trans; [apply yconn_sym; exact W0 |].
    pose proof (walk_right n h i' (Z.to_nat (n - 2 - i')) ltac:(lia) ltac:(lia)) as W.
    replace (i' + Z.of_nat (Z.to_nat (n - 2 - i'))) with (n - 2) in W by lia. exact W.
Qed.

(** A full board of Hex has a winner. *)
Lemma hex_some_winner n h : 1 <= n -> hwin_rows n h \/ hwin_cols n h.
Proof.
  intros Hn.
  pose proof (y_some_winner (Z.to_nat (2 * n - 2)) (fill n h)) as W.
  replace (Z.of_nat (S (Z.to_nat (2 * n - 2)))) with (2 * n - 1) in W by lia.
  destruct W as [W | W]; [left; by apply ywin_rows | right; by apply ywin_cols].
Qed.

(** No board of Hex has two winners. *)
Lemma hex_one_winner n h : 2 <= n -> hwin_rows n h -> hwin_cols n h -> False.
Proof.
  intros Hn W1 W2. apply rows_ywin in W1; [| done]. apply cols_ywin in W2; [| done].
  apply (y_one_winner (Z.to_nat (2 * n - 2)) (fill n h)).
  - replace (Z.of_nat (S (Z.to_nat (2 * n - 2)))) with (2 * n - 1) by lia. done.
  - replace (Z.of_nat (S (Z.to_nat (2 * n - 2)))) with (2 * n - 1) by lia. done.
Qed.

(** * The board of the program as a board of Hex *)

Lemma node_coords n c :
  0 < n -> 0 <= c < n * n ->
  c = cell n (c / n) (c mod n) /\ 0 <= c / n < n /\ 0 <= c mod n < n.
Proof.
  intros Hn Hc. unfold cell.
  pose proof (Z.div_mod c n ltac:(lia)) as E.
  pose proof (Z.mod_pos_bound c n Hn) as B.
  assert (0 <= c / n) by (apply Z.div_pos; lia).
  assert (c / n < n) by (apply Z.div_lt_upper_bound; lia).
  lia.
Qed.

Lemma nbr_node_nb n x y x' y' :
  0 <= x < n -> 0 <= y < n -> 0 <= x' < n -> 0 <= y' < n ->
  nbr_node n x y (cell n x' y') <-> nb (x, y) (x', y').
Proof.
  intros Hx Hy Hx' Hy'. unfold nbr_node, cell, nb. simpl. rewrite pair_neq.
  split.
  - intros H.
    assert (C : (x' = x - 1 /\ y' = y) \/ (x' = x - 1 /\ y' = y + 1) \/
                (x' = x /\ y' = y - 1) \/ (x' = x + 1 /\ y' = y - 1) \/
                (x' = x /\ y' = y + 1) \/ (x' = x + 1 /\ y' = y)).
    { destruct H as [[? E] | [[? [? E]] | [[? E] | [[? [? E]] | [[? E] | [? E]]]]]].
      - left. apply idx_inj in E; lia.
      - right; left.
        replace ((x - 1) * n + y + 1) with ((x - 1) * n + (y + 1)) in E by ring.
        apply idx_inj in E; lia.
      - right; right; left.
        replace (x * n + y - 1) with (x * n + (y - 1)) in E by ring.
        apply idx_inj in E; lia.
      - right; right; right; left.
        replace ((x + 1) * n + y - 1) with ((x + 1) * n + (y - 1)) in E by ring.
        apply idx_inj in E; lia.
      - right; right; right; right; left.
        replace (x * n + y + 1) with (x * n + (y + 1)) in E by ring.
        apply idx_inj in E; lia.
      - right; right; right; right; right. apply idx_inj in E; lia. }
    lia.
  - intros H.
    assert (C : (x' = x - 1 /\ y' = y) \/ (x' = x - 1 /\ y' = y + 1) \/
                (x' = x /\ y' = y - 1) \/ (x' = x + 1 /\ y' = y - 1) \/
                (x' = x /\ y' = y + 1) \/ (x' = x + 1 /\ y' = y)) by lia.
    clear H.
    destruct C as [[-> ->] | [[-> ->] | [[-> ->] | [[-> ->] | [[-> ->] | [-> ->]]]]]].
    + left. split; [lia | ring].
    + right; left. split; [lia |]. split; [lia | ring].
    + right; right; left. split; [lia | ring].
    + right; right; right; left. split; [lia |]. split; [lia | ring].
    + right; right; right; right; left. split; [lia | ring].
    + right; right; right; right; right. split; [lia | ring].
Qed.

Section Link.

Variables (n : Z) (g : Graph).
Hypothesis Hn : 2 <= n.
Hypothesis Hg : reachable n g.

Lemma colour_sign p x y :
  p = 1 \/ p = 2 -> 0 <= x < n -> 0 <= y < n ->
  node_sign n g (cell n x y) = sign_of p ->
  colour g (x, y) = (p =? 1).
Proof using Hn Hg.
  intros Hp Hx Hy S.
  rewrite <- (get_sign_cell n g x y) in S; [| apply (reachable_sized n g Hn Hg) | lia | lia].
  unfold colour. simpl. rewrite S. destruct Hp as [-> | ->]; done.
Qed.

(** An edge between two cells joins neighbours of the board. *)
Lemma cell_edge_nb x y x' y' :
  0 <= x < n -> 0 <= y < n -> 0 <= x' < n -> 0 <= y' < n ->
  adjacent g (cell n x y) (cell n x' y') = true -> nb (x, y) (x', y').
Proof using Hn Hg.
  intros Hx Hy Hx' Hy' A.
  pose proof (cell_range n x y Hx Hy) as Rc.
  pose proof (cell_range n x' y' Hx' Hy') as Rc'.
  apply (reachable_edges n g) in A; [| done | done | lia | lia].
  destruct A as [B | [B | [S | S]]].
  - unfold border_edge in B. lia.
  - unfold border_edge in B. lia.
  - destruct S as (a & b & Ha & Hb & E & N & _).
    unfold cell in E. apply idx_inj in E as [-> ->]; [| lia | lia].
    by apply (nbr_node_nb n).
  - destruct S as (a & b & Ha & Hb & E & N & _).
    unfold cell in E. apply idx_inj in E as [-> ->]; [| lia | lia].
    apply (nbr_node_nb n) in N; try done.
    unfold nb in *. simpl in *. rewrite pair_neq in *. lia.
Qed.

(** Neighbours of the board of which one is occupied are joined. *)
Lemma nb_cell_edge x y x' y' :
  0 <= x < n -> 0 <= y < n -> 0 <= x' < n -> 0 <= y' < n ->
  nb (x, y) (x', y') -> node_sign n g (cell n x y) <> "."%char ->
  adjacent g (cell n x y) (cell n x' y') = true.
Proof using Hn Hg.
  intros Hx Hy Hx' Hy' N S.
  pose proof (cell_range n x y Hx Hy) as Rc.
  pose proof (cell_range n x' y' Hx' Hy') as Rc'.
  apply (reachable_edges n g); [done | done | lia | lia |].
  right; right; left. exists x, y.
  split; [done |]. split; [done |]. split; [done |].
  split; [by apply (nbr_node_nb n) | done].
Qed.

(** The cells joined to the four virtual nodes. *)
Lemma border_cell p c :
  p = 1 \/ p = 2 -> 0 <= c < n * n ->
  (adjacent g (get_startNode g p) c = true <->
   if p =? 1 then c / n = 0 else c mod n = 0) /\
  (adjacent g c (get_endNode g p) = true <->
   if p =? 1 then c / n = n - 1 else c mod n = n - 1).
Proof using Hn Hg.
  intros Hp Hc.
  destruct (reachable_ends n g p Hn Hg Hp) as (_ & -> & -> & _).
  destruct (node_coords n c ltac:(lia) Hc) as (E & Rx & Ry).
  unfold cell in E.
  assert (NS : forall u v, ~ (stone_edge n g u v /\ (n * n <= u \/ n * n <= v))).
  { intros u v [(a & b & Ha & Hb & -> & N & _) O].
    pose proof (cell_range n a b Ha Hb).
    pose proof (nbr_node_range n a b v Ha Hb N). lia. }
  split.
  - rewrite (reachable_edges n g) by (try done; destruct (p =? 1); lia).
    split.
    + intros [B | [B | [S | S]]].
      * unfold border_edge in B. destruct (p =? 1); [| lia].
        assert (c / n = 0 \/ 1 <= c / n) as [? | ?] by lia; [done | nia].
      * unfold border_edge in B. destruct (p =? 1); lia.
      * exfalso. eapply NS. split; [exact S | destruct (p =? 1); lia].
      * exfalso. eapply NS. split; [exact S | destruct (p =? 1); lia].
    + intros H. left. unfold border_edge. destruct (p =? 1); [| lia].
      left. split; [done |]. rewrite H in E. lia.
  - rewrite (reachable_edges n g) by (try done; destruct (p =? 1); lia).
    split.
    + intros [B | [B | [S | S]]].
      * unfold border_edge in B. destruct (p =? 1); lia.
      * unfold border_edge in B. destruct (p =? 1); [| lia].
        assert (c / n = n - 1 \/ c / n <= n - 2) as [? | ?] by lia; [done | nia].
      * exfalso. eapply NS. split; [exact S | destruct (p =? 1); lia].
      * exfalso. eapply NS. split; [exact S | destruct (p =? 1); lia].
    + intros H. right; left. unfold border_edge. destruct (p =? 1); [| lia].
      right; left. split; [done |]. rewrite H in E. nia.
Qed.

End Link.

Section Winner.

Variables (n : Z) (g : Graph).
Hypothesis Hn : 2 <= n.
Hypothesis Hg : reachable n g.

Lemma point_in c : 0 <= c < n * n -> inR n (point n c).
Proof using Hn.
  intros Hc. destruct (node_coords n c ltac:(lia) Hc) as (_ & ? & ?).
  unfold inR, point. simpl. lia.
Qed.

Lemma point_cell x y : 0 <= x < n -> 0 <= y < n -> point n (cell n x y) = (x, y).
Proof using Hn.
  intros Hx Hy. unfold point, cell. f_equal.
  - rewrite Z.div_add_l by lia. rewrite Z.div_small by lia. lia.
  - rewrite Z.add_comm, Z.mod_add by lia. apply Z.mod_small. lia.
Qed.

Lemma point_colour p c :
  p = 1 \/ p = 2 -> 0 <= c < n * n -> node_sign n g c = sign_of p ->
  colour g (point n c) = (p =? 1).
Proof using Hn Hg.
  intros Hp Hc S. destruct (node_coords n c ltac:(lia) Hc) as (E & Rx & Ry).
  rewrite E in S. by apply (colour_sign n g Hn Hg p).
Qed.

Lemma point_step p u c :
  p = 1 \/ p = 2 -> 0 <= u < n * n -> 0 <= c < n * n ->
  node_sign n g u = sign_of p -> node_sign n g c = sign_of p ->
  adjacent g u c = true ->
  hstep n (colour g) (p =? 1) (point n u) (point n c).
Proof using Hn Hg.
  intros Hp Hu Hc Su Sc A. unfold hstep.
  split_and!; auto using point_in, point_colour.
  destruct (node_coords n u ltac:(lia) Hu) as (Eu & ? & ?).
  destruct (node_coords n c ltac:(lia) Hc) as (Ec & ? & ?).
  rewrite Eu, Ec in A. by apply (cell_edge_nb n g Hn Hg).
Qed.

Lemma chain_hconn p cells u :
  p = 1 \/ p = 2 -> 0 <= u < n * n -> node_sign n g u = sign_of p ->
  (forall c, In c cells -> 0 <= c < n * n /\ node_sign n g c = sign_of p) ->
  chain g u cells (get_endNode g p) ->
  exists w, 0 <= w < n * n /\ adjacent g w (get_endNode g p) = true /\
            hconn n (colour g) (p =? 1) (point n u) (point n w).
Proof using Hn Hg.
  intros Hp. revert u. induction cells as [|c cells IH]; intros u Hu Su Hc C.
  - exists u. split_and!; [lia | lia | exact C | apply rtc_refl].
  - destruct C as [A C]. destruct (Hc c ltac:(by left)) as [Rc Sc].
    destruct (IH c Rc Sc) as (w & Rw & Aw & Cw); [intros c' H'; apply Hc; by right | done |].
    exists w. split_and!; [lia | lia | done |].
    eapply rtc_l; [| exact Cw]. by apply point_step.
Qed.

Lemma no_virtual_edge u v :
  n * n <= u < n * n + 4 -> n * n <= v < n * n + 4 -> adjacent g u v = true -> False.
Proof using Hn Hg.
  intros Hu Hv A. apply (reachable_edges n g) in A; [| done | done | lia | lia].
  assert (NS : forall a b, stone_edge n g a b -> 0 <= a < n * n /\ 0 <= b < n * n).
  { intros a b (x & y & Hx & Hy & -> & N & _).
    split; [by apply cell_range | by apply (nbr_node_range n x y)]. }
  destruct A as [B | [B | [S | S]]].
  - unfold border_edge in B. nia.
  - unfold border_edge in B. nia.
  - apply NS in S. lia.
  - apply NS in S. lia.
Qed.

(** A winning chain of the program is a winning group of Hex. *)
Lemma chain_hwin p :
  p = 1 \/ p = 2 -> winning_chain n g p ->
  if p =? 1 then hwin_rows n (colour g) else hwin_cols n (colour g).
Proof using Hn Hg.
  intros Hp (cells & Hc & C).
  destruct (reachable_ends n g p Hn Hg Hp) as (_ & Es & Ee & _).
  destruct cells as [|c cells].
  - exfalso. simpl in C. apply (no_virtual_edge _ _) in C; [done | |];
      rewrite ?Es, ?Ee; destruct (p =? 1); lia.
  - destruct C as [A C]. destruct (Hc c ltac:(by left)) as [Rc Sc].
    destruct (chain_hconn p cells c Hp Rc Sc) as (w & Rw & Aw & Cw);
      [intros c' H'; apply Hc; by right | done |].
    apply (border_cell n g Hn Hg p c Hp Rc) in A.
    apply (border_cell n g Hn Hg p w Hp Rw) in Aw.
    pose proof (point_colour p c Hp Rc Sc) as Fc.
    pose proof (point_in c Rc) as Ic.
    destruct Hp as [-> | ->]; simpl in *.
    + exists (point n c), (point n w). by split_and!.
    + exists (point n c), (point n w). by split_and!.
Qed.

(** A group of Hex gives a chain of the program. *)
Lemma hconn_chain p a b d :
  p = 1 \/ p = 2 ->
  (forall q, inR n q -> colour g q = (p =? 1) ->
             node_sign n g (cell n q.1 q.2) = sign_of p) ->
  hconn n (colour g) (p =? 1) a b -> inR n a ->
  adjacent g (cell n b.1 b.2) d = true ->
  exists cells,
    (forall c, In c cells -> 0 <= c < n * n /\ node_sign n g c = sign_of p) /\
    chain g (cell n a.1 a.2) cells d.
Proof using Hn Hg.
  intros Hp Hs C. induction C as [a | a y b (Ia & Iy & Fa & Fy & N) _ IH]; intros _ A.
  - exists []. split; [intros c [] | exact A].
  - destruct (IH Iy A) as (cells & Hc & Ch).
    exists (cell n y.1 y.2 :: cells). split.
    + intros c [<- | H]; [| by apply Hc].
      split; [apply cell_range; apply Iy | by apply Hs].
    + simpl. split; [| done].
      destruct a as [x1 y1], y as [x2 y2]. unfold inR in *. simpl in *.
      apply (nb_cell_edge n g Hn Hg); try lia; try done.
      pose proof (Hs (x1, y1) ltac:(unfold inR; simpl; lia) Fa) as Sa.
      simpl in Sa. rewrite Sa. unfold sign_of. destruct (p =? 1); done.
Qed.

Lemma hwin_chain p :
  p = 1 \/ p = 2 ->
  (forall q, inR n q -> colour g q = (p =? 1) ->
             node_sign n g (cell n q.1 q.2) = sign_of p) ->
  (if p =? 1 then hwin_rows n (colour g) else hwin_cols n (colour g)) ->
  winning_chain n g p.
Proof using Hn Hg.
  intros Hp Hs W.
  assert (W' : exists a b, inR n a /\ colour g a = (p =? 1) /\
             (if p =? 1 then a.1 = 0 else a.2 = 0) /\
             (if p =? 1 then b.1 = n - 1 else b.2 = n - 1) /\
             hconn n (colour g) (p =? 1) a b).
  { destruct Hp as [-> | ->]; simpl in *;
      destruct W as (a & b & ? & ? & ? & ? & ?); by exists a, b. }
  clear W. destruct W' as (a & b & Ia & Fa & Sa & Sb & C).
  destruct (hconn_in n _ _ a b C Ia Fa) as [Ib Fb].
  pose proof (cell_range n a.1 a.2 (proj1 Ia) (proj2 Ia)) as Ra.
  pose proof (cell_range n b.1 b.2 (proj1 Ib) (proj2 Ib)) as Rb.
  assert (Pa : point n (cell n a.1 a.2) = a)
    by (rewrite point_cell; [by destruct a | apply Ia | apply Ia]).
  assert (Pb : point n (cell n b.1 b.2) = b)
    by (rewrite point_cell; [by destruct b | apply Ib | apply Ib]).
  destruct (hconn_chain p a b (get_endNode g p) Hp Hs C Ia) as (cells & Hc & Ch).
  { apply (border_cell n g Hn Hg p _ Hp Rb).
    unfold point in Pb. rewrite <- Pb in Sb. simpl in Sb. exact Sb. }
  exists (cell n a.1 a.2 :: cells). split.
  - intros c [<- | H]; [| by apply Hc]. split; [done | by apply Hs].
  - simpl. split; [| done].
    apply (border_cell n g Hn Hg p _ Hp Ra).
    unfold point in Pa. rewrite <- Pa in Sa. simpl in Sa. exact Sa.
Qed.

(** On a reached board, at most one player has a winning chain. *)
Lemma one_chain : winning_chain n g 1 -> winning_chain n g 2 -> False.
Proof using Hn Hg.
  intros W1 W2.
  apply (chain_hwin 1) in W1; [| by left]. apply (chain_hwin 2) in W2; [| by right].
  simpl in *. by apply (hex_one_winner n (colour g)).
Qed.

(** On a reached board without an empty cell, a player has a winning chain. *)
Lemma some_chain : full n g -> winning_chain n g 1 \/ winning_chain n g 2.
Proof using Hn Hg.
  intros F.
  pose proof (reachable_sized n g Hn Hg) as Sg.
  destruct (reachable_signs n g Hn Hg) as (_ & _ & _ & _ & Sc).
  destruct (hex_some_winner n (colour g) ltac:(lia)) as [W | W].
  - left. apply (hwin_chain 1); [by left | | done].
    intros [x y] [Hx Hy] Fq. simpl in *.
    rewrite <- (get_sign_cell n g x y) by (try apply Sg; lia).
    unfold colour in Fq. simpl in Fq. by apply Ascii.eqb_eq in Fq.
  - right. apply (hwin_chain 2); [by right | | done].
    intros [x y] [Hx Hy] Fq. simpl in *.
    pose proof (cell_range n x y Hx Hy) as Rc.
    destruct (Sc _ Rc) as [S | [S | S]].
    + exfalso. apply (F x y Hx Hy).
      rewrite (get_sign_cell n g x y) by (try apply Sg; lia). done.
    + exfalso. unfold colour in Fq. simpl in Fq.
      rewrite (get_sign_cell n g x y) in Fq by (try apply Sg; lia).
      rewrite S in Fq. discriminate.
    + done.
Qed.

Lemma winnerAI_1 room (m : Z) (h : Graph) :
  winnerAI room m h 1 =
  let* won := has_winning_chain room m h 1 in
  if won then Ret 1
  else let* won := has_winning_chain room m h 2 in
       if won then Ret 2 else Ret 0.
Proof. reflexivity. Qed.

Lemma winnerAI_2 room (m : Z) (h : Graph) :
  winnerAI room m h 2 =
  let* won := has_winning_chain room m h 2 in
  if won then Ret 2
  else let* won := has_winning_chain room m h 1 in
       if won then Ret 1 else Ret 0.
Proof. reflexivity. Qed.

(** What [winnerAI] returns on a reached board. *)
Lemma winnerAI_spec room p :
  4 <= room -> p = 1 \/ p = 2 ->
  exists w, winnerAI room n g p = Ret w /\
    (w = 0 \/ w = 1 \/ w = 2) /\
    (w = 1 <-> winning_chain n g 1) /\ (w = 2 <-> winning_chain n g 2).
Proof using Hn Hg.
  intros Hr Hp.
  destruct (has_winning_chain_spec room n g 1 Hn Hr Hg ltac:(by left)) as (b1 & E1 & B1).
  destruct (has_winning_chain_spec room n g 2 Hn Hr Hg ltac:(by right)) as (b2 & E2 & B2).
  pose proof one_chain as U.
  destruct Hp as [-> | ->].
  - rewrite winnerAI_1, E1. cbn [bind]. destruct b1.
    + exists 1. split_and!; [done | lia | | ]; intuition (try lia; try discriminate).
    + rewrite E2. cbn [bind]. destruct b2.
      * exists 2. split_and!; [done | lia | | ]; intuition (try lia; try discriminate).
      * exists 0. split_and!; [done | lia | | ]; intuition (try lia; try discriminate).
  - rewrite winnerAI_2, E2. cbn [bind]. destruct b2.
    + exists 2. split_and!; [done | lia | | ]; intuition (try lia; try discriminate).
    + rewrite E1. cbn [bind]. destruct b1.
      * exists 1. split_and!; [done | lia | | ]; intuition (try lia; try discriminate).
      * exists 0. split_and!; [done | lia | | ]; intuition (try lia; try discriminate).
Qed.

(** On a reached board without an empty cell [winnerAI] names a winner. *)
Lemma winnerAI_full room p :
  4 <= room -> p = 1 \/ p = 2 -> full n g ->
  exists w, winnerAI room n g p = Ret w /\ (w = 1 \/ w = 2).
Proof using Hn Hg.
  intros Hr Hp F. destruct (winnerAI_spec room p Hr Hp) as (w & E & R & W1 & W2).
  exists w. split; [done |]. destruct (some_chain F) as [C | C]; [left | right]; tauto.
Qed.

End Winner.

(** * The Monte Carlo evaluator *)

Lemma NoDup_loop_up1 fuel a stop : NoDup (loop_up fuel a stop 1).
Proof.
  revert a. induction fuel as [|k IH]; intros a; simpl; [constructor |].
  destruct (a <? stop); [| constructor].
  constructor; [| apply IH].
  rewrite list_elem_of_In. intros H.
  assert (G : forall fuel b i, In i (loop_up fuel b stop 1) -> b <= i).
  { clear. induction fuel as [|k IH]; intros b i; simpl; [tauto |].
    destruct (b <? stop); [| simpl; tauto].
    intros [<- | H]; [lia |]. apply IH in H. lia. }
  apply G in H. lia.
Qed.

(** A loop that appends the values passing a test. *)
Lemma for_each_append {A} (idx : list Z) (test : Z -> bool) (mk : Z -> A) acc :
  for_each idx (fun j acc => if test j then acc ++ [mk j] else acc) acc =
  acc ++ map mk (List.filter test idx).
Proof.
  unfold for_each. revert acc. induction idx as [|j idx IH]; intros acc; simpl.
  - by rewrite app_nil_r.
  - rewrite IH. destruct (test j); simpl; [| done].
    by rewrite <- app_assoc.
Qed.

Lemma free_cells_rows n g :
  free_cells n g =
  flat_map (fun i => map (pair i)
              (List.filter (fun j => Ascii.eqb (get_sign g i j) ".")
                 (loop_up (Z.to_nat n) 0 n 1)))
    (loop_up (Z.to_nat n) 0 n 1).
Proof.
  unfold free_cells.
  assert (G : forall rows acc,
    for_each rows
      (fun i avail =>
         for_each (loop_up (Z.to_nat n) 0 n 1)
           (fun j avail =>
              if Ascii.eqb (get_sign g i j) "." then avail ++ [(i, j)] else avail)
           avail) acc =
    acc ++ flat_map (fun i => map (pair i)
              (List.filter (fun j => Ascii.eqb (get_sign g i j) ".")
                 (loop_up (Z.to_nat n) 0 n 1))) rows).
  { induction rows as [|i rows IH]; intros acc.
    - simpl. by rewrite app_nil_r.
    - unfold for_each in *. simpl. rewrite IH.
      pose proof (for_each_append (loop_up (Z.to_nat n) 0 n 1)
                    (fun j => Ascii.eqb (get_sign g i j) ".") (pair i) acc) as E.
      unfold for_each in E. rewrite E. by rewrite <- app_assoc. }
  apply (G _ []).
Qed.

Lemma in_free_cells n g q : In q (free_cells n g) <-> is_free n g q.
Proof.
  rewrite free_cells_rows, in_flat_map. unfold is_free. split.
  - intros (i & Hi & Hq). apply in_map_iff in Hq as (j & <- & Hj).
    apply filter_In in Hj as [Hj E]. apply Ascii.eqb_eq in E.
    apply in_loop_up1 in Hi, Hj; try lia. simpl. done.
  - intros (H1 & H2 & E). exists q.1. split; [apply in_loop_up1; lia |].
    apply in_map_iff. exists q.2. split; [by destruct q |].
    apply filter_In. split; [apply in_loop_up1; lia | by apply Ascii.eqb_eq].
Qed.

Lemma NoDup_free_cells n g : NoDup (free_cells n g).
Proof.
  rewrite free_cells_rows.
  assert (G : forall rows, NoDup rows ->
    NoDup (flat_map (fun i => map (pair i)
              (List.filter (fun j => Ascii.eqb (get_sign g i j) ".")
                 (loop_up (Z.to_nat n) 0 n 1))) rows)).
  { induction rows as [|i rows IH]; intros Hnd; simpl; [constructor |].
    apply NoDup_cons in Hnd as [Hi Hnd].
    apply NoDup_app. split_and!.
    - apply NoDup_fmap_2; [intros a b E; by injection E |].
      apply NoDup_ListNoDup, List.NoDup_filter, NoDup_ListNoDup, NoDup_loop_up1.
    - intros q Hq Hq'. apply list_elem_of_In in Hq, Hq'.
      apply in_map_iff in Hq as (j & <- & _).
      apply in_flat_map in Hq' as (i' & Hi' & Hq').
      apply in_map_iff in Hq' as (j' & E & _). injection E as -> _.
      apply Hi. by apply list_elem_of_In.
    - by apply IH. }
  apply G, NoDup_loop_up1.
Qed.

Lemma Qltb_lt a b : Qltb a b = true <-> (a < b)%Q.
Proof.
  unfold Qltb. rewrite negb_true_iff. split.
  - intros H. apply Qnot_le_lt. intros L. apply Qle_bool_iff in L. congruence.
  - intros H. destruct (Qle_bool b a) eqn:E; [| done].
    apply Qle_bool_iff in E. exfalso. by apply (Qlt_not_le a b).
Qed.

Lemma Qltb_ge a b : Qltb a b = false <-> (b <= a)%Q.
Proof.
  unfold Qltb. rewrite negb_false_iff. apply Qle_bool_iff.
Qed.

Lemma ratio_nonneg w k : 0 <= w -> 0 < k -> (0 <= inject_Z w / inject_Z k)%Q.
Proof.
  intros Hw Hk. apply Qle_shift_div_l.
  - change 0%Q with (inject_Z 0). rewrite <- Zlt_Qlt. done.
  - rewrite Qmult_0_l. change 0%Q with (inject_Z 0). rewrite <- Zle_Qle. done.
Qed.

Lemma ratio_le w k (b : Q) :
  0 < k -> (inject_Z w <= b * inject_Z k)%Q -> (inject_Z w / inject_Z k <= b)%Q.
Proof.
  intros Hk H. apply Qle_shift_div_r; [| done].
  change 0%Q with (inject_Z 0). rewrite <- Zlt_Qlt. done.
Qed.

Lemma ratio_mono w1 w2 k :
  0 < k -> w1 <= w2 -> (inject_Z w1 / inject_Z k <= inject_Z w2 / inject_Z k)%Q.
Proof.
  intros Hk H. apply Qmult_le_compat_r.
  - by rewrite <- Zle_Qle.
  - apply Qinv_le_0_compat. change 0%Q with (inject_Z 0). rewrite <- Zle_Qle. lia.
Qed.

(** ** Signs under a move *)

Lemma get_sign_place n g x y s a b :
  get_sign (place n g x y s) a b =
  vget "000"%char (vset (sign g) (x * numVertices g + y) s) (a * numVertices g + b).
Proof.
  unfold place, get_sign. rewrite sign_setEdges, numVertices_setEdges. done.
Qed.

(** A stone placed on an empty cell leaves every stone where it is. *)
Lemma get_sign_place_kept n g x y s a b :
  get_sign g x y = "."%char -> get_sign g a b <> "."%char ->
  get_sign (place n g x y s) a b = get_sign g a b.
Proof.
  intros E Hne. rewrite get_sign_place.
  destruct (Z.eq_dec (x * numVertices g + y) (a * numVertices g + b)) as [EE | Nq].
  - exfalso. apply Hne. unfold get_sign in *. by rewrite <- EE.
  - by rewrite vget_vset_ne.
Qed.

Lemma is_free_place n g x y s q :
  2 <= n -> sized n g -> 0 <= x < n -> 0 <= y < n ->
  s = "X"%char \/ s = "O"%char ->
  is_free n (place n g x y s) q <-> is_free n g q /\ q <> (x, y).
Proof.
  intros Hn Sg Hx Hy Hs. destruct q as [a b]. unfold is_free. simpl.
  rewrite get_sign_place. destruct Sg as (Hnv & _ & Hl). rewrite Hnv.
  unfold get_sign. rewrite Hnv.
  destruct (Z.eq_dec (x * (n * n + 4) + y) (a * (n * n + 4) + b)) as [EE | Nq].
  - split.
    + intros (Ha & Hb & E). exfalso.
      pose proof (idx_range (n * n + 4) x y ltac:(nia) ltac:(nia)) as R.
      rewrite <- EE, vget_vset_eq in E by (rewrite Hl; lia).
      destruct Hs as [-> | ->]; discriminate.
    + intros [(Ha & Hb & E) Hne]. exfalso. apply Hne.
      apply idx_inj in EE; [| nia | nia]. destruct EE as [-> ->]. done.
  - rewrite vget_vset_ne by done. split.
    + intros (Ha & Hb & E). split; [done |]. intros EE. injection EE as -> ->.
      by apply Nq.
    + intros [(Ha & Hb & E) _]. done.
Qed.

(** ** What [validMove] and [playerMove] accept *)

Lemma validMove_true n g command :
  validMove n g command = Ret true ->
  exists x y, coordinates command = Ret (x, y) /\ get_sign g x y = "."%char.
Proof.
  unfold validMove.
  destruct (String.eqb command "-1"); [discriminate |].
  destruct (strlen command =? 0); [discriminate |].
  destruct (_ || _ || _); [discriminate |].
  destruct (_ || _ || _ || _); [discriminate |].
  destruct (_ || _ || _ || _); [discriminate |].
  destruct (coordinates command) as [[x y] | f]; simpl; [| discriminate].
  destruct (_ && _); [| discriminate].
  destruct (Ascii.eqb (get_sign g x y) ".") eqn:E; simpl; [| discriminate].
  intros _. exists x, y. split; [done |]. by apply Ascii.eqb_eq.
Qed.

Lemma playerMove_ret n g command p g' valid :
  playerMove n g command p = Ret (g', valid) ->
  g' = g \/ exists x y, get_sign g x y = "."%char /\ g' = place n g x y (sign_of p).
Proof.
  unfold playerMove.
  set (cmd := match command with
              | String c rest => String (toupper c) rest
              | EmptyString => EmptyString
              end).
  destruct (validMove n g cmd) as [[|] | f] eqn:Ev; simpl; [| | discriminate].
  - apply validMove_true in Ev as (x & y & Ec & Es). rewrite Ec. simpl.
    intros H. injection H as <- _. right. exists x, y. done.
  - intros H. injection H as <- _. by left.
Qed.

Section Eval.

Variable room : Z.
Variable shuffle : Z -> list (Z * Z) -> list (Z * Z).

(** [std::shuffle] reorders the vector. *)
Hypothesis Hperm : forall seed l, Permutation l (shuffle seed l).

Lemma in_available tick n g q :
  In q (availablePositions shuffle tick n g) <-> is_free n g q.
Proof using Hperm.
  unfold availablePositions. rewrite <- in_free_cells.
  split; apply Permutation_in; [symmetry |]; apply Hperm.
Qed.

Lemma NoDup_available tick n g : NoDup (availablePositions shuffle tick n g).
Proof using Hperm.
  unfold availablePositions. rewrite <- (Hperm _ _). apply NoDup_free_cells.
Qed.

Lemma available_nil tick n g :
  free_cells n g = [] -> availablePositions shuffle tick n g = [].
Proof using Hperm.
  intros E. unfold availablePositions. rewrite E.
  apply Permutation_nil, Hperm.
Qed.

(** ** What the evaluator returns, when it returns *)

Lemma simulations_ge rounds ticks n g bp p k sg sgH wG it numwins w :
  simulations room shuffle rounds ticks n g bp p k sg sgH wG it numwins = Ret w ->
  numwins <= w.
Proof.
  revert it numwins. induction rounds as [|r IH]; intros it numwins; simpl.
  - intros H. injection H as <-. lia.
  - destruct (Qltb _ _); [| intros H; injection H as <-; lia].
    destruct (playout _ _ _ _ _ _ _ _ _ _) as [w' | f]; simpl; [| discriminate].
    intros H. apply IH in H. destruct (w' =? p); lia.
Qed.

Lemma probMonteCarlo_nonneg ticks n g i bp p k q :
  0 < k -> probMonteCarlo room shuffle ticks n g i bp p k = Ret q -> (0 <= q)%Q.
Proof.
  intros Hk. unfold probMonteCarlo. destruct i as [x y].
  destruct (winnerAI _ _ _ _) as [wG | f]; simpl; [| discriminate].
  destruct (simulations _ _ _ _ _ _ _ _ _ _ _ _ _ _) as [w | f] eqn:E; simpl;
    [| discriminate].
  intros H. injection H as <-. apply simulations_ge in E. by apply ratio_nonneg.
Qed.

Lemma candidates_loop_in ticks n g p k cands ci bm bp r :
  candidates_loop room shuffle ticks n g p k cands ci bm bp = Ret r ->
  In r cands \/ r = bm.
Proof.
  revert ci bm bp. induction cands as [|c cands IH]; intros ci bm bp; simpl.
  - intros H. injection H as <-. by right.
  - destruct (probMonteCarlo _ _ _ _ _ _ _ _ _) as [q | f]; simpl; [| discriminate].
    destruct (Qltb bp q); intros H; apply IH in H; destruct H as [H | ->];
      simpl; auto.
Qed.

(** With a candidate at hand, the cell returned is a candidate: the first
    one beats the initial [-1.0]. *)
Lemma candidates_loop_first ticks n g p k cands r :
  0 < k -> cands <> [] ->
  candidates_loop room shuffle ticks n g p k cands 0%nat (0, 0) (-1)%Q = Ret r ->
  In r cands.
Proof.
  intros Hk Hne. destruct cands as [|c cands]; [done |]. simpl.
  destruct (probMonteCarlo _ _ _ _ _ _ _ _ _) as [q | f] eqn:E; simpl; [| discriminate].
  apply probMonteCarlo_nonneg in E; [| done].
  assert (L : Qltb (-1) q = true).
  { apply Qltb_lt. eapply Qlt_le_trans; [| exact E]. reflexivity. }
  rewrite L. intros H. apply candidates_loop_in in H. destruct H as [H | ->]; auto.
Qed.

Lemma monteCarloSims_free tick0 ticks n g p r :
  free_cells n g <> [] ->
  monteCarloSims room shuffle tick0 ticks n g p = Ret r -> is_free n g r.
Proof using Hperm.
  intros Hne H. unfold monteCarloSims in H.
  apply candidates_loop_first in H; [by apply in_available in H | done |].
  unfold availablePositions. intros E. apply Hne.
  pose proof (Hperm (tick0 mod 2 ^ 32) (free_cells n g)) as P.
  rewrite E in P. by apply Permutation_sym, Permutation_nil in P.
Qed.

(** On a board without an empty cell no candidate is tried. *)
Lemma monteCarloSims_full_board tick0 ticks n g p :
  free_cells n g = [] ->
  monteCarloSims room shuffle tick0 ticks n g p = Ret (0, 0).
Proof using Hperm.
  intros E. unfold monteCarloSims. by rewrite available_nil.
Qed.

(** ** Stones stay *)

Lemma game_step_kept n g g' x y :
  game_step room shuffle n g g' ->
  get_sign g x y <> "."%char -> get_sign g' x y = get_sign g x y.
Proof using Hperm.
  intros S Hne. destruct S as [g command p g' valid H | g tick0 ticks p g' Hf H].
  - apply playerMove_ret in H as [-> | (a & b & E & ->)]; [done |].
    by apply get_sign_place_kept.
  - unfold aiMove in H.
    destruct (monteCarloSims _ _ _ _ _ _ _) as [[a b] | f] eqn:E; simpl in H;
      [| discriminate].
    injection H as <-. apply monteCarloSims_free in E; [| done].
    destruct E as (_ & _ & E). simpl in E. by apply get_sign_place_kept.
Qed.

Lemma game_steps_kept n g g' x y :
  rtc (game_step room shuffle n) g g' ->
  get_sign g x y <> "."%char -> get_sign g' x y = get_sign g x y.
Proof using Hperm.
  induction 1 as [| g g1 g2 S _ IH]; [done |].
  intros Hne. pose proof (game_step_kept n g g1 x y S Hne) as E.
  rewrite <- E. apply IH. by rewrite E.
Qed.

End Eval.

Section Total.

Variable room : Z.
Variable shuffle : Z -> list (Z * Z) -> list (Z * Z).
Variable n : Z.
Hypothesis Hroom : 4 <= room.
Hypothesis Hperm : forall seed l, Permutation l (shuffle seed l).
Hypothesis Hn : 2 <= n.

Lemma full_no_free g : (forall q, ~ is_free n g q) -> full n g.
Proof.
  intros H x y Hx Hy E. apply (H (x, y)). unfold is_free. simpl. done.
Qed.

(** A simulation walks the whole permutation and ends with a winner. *)
Lemma playout_total p sg sgH rest :
  p = 1 \/ p = 2 ->
  sg = "X"%char \/ sg = "O"%char -> sgH = "X"%char \/ sgH = "O"%char ->
  forall currentG total goesNext winner,
    reachable n currentG -> NoDup rest ->
    (forall q, In q rest <-> is_free n currentG q) ->
    total = Z.of_nat (List.length rest) ->
    (winner = 0 -> rest <> []) ->
    exists w, playout room n p sg sgH rest currentG total goesNext winner = Ret w.
Proof using Hroom Hn.
  intros Hp Hsg HsgH.
  induction rest as [|[i j] rest IH];
    intros currentG total goesNext winner Hg Hnd Hin Ht Hw.
  - simpl. destruct (winner =? 0) eqn:E; [| by eexists].
    exfalso. apply Hw; [lia | done].
  - simpl. destruct (winner =? 0) eqn:E; [| by eexists].
    apply NoDup_cons in Hnd as [Hhd Hnd].
    assert (Fij : is_free n currentG (i, j)) by (apply Hin; by left).
    destruct Fij as (Hi & Hj & Eij). simpl in Hi, Hj, Eij.
    set (s := if goesNext =? p then sg else sgH).
    assert (Hs : s = "X"%char \/ s = "O"%char)
      by (unfold s; destruct (goesNext =? p); done).
    assert (EG : (if goesNext =? p then place n currentG i j sg
                  else place n currentG i j sgH) = place n currentG i j s)
      by (unfold s; destruct (goesNext =? p); done).
    rewrite EG. clear EG.
    assert (Hg' : reachable n (place n currentG i j s))
      by (by apply reachable_place).
    assert (Hin' : forall q, In q rest <-> is_free n (place n currentG i j s) q).
    { intros q. rewrite (is_free_place n currentG i j s q Hn
                           (reachable_sized n _ Hn Hg) Hi Hj Hs).
      rewrite <- Hin. simpl. split.
      - intros H. split; [by right |]. intros ->. apply Hhd.
        by apply list_elem_of_In.
      - intros [[H | H] Hne]; [congruence | done]. }
    destruct (total - 1 =? 0) eqn:E0.
    + assert (rest = []) as -> by (destruct rest; [done | simpl in *; lia]).
      destruct (winnerAI_full n (place n currentG i j s) Hn Hg' room p Hroom Hp)
        as (w & -> & Hw12).
      { apply full_no_free. intros q Hq. by apply Hin' in Hq. }
      cbn [bind]. apply IH; try done; [simpl; lia |].
      intros H0. exfalso. lia.
    + cbn [bind]. apply IH; try done; [simpl in Ht; lia |].
      intros _ ->. simpl in Ht. lia.
Qed.

Section Candidate.

(** The board with a candidate placed, as [probMonteCarlo] simulates it. *)
Variables (g : Graph) (p : Z) (sg sgH : ascii) (winnerG : Z).
Hypothesis Hg : reachable n g.
Hypothesis Hp : p = 1 \/ p = 2.
Hypothesis Hsg : sg = "X"%char \/ sg = "O"%char.
Hypothesis HsgH : sgH = "X"%char \/ sgH = "O"%char.
Hypothesis HwG : winnerG = 0 -> free_cells n g <> [].

Lemma round_total tick :
  exists w,
    playout room n p sg sgH (availablePositions shuffle tick n g) g
      (Z.of_nat (List.length (availablePositions shuffle tick n g)))
      (Z.rem (p * 2) 3) winnerG = Ret w.
Proof using Hroom Hperm Hn Hg Hp Hsg HsgH HwG.
  apply playout_total; try done.
  - by apply NoDup_available.
  - intros q. by apply in_available.
  - intros H0 E. apply (HwG H0). unfold availablePositions in E.
    pose proof (Hperm (tick mod 2 ^ 32) (free_cells n g)) as P.
    rewrite E in P. by apply Permutation_sym, Permutation_nil in P.
Qed.

Lemma all_simulations_total rounds ticks it numwins :
  exists w,
    all_simulations room shuffle rounds ticks n g p sg sgH winnerG it numwins = Ret w /\
    numwins <= w <= numwins + Z.of_nat rounds.
Proof using Hroom Hperm Hn Hg Hp Hsg HsgH HwG.
  revert it numwins. induction rounds as [|r IH]; intros it numwins.
  - exists numwins. split; [done | lia].
  - cbn [all_simulations]. destruct (round_total (ticks it)) as (w & ->). cbn [bind].
    destruct (IH (it + 1) (if w =? p then numwins + 1 else numwins)) as (w' & E & B).
    exists w'. split; [done |]. destruct (w =? p); lia.
Qed.

(** The simulations with the cutoff against all the simulations: the same
    number of wins, or a number of wins that cannot beat [bestProb]. *)
Lemma simulations_cutoff rounds ticks bp k it numwins :
  Z.of_nat rounds = k - it ->
  exists wc wf,
    simulations room shuffle rounds ticks n g bp p k sg sgH winnerG it numwins = Ret wc /\
    all_simulations room shuffle rounds ticks n g p sg sgH winnerG it numwins = Ret wf /\
    (wc = wf \/ (wc <= wf /\ (inject_Z wf <= bp * inject_Z k)%Q)).
Proof using Hroom Hperm Hn Hg Hp Hsg HsgH HwG.
  revert it numwins. induction rounds as [|r IH]; intros it numwins Hr.
  - exists numwins, numwins. by split_and!; [| | left].
  - cbn [simulations].
    destruct (Qltb (bp * inject_Z k) (inject_Z (k - it + numwins))) eqn:T.
    + cbn [all_simulations]. destruct (round_total (ticks it)) as (w & ->). cbn [bind].
      apply IH. lia.
    + destruct (all_simulations_total (S r) ticks it numwins) as (wf & E & B).
      exists numwins, wf. split_and!; [done | done |]. right. split; [lia |].
      apply Qltb_ge in T. eapply Qle_trans; [| exact T].
      rewrite <- Zle_Qle. lia.
Qed.

End Candidate.

(** [probMonteCarlo] with and without the cutoff, for a candidate on an
    empty cell of a reached board. *)
Lemma probMonteCarlo_cutoff g i p k ticks bp :
  reachable n g -> is_free n g i -> p = 1 \/ p = 2 -> 0 < k ->
  exists qc qf,
    probMonteCarlo room shuffle ticks n g i bp p k = Ret qc /\
    probMonteCarlo_full room shuffle ticks n g i p k = Ret qf /\
    (qc = qf \/ ((qc <= bp)%Q /\ (qf <= bp)%Q)).
Proof using Hroom Hperm Hn.
  intros Hg Hi Hp Hk. destruct i as [x y]. destruct Hi as (Hx & Hy & Ei).
  simpl in Hx, Hy, Ei.
  unfold probMonteCarlo, probMonteCarlo_full.
  set (sg := if p =? 1 then "X"%char else "O"%char).
  set (sgH := if p =? 1 then "O"%char else "X"%char).
  assert (Hsg : sg = "X"%char \/ sg = "O"%char)
    by (unfold sg; destruct (p =? 1); auto).
  assert (HsgH : sgH = "X"%char \/ sgH = "O"%char)
    by (unfold sgH; destruct (p =? 1); auto).
  assert (Hg1 : reachable n (place n g x y sg)) by (by apply reachable_place).
  destruct (winnerAI_spec n _ Hn Hg1 room p Hroom Hp) as (wG & -> & R & W1 & W2).
  cbn [bind].
  assert (HwG : wG = 0 -> free_cells n (place n g x y sg) <> []).
  { intros H0 E.
    destruct (winnerAI_full n _ Hn Hg1 room p Hroom Hp) as (w' & E' & Hw').
    - apply full_no_free. intros q Hq. apply in_free_cells in Hq. by rewrite E in Hq.
    - destruct (winnerAI_spec n _ Hn Hg1 room p Hroom Hp) as (w2 & E2 & _).
      rewrite E2 in E'. injection E' as <-.
      destruct (some_chain n _ Hn Hg1) as [C | C].
      + apply full_no_free. intros q Hq. apply in_free_cells in Hq. by rewrite E in Hq.
      + apply W1 in C. lia.
      + apply W2 in C. lia. }
  destruct (simulations_cutoff (place n g x y sg) p sg sgH wG Hg1 Hp Hsg HsgH HwG
              (Z.to_nat k) ticks bp k 0 0 ltac:(lia)) as (wc & wf & -> & -> & D).
  cbn [bind]. eexists _, _. split_and!; [done | done |].
  destruct D as [-> | [L B]]; [by left | right].
  assert (Qf : (inject_Z wf / inject_Z k <= bp)%Q) by (by apply ratio_le).
  split; [| done]. eapply Qle_trans; [| exact Qf]. by apply ratio_mono.
Qed.

(** The loop over the candidates, with and without the cutoff. *)
Lemma candidates_loop_cutoff g p k ticks cands ci bm bp :
  reachable n g -> p = 1 \/ p = 2 -> 0 < k ->
  (forall c, In c cands -> is_free n g c) ->
  exists r,
    candidates_loop room shuffle ticks n g p k cands ci bm bp = Ret r /\
    candidates_loop_full room shuffle ticks n g p k cands ci bm bp = Ret r.
Proof using Hroom Hperm Hn.
  intros Hg Hp Hk. revert ci bm bp.
  induction cands as [|c cands IH]; intros ci bm bp Hc.
  - by exists bm.
  - cbn [candidates_loop candidates_loop_full].
    destruct (probMonteCarlo_cutoff g c p k (ticks ci) bp Hg
                (Hc c ltac:(by left)) Hp Hk) as (qc & qf & -> & -> & D).
    cbn [bind].
    assert (Hc' : forall c', In c' cands -> is_free n g c')
      by (intros c' H'; apply Hc; by right).
    destruct D as [-> | [Lc Lf]].
    + destruct (Qltb bp qf); by apply IH.
    + apply Qltb_ge in Lc, Lf. rewrite Lc, Lf. by apply IH.
Qed.

(** On a reached board with an empty cell [monteCarloSims] returns one. *)
Lemma monteCarloSims_total g p tick0 ticks :
  reachable n g -> p = 1 \/ p = 2 -> free_cells n g <> [] ->
  exists r, monteCarloSims room shuffle tick0 ticks n g p = Ret r /\ is_free n g r.
Proof using Hroom Hperm Hn.
  intros Hg Hp Hne.
  destruct (candidates_loop_cutoff g p SIMUL ticks
              (availablePositions shuffle tick0 n g) 0%nat (0, 0) (-1)%Q Hg Hp
              ltac:(done)) as (r & E & _).
  { intros c Hc. by apply in_available in Hc. }
  exists r. split; [exact E |]. by apply (monteCarloSims_free room shuffle Hperm tick0 ticks n g p).
Qed.

End Total.

(** ** The evaluator depends on the clock through the seeds only *)

Lemma available_seed shuffle t1 t2 n g :
  t1 mod 2 ^ 32 = t2 mod 2 ^ 32 ->
  availablePositions shuffle t1 n g = availablePositions shuffle t2 n g.
Proof. intros E. unfold availablePositions. by rewrite E. Qed.

Lemma simulations_seeds room shuffle rounds ticks1 ticks2 n g bp p k sg sgH wG it numwins :
  (forall j, it <= j < it + Z.of_nat rounds ->
             ticks1 j mod 2 ^ 32 = ticks2 j mod 2 ^ 32) ->
  simulations room shuffle rounds ticks1 n g bp p k sg sgH wG it numwins =
  simulations room shuffle rounds ticks2 n g bp p k sg sgH wG it numwins.
Proof.
  revert it numwins. induction rounds as [|r IH]; intros it numwins H; [done |].
  cbn [simulations]. destruct (Qltb _ _); [| done].
  rewrite (available_seed shuffle (ticks1 it) (ticks2 it)) by (apply H; lia).
  destruct (playout _ _ _ _ _ _ _ _ _ _) as [w | f]; [| done]. cbn [bind].
  apply IH. intros j Hj. apply H. lia.
Qed.

Lemma probMonteCarlo_seeds room shuffle ticks1 ticks2 n g i bp p k :
  (forall j, 0 <= j < k -> ticks1 j mod 2 ^ 32 = ticks2 j mod 2 ^ 32) ->
  probMonteCarlo room shuffle ticks1 n g i bp p k =
  probMonteCarlo room shuffle ticks2 n g i bp p k.
Proof.
  intros H. unfold probMonteCarlo. destruct i as [x y].
  destruct (winnerAI _ _ _ _) as [wG | f]; [| done]. cbn [bind].
  rewrite (simulations_seeds room shuffle _ ticks1 ticks2); [done |].
  intros j Hj. apply H. lia.
Qed.

Lemma candidates_loop_seeds room shuffle ticks1 ticks2 n g p k cands ci bm bp :
  (forall c j, (ci <= c < ci + List.length cands)%nat -> 0 <= j < k ->
               ticks1 c j mod 2 ^ 32 = ticks2 c j mod 2 ^ 32) ->
  candidates_loop room shuffle ticks1 n g p k cands ci bm bp =
  candidates_loop room shuffle ticks2 n g p k cands ci bm bp.
Proof.
  revert ci bm bp. induction cands as [|c cands IH]; intros ci bm bp H; [done |].
  cbn [candidates_loop].
  rewrite (probMonteCarlo_seeds room shuffle (ticks1 ci) (ticks2 ci))
    by (intros j Hj; apply H; [simpl; lia | done]).
  destruct (probMonteCarlo _ _ _ _ _ _ _ _ _) as [q | f]; [| done]. cbn [bind].
  destruct (Qltb bp q); apply IH; intros c' j Hc' Hj; apply H; simpl; (lia || done).
Qed.

Lemma monteCarloSims_seeds room shuffle n g p tick0 tick0' ticks ticks' :
  tick0 mod 2 ^ 32 = tick0' mod 2 ^ 32 ->
  (forall ci it,
     (ci < List.length (availablePositions shuffle tick0 n g))%nat ->
     0 <= it < SIMUL ->
     ticks ci it mod 2 ^ 32 = ticks' ci it mod 2 ^ 32) ->
  monteCarloSims room shuffle tick0 ticks n g p =
  monteCarloSims room shuffle tick0' ticks' n g p.
Proof.
  intros E0 E. unfold monteCarloSims.
  rewrite <- (available_seed shuffle tick0 tick0' n g E0).
  apply candidates_loop_seeds. intros c j Hc Hj. apply E; [lia | done].
Qed.

(** ** The evaluator on one clock *)

Lemma turn_shuffle_perm seed l : Permutation l (turn_shuffle seed l).
Proof.
  unfold turn_shuffle. rewrite Permutation_app_comm. by rewrite take_drop.
Qed.

Section OneClock.

Variable room : Z.
Variable shuffle : Z -> list (Z * Z) -> list (Z * Z).
Variable clock : nat -> Z.

(** Without the cutoff a candidate whose first read is read [r0] makes the
    reads [r0 .. r0 + numsim - 1], simulation [it] the read [r0 + it]. *)
Lemma all_simulations_clock rounds r0 n g bp p k sg sgH wG it numwins :
  0 <= it ->
  simulations_clock room shuffle clock false rounds n g bp p k sg sgH wG it
    numwins (r0 + Z.to_nat it) =
  (let* w :=
     all_simulations room shuffle rounds (fun j => clock (r0 + Z.to_nat j)%nat)
       n g p sg sgH wG it numwins in
   Ret (w, (r0 + Z.to_nat it + rounds)%nat)).
Proof.
  revert it numwins. induction rounds as [|rounds IH]; intros it numwins Hit; simpl.
  - by rewrite Nat.add_0_r.
  - destruct (playout _ _ _ _ _ _ _ _ _ _) as [winner | f]; simpl; [| done].
    replace (S (r0 + Z.to_nat it)) with (r0 + Z.to_nat (it + 1))%nat
      by (rewrite Z2Nat.inj_add by lia; simpl; lia).
    rewrite IH by lia.
    replace (r0 + Z.to_nat (it + 1) + rounds)%nat
      with (r0 + Z.to_nat it + S rounds)%nat
      by (rewrite Z2Nat.inj_add by lia; simpl; lia).
    done.
Qed.

Lemma probMonteCarlo_full_clock r0 n g i bp p k :
  probMonteCarlo_clock room shuffle clock false n g i bp p k r0 =
  (let* q :=
     probMonteCarlo_full room shuffle (fun j => clock (r0 + Z.to_nat j)%nat)
       n g i p k in
   Ret (q, (r0 + Z.to_nat k)%nat)).
Proof.
  unfold probMonteCarlo_clock, probMonteCarlo_full. destruct i as [x y].
  destruct (winnerAI _ _ _ _) as [wG | f]; simpl; [| done].
  replace r0 with (r0 + Z.to_nat 0)%nat at 1 by (simpl; lia).
  rewrite all_simulations_clock by lia.
  destruct (all_simulations _ _ _ _ _ _ _ _ _ _ _ _) as [w | f]; simpl; [| done].
  by rewrite Nat.add_0_r.
Qed.

(** The run of every simulation on one clock is [candidates_loop_full]
    with the counts read in order: simulation [it] of candidate [ci] makes
    read [r0 + ci * numsim + it]. *)
Lemma candidates_loop_full_clock r0 n g p k cands ci bm bp :
  candidates_loop_clock room shuffle clock false n g p k cands bm bp
    (r0 + ci * Z.to_nat k) =
  candidates_loop_full room shuffle
    (fun c j => clock (r0 + c * Z.to_nat k + Z.to_nat j)%nat)
    n g p k cands ci bm bp.
Proof.
  revert ci bm bp. induction cands as [|i rest IH]; intros ci bm bp; simpl; [done |].
  rewrite probMonteCarlo_full_clock.
  destruct (probMonteCarlo_full _ _ _ _ _ _ _ _) as [q | f]; simpl; [| done].
  replace (r0 + ci * Z.to_nat k + Z.to_nat k)%nat
    with (r0 + S ci * Z.to_nat k)%nat by lia.
  by rewrite !IH.
Qed.

(** With the cutoff a candidate whose first read is read [r0] runs the
    loop of [probMonteCarlo] on the counts from read [r0] on, and leaves
    the reads it does not make to the candidate after it. *)
Lemma simulations_on_clock rounds r0 n g bp p k sg sgH wG it numwins w reads :
  0 <= it ->
  simulations_clock room shuffle clock true rounds n g bp p k sg sgH wG it
    numwins (r0 + Z.to_nat it) = Ret (w, reads) ->
  simulations room shuffle rounds (fun j => clock (r0 + Z.to_nat j)%nat)
    n g bp p k sg sgH wG it numwins = Ret w /\
  (r0 + Z.to_nat it <= reads <= r0 + Z.to_nat it + rounds)%nat.
Proof.
  revert it numwins. induction rounds as [|rounds IH]; intros it numwins Hit; simpl.
  - intros H. injection H as <- <-. split; [done | lia].
  - destruct (Qltb _ _).
    + destruct (playout _ _ _ _ _ _ _ _ _ _) as [winner | f]; simpl; [| done].
      replace (S (r0 + Z.to_nat it)) with (r0 + Z.to_nat (it + 1))%nat
        by (rewrite Z2Nat.inj_add by lia; simpl; lia).
      intros H. apply IH in H as [E B]; [| lia]. split; [done |].
      rewrite Z2Nat.inj_add in B by lia. simpl in B. lia.
    + intros H. injection H as <- <-. split; [done | lia].
Qed.

Lemma probMonteCarlo_on_clock r0 n g i bp p k q reads :
  probMonteCarlo_clock room shuffle clock true n g i bp p k r0 = Ret (q, reads) ->
  probMonteCarlo room shuffle (fun j => clock (r0 + Z.to_nat j)%nat)
    n g i bp p k = Ret q /\
  (r0 <= reads <= r0 + Z.to_nat k)%nat.
Proof.
  unfold probMonteCarlo_clock, probMonteCarlo. destruct i as [x y].
  destruct (winnerAI _ _ _ _) as [wG | f]; simpl; [| done].
  replace r0 with (r0 + Z.to_nat 0)%nat at 1 by (simpl; lia).
  destruct (simulations_clock _ _ _ _ _ _ _ _ _ _ _ _ _ _ _ _) as [[w r] | f] eqn:E;
    simpl; [| done].
  apply simulations_on_clock in E as [E B]; [| lia]. rewrite E. simpl.
  intros H. injection H as <- <-. split; [done |]. simpl in B. lia.
Qed.

End OneClock.

(** No seed is passed to [monteCarloSims]: the cell it returns is decided
    by the counts the clock returns while the call runs.  Two calls on the
    fresh board of side 2 for player 1, whose first reads of the clock
    return the same count, return different cells. *)
Lemma monteCarloSims_reads_the_clock :
  staged_clock 0 = 0 /\
  monteCarloSims_clock 4 turn_shuffle staged_clock true 2 fresh2 1 = Ret (1, 0) /\
  monteCarloSims_clock 4 turn_shuffle (fun _ => 0) true 2 fresh2 1 = Ret (0, 0).
Proof. split; [reflexivity |]. split; vm_compute; reflexivity. Qed.

(** ** The size [Game::start] reads *)

Lemma read_sizeofBoard_spec typed a n k :
  read_sizeofBoard typed a = Some (n, k) <->
  exists refused rest,
    typed = map Number refused ++ Number n :: rest /\
    Forall (fun v => INT_MIN <= v <= INT_MAX /\ (v < 2 \/ 11 < v)) refused /\
    k = (a + List.length refused)%nat /\
    2 <= n <= 11.
Proof.
  revert a. induction typed as [|e typed IH]; intros a; simpl.
  - split; [discriminate |]. intros (refused & rest & E & _).
    by destruct refused.
  - destruct e as [v |].
    + destruct ((v <? INT_MIN) || (INT_MAX <? v)) eqn:T1.
      * split; [discriminate |]. intros (refused & rest & E & F & _ & Hn).
        apply orb_true_iff in T1. unfold INT_MIN, INT_MAX in *.
        destruct refused as [|u refused]; simpl in E; injection E as -> _.
        -- lia.
        -- apply Forall_inv in F. lia.
      * apply orb_false_iff in T1 as [T1 T1'].
        destruct ((v <? 2) || (11 <? v)) eqn:T2.
        -- rewrite IH. apply orb_true_iff in T2. split.
           ++ intros (refused & rest & -> & F & -> & Hn).
              exists (v :: refused), rest. simpl.
              split; [done |]. split; [| split; [lia | done]].
              constructor; [lia | done].
           ++ intros (refused & rest & E & F & -> & Hn).
              destruct refused as [|u refused]; simpl in E; injection E as -> E.
              ** lia.
              ** exists refused, rest. apply Forall_inv_tail in F.
                 simpl. split; [done |]. split; [done |]. split; [lia | done].
        -- apply orb_false_iff in T2 as [T2 T2']. split.
           ++ intros H. injection H as -> ->. exists [], typed. simpl.
              split; [done |]. split; [constructor |]. split; lia.
           ++ intros (refused & rest & E & F & -> & Hn).
              destruct refused as [|u refused]; simpl in E; injection E as -> E.
              ** f_equal. f_equal. simpl. lia.
              ** apply Forall_inv in F. lia.
    + split; [discriminate |]. intros (refused & rest & E & _).
      by destruct refused.
Qed.

(** No board is made when a read fails before an entry within 2..11: on
    text that is no number, on a number that does not fit an [int], at the
    end of the input. *)
Lemma start_board_none :
  start_board [NotANumber; Number 2] = None /\
  start_board [Number 99999999999; Number 2] = None /\
  start_board [Number 12; Number 0] = None /\
  start_board [] = None.
Proof. repeat split. Qed.

(** * The properties of the specification, one by one *)

Lemma no_shuffle_perm seed l : Permutation l (no_shuffle seed l).
Proof. apply Permutation_refl. Qed.

(** C1: in [isReachable] the block behind [visited] has [V g] cells while
    the loops use the indices 0 .. [V g + 3]: on the fresh board of side 2
    (V = 4), asked for player 1 (nodes 6 and 7), the clearing loop leaves
    the block at index 4. *)
Theorem C1_visited_overrun :
  V fresh2 = 4 /\
  isReachable 0 2 fresh2 6 7 "X" = Fault (OutOfBounds 4).
Proof. split; reflexivity. Qed.

(** C2: on every board reached by legal moves and for each player, the
    search of [isReachable] from the start node of the player to its end
    node returns, and returns [true] exactly when a winning chain exists;
    on the fresh board it returns [false].  ([room >= 4]: the four cells
    behind the block of [visited] can be used.) *)
Theorem C2_winning_chain_search room n g p :
  2 <= n <= 11 -> 4 <= room -> reachable n g -> p = 1 \/ p = 2 ->
  (exists b, has_winning_chain room n g p = Ret b /\
             (b = true <-> winning_chain n g p)) /\
  has_winning_chain room n (Graph_new n (n * n + 4)) p = Ret false.
Proof.
  intros Hn Hr Hg Hp. split.
  - apply has_winning_chain_spec; (lia || done).
  - destruct (has_winning_chain_spec room n (Graph_new n (n * n + 4)) p
                ltac:(lia) Hr (reachable_new n) Hp) as (b & E & B).
    rewrite E. f_equal. destruct b; [| done].
    exfalso. apply (no_chain_Graph_new n p); [lia | done | by apply B].
Qed.

Lemma C2_witness :
  (exists b, has_winning_chain 4 2 fresh2 1 = Ret b /\
             (b = true <-> winning_chain 2 fresh2 1)) /\
  has_winning_chain 4 2 (Graph_new 2 (2 * 2 + 4)) 1 = Ret false.
Proof.
  apply (C2_winning_chain_search 4 2 fresh2 1); [lia | lia | | by left].
  apply (reachable_new 2).
Defined.

(** C3, as stated, fails: a move changes adjacency.  On the fresh board of
    side 2 the cells 0 and 1 are not adjacent; after the legal move of 'X'
    to (0,0) they are. *)
Lemma C3_counterexample :
  reachable 2 (place 2 fresh2 0 0 "X") /\
  adjacent fresh2 0 1 = false /\
  adjacent (place 2 fresh2 0 0 "X") 0 1 = true.
Proof.
  split; [| split; reflexivity].
  apply (reachable_place 2 (Graph_new 2 (2 * 2 + 4)));
    [apply reachable_new | lia | lia | reflexivity | by left].
Qed.

(** C3, amended: on every board reached by legal moves adjacency is
    symmetric, and a legal move at cell (x,y) keeps every edge and adds
    exactly the edges between (x,y) and its neighbours on the board. *)
Theorem C3_adjacency_symmetric_and_grows n g u v x y s :
  2 <= n <= 11 -> reachable n g ->
  0 <= u < n * n + 4 -> 0 <= v < n * n + 4 ->
  0 <= x < n -> 0 <= y < n -> get_sign g x y = "."%char ->
  s = "X"%char \/ s = "O"%char ->
  adjacent g u v = adjacent g v u /\
  (adjacent (place n g x y s) u v = true <->
   adjacent g u v = true \/
   (u = cell n x y /\ nbr_node n x y v) \/ (v = cell n x y /\ nbr_node n x y u)).
Proof.
  intros Hn Hg Hu Hv Hx Hy He Hs. split.
  - apply (adjacent_sym_reachable n); (lia || done).
  - apply adjacent_place; try done. apply reachable_sized; (lia || done).
Qed.

Lemma C3_witness :
  adjacent fresh2 0 1 = adjacent fresh2 1 0 /\
  (adjacent (place 2 fresh2 0 0 "X") 0 1 = true <->
   adjacent fresh2 0 1 = true \/
   (0 = cell 2 0 0 /\ nbr_node 2 0 0 1) \/ (1 = cell 2 0 0 /\ nbr_node 2 0 0 0)).
Proof.
  apply (C3_adjacency_symmetric_and_grows 2 fresh2 0 1 0 0 "X");
    [lia | apply (reachable_new 2) | lia | lia | lia | lia | reflexivity | by left].
Defined.

(** C10: on every board reached by legal moves [winnerAI] returns the same
    winner whichever player it is asked to check first. *)
Theorem C10_winner_independent_of_side room n g :
  2 <= n <= 11 -> 4 <= room -> reachable n g ->
  exists w, winnerAI room n g 1 = Ret w /\ winnerAI room n g 2 = Ret w.
Proof.
  intros Hn Hr Hg.
  destruct (winnerAI_spec n g ltac:(lia) Hg room 1 Hr ltac:(by left))
    as (w1 & E1 & R1 & A1 & B1).
  destruct (winnerAI_spec n g ltac:(lia) Hg room 2 Hr ltac:(by right))
    as (w2 & E2 & R2 & A2 & B2).
  exists w1. split; [done |]. rewrite E2. f_equal.
  assert (w2 = 1 <-> w1 = 1) by tauto. assert (w2 = 2 <-> w1 = 2) by tauto. lia.
Qed.

Lemma C10_witness :
  exists w, winnerAI 4 2 full2 1 = Ret w /\ winnerAI 4 2 full2 2 = Ret w.
Proof.
  apply (C10_winner_independent_of_side 4 2 full2); [lia | lia |].
  unfold full2, fresh2.
  repeat (apply (reachable_place 2);
          [ | lia | lia | reflexivity | (by left) || (by right)]).
  apply (reachable_new 2).
Defined.

(** C4: on every board reached by legal moves that has an empty cell,
    [monteCarloSims] returns, and the cell it returns is an empty cell of
    the board. *)
Theorem C4_monteCarloSims_returns_empty_cell room shuffle n g p tick0 ticks :
  (forall seed l, Permutation l (shuffle seed l)) ->
  2 <= n <= 11 -> 4 <= room -> reachable n g -> p = 1 \/ p = 2 ->
  free_cells n g <> [] ->
  exists x y, monteCarloSims room shuffle tick0 ticks n g p = Ret (x, y) /\
              0 <= x < n /\ 0 <= y < n /\ get_sign g x y = "."%char.
Proof.
  intros Hperm Hn Hr Hg Hp Hf.
  destruct (monteCarloSims_total room shuffle n Hr Hperm ltac:(lia) g p tick0 ticks
              Hg Hp Hf) as ([x y] & E & F).
  exists x, y. split; [exact E | exact F].
Qed.

Lemma C4_witness :
  exists x y, monteCarloSims 4 no_shuffle 0 (fun _ _ => 0) 2 fresh2 1 = Ret (x, y) /\
              0 <= x < 2 /\ 0 <= y < 2 /\ get_sign fresh2 x y = "."%char.
Proof.
  apply (C4_monteCarloSims_returns_empty_cell 4 no_shuffle 2 fresh2 1 0 (fun _ _ => 0));
    [apply no_shuffle_perm | lia | lia | apply (reachable_new 2) | by left |].
  vm_compute. discriminate.
Defined.




(** C7, as stated, fails: the constructor checks nothing.  For a side of
    12 it builds a board of 144 empty cells with its four virtual nodes. *)
Lemma C7_counterexample :
  numVertices (Graph_new 12 148) = 148 /\
  V (Graph_new 12 148) = 144 /\
  List.length (free_cells 12 (Graph_new 12 148)) = 144%nat /\
  get_startNode (Graph_new 12 148) 1 = 146 /\
  get_endNode (Graph_new 12 148) 1 = 147.
Proof. vm_compute. repeat split. Qed.

(** C7, amended: [Game::start] constructs the board with the first entry
    that is within 2..11: every entry before it is a number outside 2..11,
    the program has asked again once for each of them, and the board has
    the side of that entry.  In no other case is a board constructed.  The
    constructor itself has no check. *)
Theorem C7_start_checks_size typed n asked g :
  start_board typed = Some (n, asked, g) <->
  exists refused rest,
    typed = map Number refused ++ Number n :: rest /\
    Forall (fun v => INT_MIN <= v <= INT_MAX /\ (v < 2 \/ 11 < v)) refused /\
    asked = List.length refused /\
    2 <= n <= 11 /\
    g = Graph_new n (n * n + 4).
Proof.
  unfold start_board. split.
  - destruct (read_sizeofBoard typed 0) as [[m a] |] eqn:E; [| discriminate].
    intros H. injection H as -> -> <-.
    apply read_sizeofBoard_spec in E as (refused & rest & -> & F & -> & Hn).
    exists refused, rest. done.
  - intros (refused & rest & -> & F & -> & Hn & ->).
    assert (read_sizeofBoard (map Number refused ++ Number n :: rest) 0
            = Some (n, (0 + List.length refused)%nat)) as ->; [| done].
    apply read_sizeofBoard_spec. exists refused, rest. done.
Qed.

Lemma C7_witness :
  start_board [Number 12; Number 1; Number 2; NotANumber] = Some (2, 2%nat, fresh2).
Proof.
  apply (C7_start_checks_size [Number 12; Number 1; Number 2; NotANumber] 2 2%nat
           fresh2).
  exists [12; 1], [NotANumber].
  split; [reflexivity |]. split; [| done].
  repeat constructor; unfold INT_MIN, INT_MAX; lia.
Defined.

(** C8, as stated, fails: [monteCarloSims] has no rejection.  On the board
    of side 2 with a stone on every cell the list of candidates is empty
    (whatever the shuffle) and the call returns the cell (0,0), which holds
    a stone. *)
Lemma C8_counterexample :
  free_cells 2 full2 = [] /\
  monteCarloSims 4 no_shuffle 0 (fun _ _ => 0) 2 full2 1 = Ret (0, 0) /\
  get_sign full2 0 0 = "X"%char.
Proof. vm_compute. repeat split. Qed.

(** C8, amended: on every board without an empty cell [monteCarloSims]
    tries no candidate and returns the value-initialised pair (0,0). *)
Theorem C8_full_board_returns_origin room shuffle n g p tick0 ticks :
  (forall seed l, Permutation l (shuffle seed l)) ->
  free_cells n g = [] ->
  monteCarloSims room shuffle tick0 ticks n g p = Ret (0, 0).
Proof. intros Hperm E. by apply monteCarloSims_full_board. Qed.

Lemma C8_witness :
  monteCarloSims 4 no_shuffle 0 (fun _ _ => 0) 2 full2 1 = Ret (0, 0).
Proof.
  apply (C8_full_board_returns_origin 4 no_shuffle 2 full2 1 0 (fun _ _ => 0));
    [apply no_shuffle_perm | reflexivity].
Defined.

(** C9: along every sequence of moves made through [playerMove] and
    through [aiMove] (called on boards that have an empty cell), a cell of
    the board that holds a stone keeps that stone. *)
Theorem C9_occupancy_monotone room shuffle n g g' x y :
  (forall seed l, Permutation l (shuffle seed l)) ->
  rtc (game_step room shuffle n) g g' ->
  0 <= x < n -> 0 <= y < n ->
  get_sign g x y <> "."%char ->
  get_sign g' x y = get_sign g x y.
Proof.
  intros Hperm S _ _ Hne. by apply (game_steps_kept room shuffle Hperm n g g').
Qed.

Lemma C9_witness :
  get_sign (place 2 (place 2 fresh2 0 0 "X") 0 1 "O") 0 0 =
  get_sign (place 2 fresh2 0 0 "X") 0 0.
Proof.
  apply (C9_occupancy_monotone 4 no_shuffle 2 (place 2 fresh2 0 0 "X")
           (place 2 (place 2 fresh2 0 0 "X") 0 1 "O") 0 0);
    [apply no_shuffle_perm | | lia | lia | vm_compute; discriminate].
  apply rtc_once.
  apply (step_player 4 no_shuffle 2 (place 2 fresh2 0 0 "X") "b1" 2 _ true).
  reflexivity.
Defined.

(** * More of the program *)

(** ** The constructor, the search and the winner *)

Lemma rtc_iff {A} (R R' : A -> A -> Prop) a b :
  (forall u v, R u v <-> R' u v) -> rtc R a b <-> rtc R' a b.
Proof.
  intros H. split; intros P; induction P as [|u v w S _ IH];
    try apply rtc_refl; apply (rtc_l _ u v); [by apply H | exact IH | by apply H | exact IH].
Qed.

(** X1: the constructor, called as [Game::start] calls it, gives a board of
    [n * n] cells that are all empty, with north (n*n+2) and south (n*n+3)
    as start and end node of player 1 and marked 'X', west (n*n) and east
    (n*n+1) as start and end node of player 2 and marked 'O', and whose
    edges are exactly the edges between a virtual node and the cells of
    its side of the board. *)
Theorem X1_fresh_board n :
  2 <= n ->
  V (Graph_new n (n * n + 4)) = n * n /\
  (forall x y, 0 <= x < n -> 0 <= y < n ->
     get_sign (Graph_new n (n * n + 4)) x y = "."%char) /\
  (get_startNode (Graph_new n (n * n + 4)) 1 = n * n + 2 /\
   get_endNode (Graph_new n (n * n + 4)) 1 = n * n + 3 /\
   get_startNode (Graph_new n (n * n + 4)) 2 = n * n /\
   get_endNode (Graph_new n (n * n + 4)) 2 = n * n + 1) /\
  (node_sign n (Graph_new n (n * n + 4)) (n * n + 2) = "X"%char /\
   node_sign n (Graph_new n (n * n + 4)) (n * n + 3) = "X"%char /\
   node_sign n (Graph_new n (n * n + 4)) (n * n) = "O"%char /\
   node_sign n (Graph_new n (n * n + 4)) (n * n + 1) = "O"%char) /\
  (forall u v, 0 <= u < n * n + 4 -> 0 <= v < n * n + 4 ->
     (adjacent (Graph_new n (n * n + 4)) u v = true <->
      border_edge n u v \/ border_edge n v u)).
Proof.
  intros Hn.
  pose proof (reachable_ends n _ 1 Hn (reachable_new n) (or_introl eq_refl)) as (HV & S1 & E1 & _).
  pose proof (reachable_ends n _ 2 Hn (reachable_new n) (or_intror eq_refl)) as (_ & S2 & E2 & _).
  cbn [Z.eqb Pos.eqb] in S1, E1, S2, E2.
  pose proof (reachable_signs n _ Hn (reachable_new n)) as (N1 & N2 & N3 & N4 & _).
  pose proof (shaped_Graph_new n Hn) as [[Hnv _] _].
  split_and!; try done.
  - intros x y Hx Hy.
    rewrite (get_sign_cell n) by first [done | lia].
    rewrite node_sign_Graph_new by first [done | unfold cell; nia].
    unfold cell.
    assert (R : 0 <= x * n + y < n * n) by nia.
    by rewrite !(proj2 (Z.eqb_neq (x * n + y) _)) by lia.
  - intros u v Hu Hv. by apply adjacent_Graph_new.
Qed.

Lemma X1_witness :
  V (Graph_new 2 (2 * 2 + 4)) = 2 * 2 /\
  (forall x y, 0 <= x < 2 -> 0 <= y < 2 ->
     get_sign (Graph_new 2 (2 * 2 + 4)) x y = "."%char) /\
  (get_startNode (Graph_new 2 (2 * 2 + 4)) 1 = 2 * 2 + 2 /\
   get_endNode (Graph_new 2 (2 * 2 + 4)) 1 = 2 * 2 + 3 /\
   get_startNode (Graph_new 2 (2 * 2 + 4)) 2 = 2 * 2 /\
   get_endNode (Graph_new 2 (2 * 2 + 4)) 2 = 2 * 2 + 1) /\
  (node_sign 2 (Graph_new 2 (2 * 2 + 4)) (2 * 2 + 2) = "X"%char /\
   node_sign 2 (Graph_new 2 (2 * 2 + 4)) (2 * 2 + 3) = "X"%char /\
   node_sign 2 (Graph_new 2 (2 * 2 + 4)) (2 * 2) = "O"%char /\
   node_sign 2 (Graph_new 2 (2 * 2 + 4)) (2 * 2 + 1) = "O"%char) /\
  (forall u v, 0 <= u < 2 * 2 + 4 -> 0 <= v < 2 * 2 + 4 ->
     (adjacent (Graph_new 2 (2 * 2 + 4)) u v = true <->
      border_edge 2 u v \/ border_edge 2 v u)).
Proof. apply (X1_fresh_board 2). lia. Defined.

(** X2: [isReachable] is a correct search on every graph, not only between
    the nodes of a player.  For a graph laid out as the class lays it out,
    with the four cells behind the block of [visited] usable, for every
    start node [s] of the graph, every [d] and every sign it returns, and
    it returns [true] exactly when [d] is [s] or is reached from [s] along
    edges of the matrix whose two ends both carry the sign. *)
Theorem X2_isReachable_paths room n g s d sg :
  4 <= room -> 1 <= n -> well_formed g -> 0 <= s < V g + 4 ->
  exists b, isReachable room n g s d sg = Ret b /\
    (b = true <->
     rtc (fun u v => 0 <= v < V g + 4 /\ adjacent g u v = true /\
                     node_sign n g v = sg /\ node_sign n g u = sg) s d).
Proof.
  intros Hr Hn (Hnv & _ & _) Hs.
  assert (HV : 0 <= V g) by (unfold V; lia).
  destruct (isReachable_spec room n g s d sg Hr HV Hs) as (b & E1 & Hb).
  exists b. split; [exact E1 |].
  rewrite Hb. apply rtc_iff. intros u v. unfold follows. by rewrite linked_iff.
Qed.

Lemma X2_witness :
  exists b, isReachable 4 2 (place 2 fresh2 0 0 "X") 0 6 "X" = Ret b /\
    (b = true <->
     rtc (fun u v => 0 <= v < V (place 2 fresh2 0 0 "X") + 4 /\
                     adjacent (place 2 fresh2 0 0 "X") u v = true /\
                     node_sign 2 (place 2 fresh2 0 0 "X") v = "X"%char /\
                     node_sign 2 (place 2 fresh2 0 0 "X") u = "X"%char) 0 6).
Proof.
  apply (X2_isReachable_paths 4 2 (place 2 fresh2 0 0 "X") 0 6 "X");
    [lia | lia | split_and!; by vm_compute | by vm_compute].
Defined.

(** X3: [isReachable] needs four cells behind the block it allocates: when
    fewer than four are usable, every call with [s <> d] leaves the storage
    in the loop that clears [visited], at the first index that is not
    there; a call with [s = d] returns [true] before the block is
    allocated. *)
Theorem X3_isReachable_storage room n g s d sg :
  0 <= V g -> 0 <= room < 4 ->
  (s = d -> isReachable room n g s d sg = Ret true) /\
  (s <> d -> isReachable room n g s d sg = Fault (OutOfBounds (V g + room))).
Proof.
  intros HV Hr. unfold isReachable. split; intros Hsd.
  - by rewrite (proj2 (Z.eqb_eq s d) Hsd).
  - rewrite (proj2 (Z.eqb_neq s d) Hsd).
    rewrite (clear_visited_overrun _ 0 (V g + 4)); rewrite ?length_replicate; try lia.
    cbn [bind]. do 2 f_equal. lia.
Qed.

Lemma X3_witness :
  (6 = 7 -> isReachable 2 2 fresh2 6 7 "X" = Ret true) /\
  (6 <> 7 -> isReachable 2 2 fresh2 6 7 "X" = Fault (OutOfBounds (V fresh2 + 2))).
Proof. apply (X3_isReachable_storage 2 2 fresh2 6 7 "X"); [by vm_compute | lia]. Defined.

(** X4: on every board reached by legal moves [winnerAI] returns 0, 1 or 2;
    it returns 1 exactly when player 1 has a winning chain and 2 exactly
    when player 2 has one, so 0 when neither has. *)
Theorem X4_winnerAI_names_the_chain room n g p :
  2 <= n -> 4 <= room -> reachable n g -> p = 1 \/ p = 2 ->
  exists w, winnerAI room n g p = Ret w /\
    (w = 0 \/ w = 1 \/ w = 2) /\
    (w = 1 <-> winning_chain n g 1) /\ (w = 2 <-> winning_chain n g 2).
Proof. intros Hn Hr Hg Hp. by apply winnerAI_spec. Qed.

Lemma X4_witness :
  exists w, winnerAI 4 2 full2 2 = Ret w /\
    (w = 0 \/ w = 1 \/ w = 2) /\
    (w = 1 <-> winning_chain 2 full2 1) /\ (w = 2 <-> winning_chain 2 full2 2).
Proof.
  apply (X4_winnerAI_names_the_chain 4 2 full2 2); [lia | lia | | by right].
  unfold full2.
  repeat (apply reachable_place; [| lia | lia | by vm_compute | first [by left | by right]]).
  apply (reachable_new 2).
Defined.

(** X5: there is no draw: on a reached board without an empty cell
    [winnerAI] returns 1 or 2, never 0. *)
Theorem X5_full_board_has_winner room n g p :
  2 <= n -> 4 <= room -> reachable n g -> p = 1 \/ p = 2 ->
  (forall x y, 0 <= x < n -> 0 <= y < n -> get_sign g x y <> "."%char) ->
  exists w, winnerAI room n g p = Ret w /\ (w = 1 \/ w = 2).
Proof. intros Hn Hr Hg Hp F. by apply winnerAI_full. Qed.

Lemma X5_witness :
  exists w, winnerAI 4 2 full2 1 = Ret w /\ (w = 1 \/ w = 2).
Proof.
  apply (X5_full_board_has_winner 4 2 full2 1); [lia | lia | | by left |].
  - unfold full2.
    repeat (apply reachable_place; [| lia | lia | by vm_compute | first [by left | by right]]).
    apply (reachable_new 2).
  - intros x y Hx Hy.
    assert (Cx : x = 0 \/ x = 1) by lia. assert (Cy : y = 0 \/ y = 1) by lia.
    destruct Cx as [-> | ->], Cy as [-> | ->]; by vm_compute.
Defined.

(** ** Winning chains and stones *)

Lemma length_loop_up1 fuel a stop :
  (Z.to_nat (stop - a) <= fuel)%nat ->
  List.length (loop_up fuel a stop 1) = Z.to_nat (stop - a).
Proof.
  revert a. induction fuel as [|k IH]; intros a Hf; simpl.
  - lia.
  - destruct (Z.ltb_spec a stop); simpl; [rewrite IH |]; lia.
Qed.

Lemma in_cells n q : In q (cells n) <-> 0 <= q.1 < n /\ 0 <= q.2 < n.
Proof.
  unfold cells. rewrite in_flat_map. split.
  - intros (i & Hi & Hq). apply in_map_iff in Hq as (j & <- & Hj).
    apply in_loop_up1 in Hi; [| lia]. apply in_loop_up1 in Hj; [| lia]. simpl. lia.
  - intros [H1 H2]. exists q.1. split; [apply in_loop_up1; lia |].
    apply in_map_iff. exists q.2. split; [by destruct q |]. apply in_loop_up1; lia.
Qed.

Lemma NoDup_cells n : NoDup (cells n).
Proof.
  unfold cells.
  assert (G : forall rows cols : list Z, NoDup rows -> NoDup cols ->
            NoDup (flat_map (fun i => map (pair i) cols) rows)).
  { intros rows cols Hr Hc. induction Hr as [|i rows Hi Hr IH]; simpl; [constructor |].
    apply NoDup_app. split_and!.
    - apply NoDup_fmap_2; [| exact Hc]. intros a b EE. by injection EE.
    - intros q Hq Hq'. apply list_elem_of_In in Hq, Hq'.
      apply in_map_iff in Hq as (j & <- & _).
      apply in_flat_map in Hq' as (i' & Hi' & Hq'). apply in_map_iff in Hq' as (j' & EE & _).
      injection EE as -> ->. apply Hi. by apply list_elem_of_In.
    - exact IH. }
  apply G; apply NoDup_loop_up1.
Qed.

(** Every row of the list has an element that passes the test: the
    filtered list is at least as long as the list of rows. *)
Lemma filter_rows (test : Z * Z -> bool) (rows cols : list Z) :
  (forall i, In i rows -> exists j, In j cols /\ test (i, j) = true) ->
  (List.length rows <=
   List.length (List.filter test (flat_map (fun i => map (pair i) cols) rows)))%nat.
Proof.
  induction rows as [|i rows IH]; intros H; simpl; [lia |].
  rewrite List.filter_app, length_app.
  destruct (H i (or_introl eq_refl)) as (j & Hj & Tj).
  assert (In (i, j) (List.filter test (map (pair i) cols))) as Hin.
  { apply List.filter_In. split; [| exact Tj]. apply in_map_iff. by exists j. }
  destruct (List.filter test (map (pair i) cols)) as [|q l]; [destruct Hin |].
  simpl. specialize (IH (fun i' Hi' => H i' (or_intror Hi'))). lia.
Qed.

Lemma filter_cols (test : Z * Z -> bool) (rows cols : list Z) :
  NoDup cols ->
  (forall j, In j cols -> exists i, In i rows /\ test (i, j) = true) ->
  (List.length cols <=
   List.length (List.filter test (flat_map (fun i => map (pair i) cols) rows)))%nat.
Proof.
  intros Hc H.
  set (l := List.filter test (flat_map (fun i => map (pair i) cols) rows)).
  assert (S : forall j, In j cols -> In j (map snd l)).
  { intros j Hj. destruct (H j Hj) as (i & Hi & Ti).
    apply in_map_iff. exists (i, j). split; [done |].
    apply List.filter_In. split; [| exact Ti].
    apply in_flat_map. exists i. split; [done |]. apply in_map_iff. by exists j. }
  rewrite <- (length_map snd l).
  apply NoDup_incl_length; [by apply NoDup_ListNoDup | exact S].
Qed.

Section Cross.

Variables (n : Z) (g : Graph).
Hypothesis Hn : 2 <= n.
Hypothesis Hg : reachable n g.

Lemma line_range p c : 0 <= c < n * n -> 0 <= line n p c < n.
Proof.
  intros Hc. destruct (node_coords n c ltac:(lia) Hc) as (_ & R1 & R2).
  unfold line. by destruct (p =? 1).
Qed.

Lemma line_step p u w :
  0 <= u < n * n -> 0 <= w < n * n -> adjacent g u w = true ->
  line n p w <= line n p u + 1.
Proof.
  intros Hu Hw A.
  destruct (node_coords n u ltac:(lia) Hu) as (Eu & U1 & U2).
  destruct (node_coords n w ltac:(lia) Hw) as (Ew & W1 & W2).
  rewrite Eu, Ew in A.
  apply (cell_edge_nb n g Hn Hg) in A; try done.
  destruct A as (A1 & A2 & _). simpl in A1, A2.
  unfold line. destruct (p =? 1); lia.
Qed.

Lemma chain_cross p cells0 u :
  p = 1 \/ p = 2 -> 0 <= u < n * n ->
  (forall c, In c cells0 -> 0 <= c < n * n) ->
  chain g u cells0 (get_endNode g p) ->
  forall r, line n p u <= r <= n - 1 ->
  exists c, In c (u :: cells0) /\ line n p c = r.
Proof.
  intros Hp. revert u. induction cells0 as [|w rest IH]; intros u Hu Hc Ch r Hr.
  - simpl in Ch. apply (border_cell n g Hn Hg p u Hp Hu) in Ch.
    exists u. split; [by left |]. unfold line in *. destruct (p =? 1); lia.
  - destruct Ch as [A Ch].
    assert (Hw : 0 <= w < n * n) by (apply Hc; by left).
    destruct (Z.eq_dec r (line n p u)) as [-> | Hne].
    + exists u. split; [by left | done].
    + pose proof (line_step p u w Hu Hw A) as St.
      destruct (IH w Hw (fun c Hin => Hc c (or_intror Hin)) Ch r ltac:(lia)) as (c & Hin & Ec).
      exists c. split; [by right | done].
Qed.

(** A winning chain has a cell on every line between the two sides. *)
Lemma winning_chain_lines p :
  p = 1 \/ p = 2 -> winning_chain n g p ->
  forall r, 0 <= r < n ->
  exists c, 0 <= c < n * n /\ node_sign n g c = sign_of p /\ line n p c = r.
Proof.
  intros Hp (cells0 & Hc & Ch) r Hr.
  pose proof (reachable_ends n g p Hn Hg Hp) as (HV & S1 & E1 & _).
  destruct cells0 as [|u rest].
  - simpl in Ch. exfalso. apply (no_virtual_edge n g Hn Hg _ _) in Ch; [done | |];
      rewrite ?S1, ?E1; destruct Hp as [-> | ->]; simpl; lia.
  - destruct Ch as [A Ch].
    assert (Hu : 0 <= u < n * n) by (apply Hc; by left).
    apply (border_cell n g Hn Hg p u Hp Hu) in A.
    assert (L0 : line n p u = 0) by (unfold line; by destruct (p =? 1)).
    destruct (chain_cross p rest u Hp Hu (fun c Hin => proj1 (Hc c (or_intror Hin))) Ch r
                ltac:(lia)) as (c & Hin & Ec).
    exists c. destruct (Hc c Hin) as [Rc Sc]. done.
Qed.

Lemma winning_chain_stones p :
  p = 1 \/ p = 2 -> winning_chain n g p -> n <= stones n g (sign_of p).
Proof.
  intros Hp W. pose proof (winning_chain_lines p Hp W) as L.
  pose proof (reachable_sized n g Hn Hg) as [Hnv _].
  assert (Len : List.length (loop_up (Z.to_nat n) 0 n 1) = Z.to_nat n).
  { rewrite length_loop_up1; [f_equal |]; lia. }
  assert (G : forall c, 0 <= c < n * n -> node_sign n g c = sign_of p ->
            Ascii.eqb (get_sign g (c / n) (c mod n)) (sign_of p) = true).
  { intros c Rc Sc. destruct (node_coords n c ltac:(lia) Rc) as (Ec & R1 & R2).
    rewrite (get_sign_cell n) by first [done | lia]. rewrite <- Ec.
    by apply Ascii.eqb_eq. }
  unfold stones, cells.
  destruct Hp as [-> | ->].
  - enough (List.length (loop_up (Z.to_nat n) 0 n 1) <=
            List.length (List.filter (fun q => Ascii.eqb (get_sign g q.1 q.2) (sign_of 1))
              (flat_map (fun i => map (pair i) (loop_up (Z.to_nat n) 0 n 1))
                 (loop_up (Z.to_nat n) 0 n 1))))%nat by lia.
    apply filter_rows. intros i Hi. apply in_loop_up1 in Hi; [| lia].
    destruct (L i ltac:(lia)) as (c & Rc & Sc & Lc). unfold line in Lc. simpl in Lc.
    exists (c mod n). destruct (node_coords n c ltac:(lia) Rc) as (_ & R1 & R2).
    split; [apply in_loop_up1; lia |]. simpl. rewrite <- Lc. by apply G.
  - enough (List.length (loop_up (Z.to_nat n) 0 n 1) <=
            List.length (List.filter (fun q => Ascii.eqb (get_sign g q.1 q.2) (sign_of 2))
              (flat_map (fun i => map (pair i) (loop_up (Z.to_nat n) 0 n 1))
                 (loop_up (Z.to_nat n) 0 n 1))))%nat by lia.
    apply filter_cols; [apply NoDup_loop_up1 |]. intros j Hj. apply in_loop_up1 in Hj; [| lia].
    destruct (L j ltac:(lia)) as (c & Rc & Sc & Lc). unfold line in Lc. simpl in Lc.
    exists (c / n). destruct (node_coords n c ltac:(lia) Rc) as (_ & R1 & R2).
    split; [apply in_loop_up1; lia |]. simpl. rewrite <- Lc. by apply G.
Qed.

End Cross.

(** ** A stone more on the board *)

Lemma filter_flip_pairs (p q : Z * Z -> bool) l j :
  NoDup l -> In j l -> p j = true -> q j = false ->
  (forall k, In k l -> k <> j -> q k = p k) ->
  (List.length (List.filter q l) + 1 = List.length (List.filter p l))%nat.
Proof.
  intros Hnd Hj Hp Hq Hpq. induction l as [|a l IH]; [destruct Hj |].
  apply NoDup_cons in Hnd as [Ha Hnd]. simpl.
  destruct (decide (a = j)) as [-> | Hne].
  - rewrite Hp, Hq. simpl.
    assert (E : List.filter q l = List.filter p l).
    { apply List.filter_ext_in. intros k Hk. apply Hpq; [by right |]. intros ->.
      apply Ha. by apply list_elem_of_In. }
    rewrite E. lia.
  - rewrite (Hpq a (or_introl eq_refl) Hne). destruct Hj as [Hj | Hj]; [done |].
    specialize (IH Hnd Hj (fun k Hk => Hpq k (or_intror Hk))).
    destruct (p a); simpl; lia.
Qed.

Lemma get_sign_place_at n g x y s a b :
  2 <= n -> sized n g -> 0 <= x < n -> 0 <= y < n -> 0 <= a < n -> 0 <= b < n ->
  get_sign (place n g x y s) a b =
  if (a =? x) && (b =? y) then s else get_sign g a b.
Proof.
  intros Hn (Hnv & _ & Hl) Hx Hy Ha Hb. rewrite get_sign_place. unfold get_sign.
  rewrite Hnv.
  destruct (Z.eqb_spec a x) as [-> | Na]; [destruct (Z.eqb_spec b y) as [-> | Nb] |]; simpl.
  - apply vget_vset_eq. rewrite Hl, Z2Nat.id by nia.
    pose proof (idx_range (n * n + 4) x y ltac:(nia) ltac:(nia)). lia.
  - apply vget_vset_ne. lia.
  - apply vget_vset_ne. intros EE.
    apply idx_inj in EE; [| nia | nia]. lia.
Qed.

(** A stone on an empty cell is one stone more of its sign and leaves the
    number of stones of the other sign. *)
Lemma stones_place n g x y s s' :
  2 <= n -> sized n g -> 0 <= x < n -> 0 <= y < n ->
  get_sign g x y = "."%char -> s' <> "."%char ->
  stones n (place n g x y s) s' =
  if Ascii.eqb s s' then stones n g s' + 1 else stones n g s'.
Proof.
  intros Hn Sg Hx Hy Fr Hs'. unfold stones.
  assert (K : forall q, In q (cells n) -> q <> (x, y) ->
            Ascii.eqb (get_sign (place n g x y s) q.1 q.2) s' =
            Ascii.eqb (get_sign g q.1 q.2) s').
  { intros [a b] Hq Nq. apply in_cells in Hq as [Ha Hb]. simpl in *.
    rewrite get_sign_place_at by done.
    destruct (Z.eqb_spec a x) as [-> | Na]; [destruct (Z.eqb_spec b y) as [-> | Nb] |];
      simpl; done. }
  assert (At : get_sign (place n g x y s) x y = s).
  { rewrite get_sign_place_at by done. by rewrite !Z.eqb_refl. }
  assert (Hin : In (x, y) (cells n)) by (apply in_cells; simpl; lia).
  destruct (Ascii.eqb_spec s s') as [<- | Ne].
  - rewrite <- (filter_flip_pairs
                  (fun q => Ascii.eqb (get_sign (place n g x y s) q.1 q.2) s)
                  (fun q => Ascii.eqb (get_sign g q.1 q.2) s) (cells n) (x, y)).
    + lia.
    + apply NoDup_cells.
    + exact Hin.
    + simpl. rewrite At. apply Ascii.eqb_refl.
    + simpl. rewrite Fr. apply Ascii.eqb_neq. congruence.
    + intros k Hk Nk. symmetry. by apply K.
  - do 2 f_equal. apply List.filter_ext_in. intros q Hq.
    destruct (decide (q = (x, y))) as [-> | Nq].
    + simpl. rewrite At, Fr.
      rewrite (proj2 (Ascii.eqb_neq _ _) Ne). symmetry. apply Ascii.eqb_neq. congruence.
    + by apply K.
Qed.

Lemma chain_transfer (P : Z -> Prop) g g' u cells0 v :
  P u -> (forall c, In c cells0 -> P c) -> P v ->
  (forall a b, P a -> P b -> adjacent g a b = true -> adjacent g' a b = true) ->
  chain g u cells0 v -> chain g' u cells0 v.
Proof.
  intros Pu Pc Pv T. revert u Pu. induction cells0 as [|w rest IH]; intros u Pu Ch; simpl in *.
  - by apply T.
  - destruct Ch as [A Ch]. split.
    + apply T; [done | apply Pc; by left | done].
    + apply IH; [intros c Hc; apply Pc; by right | apply Pc; by left | done].
Qed.

Section Stone.

Variables (n : Z) (g : Graph) (x y : Z) (s : ascii).
Hypothesis Hn : 2 <= n.
Hypothesis Hg : reachable n g.
Hypothesis Hx : 0 <= x < n.
Hypothesis Hy : 0 <= y < n.
Hypothesis Hfree : get_sign g x y = "."%char.
Hypothesis Hs : s = "X"%char \/ s = "O"%char.

Lemma reachable_stone : reachable n (place n g x y s).
Proof. by apply reachable_place. Qed.

Lemma ends_place p :
  get_startNode (place n g x y s) p = get_startNode g p /\
  get_endNode (place n g x y s) p = get_endNode g p.
Proof.
  unfold get_startNode, get_endNode, place.
  destruct (ends_setEdges n x y (set_sign g x y s)) as [-> ->]. done.
Qed.

Lemma sign_of_stone p : p = 1 \/ p = 2 -> sign_of p <> "."%char.
Proof. intros [-> | ->]; done. Qed.

Lemma free_node : node_sign n g (cell n x y) = "."%char.
Proof.
  pose proof (reachable_sized n g Hn Hg) as [Hnv _].
  rewrite <- (get_sign_cell n) by first [done | lia]. done.
Qed.

(** The chains of the board are chains of the board with the stone. *)
Lemma winning_chain_place p :
  p = 1 \/ p = 2 -> winning_chain n g p -> winning_chain n (place n g x y s) p.
Proof.
  intros Hp (cells0 & Hc & Ch).
  pose proof (reachable_sized n g Hn Hg) as Sg.
  pose proof (reachable_ends n g p Hn Hg Hp) as (HV & S1 & E1 & _).
  destruct (ends_place p) as [ES EE].
  exists cells0. split.
  - intros c Hin. destruct (Hc c Hin) as [Rc Sc]. split; [done |].
    rewrite node_sign_place by first [done | lia].
    destruct (Z.eqb_spec c (cell n x y)) as [-> | _]; [| done].
    rewrite free_node in Sc. exfalso. by apply (sign_of_stone p).
  - rewrite ES, EE.
    apply (chain_transfer (fun u => 0 <= u < n * n + 4) g); try done.
    + rewrite S1. destruct Hp as [-> | ->]; simpl; lia.
    + intros c Hin. destruct (Hc c Hin) as [Rc _]. lia.
    + rewrite E1. destruct Hp as [-> | ->]; simpl; lia.
    + intros a b Ha Hb A. apply adjacent_place; try done. by left.
Qed.

(** A stone does not make a chain for the other side. *)
Lemma winning_chain_other p :
  p = 1 \/ p = 2 -> s <> sign_of p ->
  winning_chain n (place n g x y s) p -> winning_chain n g p.
Proof.
  intros Hp Ns (cells0 & Hc & Ch).
  pose proof (reachable_sized n g Hn Hg) as Sg.
  pose proof (reachable_ends n g p Hn Hg Hp) as (HV & S1 & E1 & _).
  destruct (ends_place p) as [ES EE]. rewrite ES, EE in Ch.
  pose proof (cell_range n x y Hx Hy) as Rxy.
  assert (Hc' : forall c, In c cells0 ->
            0 <= c < n * n /\ node_sign n g c = sign_of p /\ c <> cell n x y).
  { intros c Hin. destruct (Hc c Hin) as [Rc Sc]. split; [done |].
    rewrite node_sign_place in Sc by first [done | lia].
    destruct (Z.eqb_spec c (cell n x y)) as [-> | Nc]; [by symmetry in Sc | done]. }
  exists cells0. split.
  - intros c Hin. destruct (Hc' c Hin) as (Rc & Sc & _). done.
  - apply (chain_transfer (fun u => 0 <= u < n * n + 4 /\ u <> cell n x y)
             (place n g x y s)); try done.
    + rewrite S1. destruct Hp as [-> | ->]; simpl; lia.
    + intros c Hin. destruct (Hc' c Hin) as (Rc & _ & Nc). split; [lia | done].
    + rewrite E1. destruct Hp as [-> | ->]; simpl; lia.
    + intros a b [Ha Na] [Hb Nb] A. apply adjacent_place in A; try done.
      destruct A as [A | [[A _] | [A _]]]; done.
Qed.

End Stone.

(** X6: a win is final.  When [winnerAI] names a winner on a board reached
    by legal moves, it names the same winner after any further legal move,
    whichever player it is asked for. *)
Theorem X6_winner_is_final room n g x y s p p' w :
  2 <= n -> 4 <= room -> reachable n g ->
  0 <= x < n -> 0 <= y < n -> get_sign g x y = "."%char ->
  s = "X"%char \/ s = "O"%char -> p = 1 \/ p = 2 -> p' = 1 \/ p' = 2 ->
  winnerAI room n g p = Ret w -> w <> 0 ->
  winnerAI room n (place n g x y s) p' = Ret w.
Proof.
  intros Hn Hr Hg Hx Hy Fr Hs Hp Hp' Ew Nw.
  destruct (winnerAI_spec n g Hn Hg room p Hr Hp) as (w0 & E0 & R0 & W1 & W2).
  rewrite Ew in E0. injection E0 as <-.
  pose proof (reachable_stone n g x y s Hg Hx Hy Fr Hs) as Hg'.
  destruct (winnerAI_spec n _ Hn Hg' room p' Hr Hp') as (w' & E' & R' & W1' & W2').
  rewrite E'. f_equal.
  assert (C : winning_chain n (place n g x y s) w).
  { destruct R0 as [-> | [-> | ->]]; [done | |];
      apply winning_chain_place; try done; [by left | by apply W1 | by right | by apply W2]. }
  destruct R0 as [-> | [-> | ->]]; [done | by apply W1' | by apply W2'].
Qed.

Lemma X6_witness :
  winnerAI 4 2
    (place 2 (place 2 (place 2 (place 2 fresh2 0 0 "X") 0 1 "O") 1 0 "X") 1 1 "O") 2
  = Ret 1.
Proof.
  apply (X6_winner_is_final 4 2 (place 2 (place 2 (place 2 fresh2 0 0 "X") 0 1 "O") 1 0 "X")
           1 1 "O" 1 2 1);
    [lia | lia | | lia | lia | by vm_compute | by right | by left | by right
     | by vm_compute | lia].
  repeat (apply reachable_place; [| lia | lia | by vm_compute | first [by left | by right]]).
  apply (reachable_new 2).
Defined.

(** X7: a winning chain of player 1 has a stone 'X' in every row of the
    board and one of player 2 a stone 'O' in every column, so a player with
    a winning chain has at least [n] stones on the board. *)
Theorem X7_chain_takes_n_stones n g p :
  2 <= n -> reachable n g -> p = 1 \/ p = 2 -> winning_chain n g p ->
  (forall r, 0 <= r < n ->
     exists k, 0 <= k < n /\
       (if p =? 1 then get_sign g r k else get_sign g k r) = sign_of p) /\
  n <= stones n g (sign_of p).
Proof.
  intros Hn Hg Hp W. split; [| by apply winning_chain_stones].
  intros r Hr.
  destruct (winning_chain_lines n g Hn Hg p Hp W r Hr) as (c & Rc & Sc & Lc).
  destruct (node_coords n c ltac:(lia) Rc) as (Ec & R1 & R2).
  pose proof (reachable_sized n g Hn Hg) as [Hnv _].
  assert (G : get_sign g (c / n) (c mod n) = sign_of p).
  { rewrite (get_sign_cell n) by first [done | lia]. by rewrite <- Ec. }
  unfold line in Lc. destruct (p =? 1); subst r.
  - by exists (c mod n).
  - by exists (c / n).
Qed.

Lemma X7_witness :
  (forall r, 0 <= r < 2 ->
     exists k, 0 <= k < 2 /\
       (if 1 =? 1 then get_sign full2 r k else get_sign full2 k r) = sign_of 1) /\
  2 <= stones 2 full2 (sign_of 1).
Proof.
  apply (X7_chain_takes_n_stones 2 full2 1); [lia | | by left |].
  - unfold full2.
    repeat (apply reachable_place; [| lia | lia | by vm_compute | first [by left | by right]]).
    apply (reachable_new 2).
  - exists [0; 2]. split.
    + intros c [<- | [<- | []]]; by vm_compute.
    + by vm_compute.
Defined.

(** ** The entries of the user *)

Lemma validMove_text n g command :
  String.eqb command "-1" = false -> refused n command = false ->
  validMove n g command =
  let* (x, y) := coordinates command in
  if (0 <=? x * numVertices g + y) &&
     (x * numVertices g + y <? Z.of_nat (List.length (sign g)))
  then (if negb (Ascii.eqb (get_sign g x y) ".") then Ret false else Ret true)
  else Fault (OutOfBounds (x * numVertices g + y)).
Proof.
  intros E R. unfold validMove, refused in *. rewrite E.
  apply orb_false_iff in R as [R R3]. apply orb_false_iff in R as [R1 R2].
  cbv zeta. rewrite R1, R2, R3.
  apply orb_false_iff in R2 as [R2 _]. apply orb_false_iff in R2 as [R2 _].
  apply orb_false_iff in R2 as [R2 _]. apply Z.ltb_ge in R2.
  destruct (Z.eqb_spec (strlen command) 0); [lia | done].
Qed.

Lemma validMove_accepted n g command :
  validMove n g command = Ret true ->
  String.eqb command "-1" = false /\ refused n command = false /\
  exists x y, coordinates command = Ret (x, y) /\
    0 <= x * numVertices g + y < Z.of_nat (List.length (sign g)) /\
    get_sign g x y = "."%char.
Proof.
  intros H. unfold validMove, refused in *. cbv zeta in *.
  destruct (String.eqb command "-1"); [done |].
  destruct (strlen command =? 0); [done |].
  destruct (_ || _ || _) eqn:R1 in H; [done |].
  destruct (_ || _ || _ || _) eqn:R2 in H; [done |].
  destruct (_ || _ || _ || _) eqn:R3 in H; [done |].
  rewrite R1, R2, R3. split_and!; try done.
  destruct (coordinates command) as [[x y] | f]; [| done]. cbn [bind] in H.
  exists x, y. split; [done |].
  destruct (_ && _) eqn:B in H; [| done].
  apply andb_true_iff in B as [B1 B2].
  split; [lia |].
  destruct (Ascii.eqb_spec (get_sign g x y) "."); [done | done].
Qed.

Lemma isdigit_code c : isdigit c = true <-> 48 <= code c <= 57.
Proof. unfold isdigit. rewrite andb_true_iff, !Z.leb_le. done. Qed.

Lemma strlen_String a s : strlen (String a s) = 1 + strlen s.
Proof. unfold strlen. simpl String.length. lia. Qed.

Lemma strlen_nonneg s : 0 <= strlen s.
Proof. unfold strlen. lia. Qed.

(** What an entry that passes the three tests looks like. *)
Lemma refused_facts n command :
  refused n command = false ->
  (strlen command <= 2 \/ 10 <= n) /\
  code (char_at command 1) <= 48 + n /\
  65 <= code (char_at command 0) <= 64 + n /\
  2 <= strlen command <= 3 /\
  isdigit (char_at command 1) = true /\
  (strlen command = 3 ->
     isdigit (char_at command 2) = true /\
     code (char_at command 1) <= 49 /\ code (char_at command 2) <= 49 /\
     (n = 10 -> code (char_at command 2) <= 48)).
Proof.
  unfold refused. cbv zeta.
  rewrite !orb_false_iff, !andb_false_iff, !orb_false_iff, !negb_false_iff,
    !Z.ltb_ge, !Z.eqb_neq.
  intros [[[[R1 R2] R3] [[R4 R5] R6]] [[[R7 R8] R9] R10]].
  split_and!; try lia; try done.
  intros L3. split_and!.
  - destruct R8 as [R8 | R8]; [lia | done].
  - destruct R9 as [R9 | R9]; lia.
  - destruct R9 as [R9 | R9]; lia.
  - intros ->. destruct R10 as [[R10 | R10] | R10]; lia.
Qed.

(** An entry that passes the tests names a column of the board and a row
    of the board or the row 0, which the board does not have. *)
Lemma refused_range n command x y :
  2 <= n <= 11 -> refused n command = false ->
  coordinates command = Ret (x, y) ->
  -1 <= x < n /\ 0 <= y < n.
Proof.
  intros Hn R C. apply refused_facts in R as (F1 & F2 & F3 & F4 & F5 & F6).
  destruct command as [|a [|b rest]];
    rewrite ?strlen_String in *; try (unfold strlen in F4; simpl in F4; lia).
  cbn [char_at String.get] in *.
  apply isdigit_code in F5 as D1.
  destruct rest as [|c rest].
  - unfold coordinates, stoi in C. cbn [String.substring char_at String.get] in C.
    rewrite F5 in C. cbn [bind stoi_digits] in C. rewrite F5 in C.
    injection C as <- <-. lia.
  - rewrite ?strlen_String in *. pose proof (strlen_nonneg rest) as L.
    cbn [char_at String.get] in *.
    destruct F6 as (D2 & F7 & F8 & F9); [lia |].
    apply isdigit_code in D2 as D2'.
    unfold coordinates, stoi in C. cbn [String.substring char_at String.get] in C.
    rewrite F5 in C. cbn [bind stoi_digits] in C. rewrite F5, D2 in C.
    destruct rest as [|d rest]; [| rewrite strlen_String in *; pose proof (strlen_nonneg rest); lia].
    cbn [String.substring stoi_digits] in C.
    injection C as <- <-.
    destruct F1 as [F1 | F1]; [lia |].
    assert (Cn : n = 10 \/ n = 11) by lia.
    destruct Cn as [-> | ->]; [specialize (F9 eq_refl) |]; lia.
Qed.

Lemma toupper_idem c : toupper (toupper c) = toupper c.
Proof. destruct c as [[] [] [] [] [] [] [] []]; reflexivity. Qed.

Lemma toupper_capital c : code c <= 96 -> toupper c = c.
Proof.
  intros H. unfold toupper. destruct (Z.leb_spec 97 (code c)); [lia | done].
Qed.

Lemma reads_back_all :
  forallb (fun n =>
    forallb (fun x => forallb (fun y => reads_back n x y) (loop_up (Z.to_nat n) 0 n 1))
      (loop_up (Z.to_nat n) 0 n 1))
    (loop_up 10 2 12 1) = true.
Proof. vm_compute. reflexivity. Qed.

Lemma reads_back_ok n x y :
  2 <= n <= 11 -> 0 <= x < n -> 0 <= y < n -> reads_back n x y = true.
Proof.
  intros Hn Hx Hy. pose proof reads_back_all as A.
  rewrite forallb_forall in A. specialize (A n ltac:(apply in_loop_up1; lia)).
  rewrite forallb_forall in A. specialize (A x ltac:(apply in_loop_up1; lia)).
  rewrite forallb_forall in A. apply A. apply in_loop_up1; lia.
Qed.

Lemma sized_slot n g x y :
  2 <= n -> sized n g -> 0 <= x < n -> 0 <= y < n ->
  0 <= x * numVertices g + y < Z.of_nat (List.length (sign g)).
Proof.
  intros Hn (Hnv & _ & Hl) Hx Hy. rewrite Hnv, Hl, Z2Nat.id by nia.
  pose proof (idx_range (n * n + 4) x y ltac:(nia) ltac:(nia)). lia.
Qed.

Lemma accepted_cell n g command :
  2 <= n <= 11 -> numVertices g = n * n + 4 ->
  validMove n g command = Ret true ->
  exists x y, coordinates command = Ret (x, y) /\
    0 <= x < n /\ 0 <= y < n /\ get_sign g x y = "."%char.
Proof.
  intros Hn Hnv H.
  apply validMove_accepted in H as (_ & R & x & y & C & B & Fr).
  destruct (refused_range n command x y Hn R C) as [Rx Ry].
  exists x, y. split_and!; try done; try lia. rewrite Hnv in B. nia.
Qed.

(** X8: an entry that [validMove] accepts names an empty cell of the
    board: on a board of side [n] in 2..11, whatever the text of the entry,
    the coordinates read from it are a row and a column in [0, n) and the
    cell there is empty. *)
Theorem X8_accepted_entry_names_empty_cell n g command :
  2 <= n <= 11 -> numVertices g = n * n + 4 ->
  validMove n g command = Ret true ->
  exists x y, coordinates command = Ret (x, y) /\
    0 <= x < n /\ 0 <= y < n /\ get_sign g x y = "."%char.
Proof. apply accepted_cell. Qed.

Lemma X8_witness :
  exists x y, coordinates "B2" = Ret (x, y) /\
    0 <= x < 2 /\ 0 <= y < 2 /\ get_sign fresh2 x y = "."%char.
Proof.
  apply (X8_accepted_entry_names_empty_cell 2 fresh2 "B2"); [lia | reflexivity | reflexivity].
Defined.

(** X9: the row number 0 passes the tests of [validMove]: an entry made of
    a column letter of the board and the digit 0 is read as row -1, and
    [get_sign] is asked for a slot before the start of [sign]; [playerMove]
    has no test of its own. *)
Theorem X9_row_zero_is_read_before_sign n g c p :
  2 <= n <= 11 -> numVertices g = n * n + 4 -> 65 <= code c <= 64 + n ->
  coordinates (String c "0") = Ret (-1, code c - 65) /\
  validMove n g (String c "0") = Fault (OutOfBounds (code c - 65 - (n * n + 4))) /\
  playerMove n g (String c "0") p = Fault (OutOfBounds (code c - 65 - (n * n + 4))).
Proof.
  intros Hn Hnv Hc.
  assert (C : coordinates (String c "0") = Ret (-1, code c - 65)) by reflexivity.
  assert (Vm : validMove n g (String c "0") =
               Fault (OutOfBounds (code c - 65 - (n * n + 4)))).
  { rewrite validMove_text.
    - rewrite C. cbn [bind]. rewrite Hnv.
      destruct (Z.leb_spec 0 (-1 * (n * n + 4) + (code c - 65))); [nia |].
      cbn [andb]. do 2 f_equal. lia.
    - apply String.eqb_neq. intros [= _ ?].
    - unfold refused. cbn [char_at String.get]. rewrite !strlen_String.
      change (strlen "") with 0. change (code "0") with 48. change (code "000") with 0.
      change (isdigit "0") with true.
      rewrite (proj2 (Z.ltb_ge (48 + n) 48)) by lia.
      rewrite (proj2 (Z.ltb_ge (65 + n - 1) (code c))) by lia.
      rewrite (proj2 (Z.ltb_ge (code c) 65)) by lia.
      rewrite (proj2 (Z.ltb_ge 75 (code c))) by lia.
      change (1 + (1 + 0)) with 2. by destruct (n =? 10). }
  split_and!; try done.
  unfold playerMove. rewrite toupper_capital by lia. by rewrite Vm.
Qed.

Lemma X9_witness :
  coordinates (String "A" "0") = Ret (-1, code "A" - 65) /\
  validMove 2 fresh2 (String "A" "0") = Fault (OutOfBounds (code "A" - 65 - (2 * 2 + 4))) /\
  playerMove 2 fresh2 (String "A" "0") 1 = Fault (OutOfBounds (code "A" - 65 - (2 * 2 + 4))).
Proof.
  apply (X9_row_zero_is_read_before_sign 2 fresh2 "A" 1); [lia | reflexivity | by vm_compute].
Defined.

Lemma printed_move n g x y p :
  2 <= n <= 11 -> sized n g -> 0 <= x < n -> 0 <= y < n ->
  get_sign g x y = "."%char ->
  coordinates (move_text x y) = Ret (x, y) /\
  validMove n g (move_text x y) = Ret true /\
  playerMove n g (move_text x y) p = Ret (place n g x y (sign_of p), true).
Proof.
  intros Hn Sg Hx Hy Fr.
  pose proof (reads_back_ok n x y Hn Hx Hy) as R. unfold reads_back in R.
  apply andb_true_iff in R as [R R4]. apply andb_true_iff in R as [R R3].
  apply andb_true_iff in R as [R1 R2].
  apply negb_true_iff in R1, R2.
  assert (C : coordinates (move_text x y) = Ret (x, y)).
  { destruct (coordinates (move_text x y)) as [[a b] | f]; [| done].
    apply andb_true_iff in R3 as [Ea Eb]. apply Z.eqb_eq in Ea, Eb. by subst. }
  assert (Vm : validMove n g (move_text x y) = Ret true).
  { rewrite validMove_text by done. rewrite C. cbn [bind].
    pose proof (sized_slot n g x y ltac:(lia) Sg Hx Hy) as B.
    destruct (Z.leb_spec 0 (x * numVertices g + y)); [| lia].
    destruct (Z.ltb_spec (x * numVertices g + y) (Z.of_nat (List.length (sign g)))); [| lia].
    cbn [andb]. by rewrite Fr. }
  split_and!; try done.
  unfold playerMove. destruct (move_text x y) as [|c rest] eqn:M; [done |].
  apply Ascii.eqb_eq in R4. rewrite R4, Vm. cbn [bind]. rewrite C. cbn [bind]. done.
Qed.

(** X10: the text [aiMove] prints for a cell, column letter then row
    number, is an entry of that cell: [coordinates] reads the cell back
    from it, and on a board of side [n] in 2..11 where the cell is empty
    [playerMove] accepts it and places the stone of the player there.  So
    every empty cell of the board can be entered. *)
Theorem X10_printed_move_reads_back n g x y p :
  2 <= n <= 11 -> sized n g -> 0 <= x < n -> 0 <= y < n ->
  get_sign g x y = "."%char ->
  coordinates (move_text x y) = Ret (x, y) /\
  validMove n g (move_text x y) = Ret true /\
  playerMove n g (move_text x y) p = Ret (place n g x y (sign_of p), true).
Proof. apply printed_move. Qed.

Lemma X10_witness :
  coordinates (move_text 1 0) = Ret (1, 0) /\
  validMove 2 fresh2 (move_text 1 0) = Ret true /\
  playerMove 2 fresh2 (move_text 1 0) 2 = Ret (place 2 fresh2 1 0 (sign_of 2), true).
Proof.
  apply (X10_printed_move_reads_back 2 fresh2 1 0 2); [lia | | lia | lia | by vm_compute].
  split_and!; by vm_compute.
Defined.

Lemma playerMove_legal n g command p g' v :
  2 <= n <= 11 -> reachable n g ->
  playerMove n g command p = Ret (g', v) ->
  reachable n g' /\
  ((v = false /\ g' = g) \/
   (v = true /\ exists x y, 0 <= x < n /\ 0 <= y < n /\
      get_sign g x y = "."%char /\ g' = place n g x y (sign_of p))).
Proof.
  intros Hn Hg H. unfold playerMove in H.
  set (cmd := match command with
              | String c rest => String (toupper c) rest
              | EmptyString => EmptyString
              end) in *.
  destruct (validMove n g cmd) as [[|] | f] eqn:Vm; cbn [bind] in H; [| | done].
  - pose proof (reachable_sized n g ltac:(lia) Hg) as [Hnv _].
    destruct (accepted_cell n g cmd Hn Hnv Vm) as (x & y & C & Hx & Hy & Fr).
    rewrite C in H. cbn [bind] in H. injection H as <- <-.
    assert (Sg : sign_of p = "X"%char \/ sign_of p = "O"%char).
    { unfold sign_of. destruct (p =? 1); [by left | by right]. }
    split.
    + apply reachable_place; done.
    + right. split; [done |]. by exists x, y.
  - injection H as <- <-. split; [done |]. by left.
Qed.

(** X11: what a call of [playerMove] does to a board reached by legal
    moves, on a board of side [n] in 2..11 and for every text of the entry:
    when it returns [false] the board is as it was, and when it returns
    [true] the board has the stone of the player on one cell of the board
    that was empty, with the edges [setEdges] gives it; either way the
    board is again a board reached by legal moves. *)
Theorem X11_playerMove_makes_a_legal_move n g command p g' v :
  2 <= n <= 11 -> reachable n g ->
  playerMove n g command p = Ret (g', v) ->
  reachable n g' /\
  ((v = false /\ g' = g) \/
   (v = true /\ exists x y, 0 <= x < n /\ 0 <= y < n /\
      get_sign g x y = "."%char /\ g' = place n g x y (sign_of p))).
Proof. apply playerMove_legal. Qed.

Lemma X11_witness :
  reachable 2 (place 2 fresh2 0 1 "O") /\
  ((true = false /\ place 2 fresh2 0 1 "O" = fresh2) \/
   (true = true /\ exists x y, 0 <= x < 2 /\ 0 <= y < 2 /\
      get_sign fresh2 x y = "."%char /\
      place 2 fresh2 0 1 "O" = place 2 fresh2 x y (sign_of 2))).
Proof.
  apply (X11_playerMove_makes_a_legal_move 2 fresh2 "b1" 2);
    [lia | apply (reachable_new 2) | reflexivity].
Defined.

Lemma toupper_letter y :
  0 <= y < 11 ->
  toupper (ascii_of_N (Z.to_N (y + 97))) = ascii_of_N (Z.to_N ((y + 65) mod 256)).
Proof.
  intros Hy.
  assert (C : y = 0 \/ y = 1 \/ y = 2 \/ y = 3 \/ y = 4 \/ y = 5 \/ y = 6 \/ y = 7 \/
              y = 8 \/ y = 9 \/ y = 10) by lia.
  repeat (destruct C as [-> | C]; [reflexivity |]). by subst.
Qed.

(** X12: the column letter may be typed in lower case.  [playerMove]
    reads the first character of the entry in upper case, so an entry and
    the same entry with its first character made upper case have the same
    outcome on every board; and on a board of side [n] in 2..11 the
    entry made of the lower-case letter of a column and the number of a
    row, for an empty cell, is accepted and places the stone there. *)
Theorem X12_column_letter_in_lower_case n g x y p :
  2 <= n <= 11 -> sized n g -> 0 <= x < n -> 0 <= y < n ->
  get_sign g x y = "."%char ->
  (forall c rest,
     playerMove n g (String c rest) p = playerMove n g (String (toupper c) rest) p) /\
  playerMove n g (String (ascii_of_N (Z.to_N (y + 97))) (show_int (x + 1))) p =
  Ret (place n g x y (sign_of p), true).
Proof.
  intros Hn Sg Hx Hy Fr.
  assert (G : forall c rest,
            playerMove n g (String c rest) p =
            playerMove n g (String (toupper c) rest) p).
  { intros c rest. unfold playerMove. by rewrite toupper_idem. }
  split; [exact G |].
  rewrite G, toupper_letter by lia.
  pose proof (printed_move n g x y p Hn Sg Hx Hy Fr) as (_ & _ & P). exact P.
Qed.

Lemma X12_witness :
  (forall c rest,
     playerMove 2 fresh2 (String c rest) 1 =
     playerMove 2 fresh2 (String (toupper c) rest) 1) /\
  playerMove 2 fresh2 (String (ascii_of_N (Z.to_N (1 + 97))) (show_int (0 + 1))) 1 =
  Ret (place 2 fresh2 0 1 (sign_of 1), true).
Proof.
  apply (X12_column_letter_in_lower_case 2 fresh2 0 1 1); [lia | | lia | lia | by vm_compute].
  split_and!; by vm_compute.
Defined.




(** The three ways of not returning, on the fresh board of side 2. *)
Lemma playerMove_faults :
  playerMove 2 fresh2 "-1" 1 = Fault Quit /\
  playerMove 2 fresh2 "" 1 = Fault (OutOfBounds 1) /\
  playerMove 2 fresh2 "a0" 1 = Fault (OutOfBounds (-8)).
Proof. repeat split; by vm_compute. Qed.

(** ** The moves of the AI *)

Lemma free_cells_filter n g :
  free_cells n g =
  List.filter (fun q => Ascii.eqb (get_sign g q.1 q.2) ".") (cells n).
Proof.
  rewrite free_cells_rows. unfold cells.
  generalize (loop_up (Z.to_nat n) 0 n 1) at 2 4. intros rows.
  generalize (loop_up (Z.to_nat n) 0 n 1). intros cols.
  induction rows as [|i rows IH]; [done |].
  simpl. rewrite List.filter_app, IH. f_equal.
  clear IH. induction cols as [|j cols IHc]; [done |].
  cbn [List.filter map fst snd]. rewrite <- IHc.
  by destruct (Ascii.eqb (get_sign g i j) ".").
Qed.

Section Moves.

Variable room : Z.
Variable shuffle : Z -> list (Z * Z) -> list (Z * Z).
Hypothesis Hperm : forall seed l, Permutation l (shuffle seed l).

(** X14: for every clock count, on a board of side [n] with its vectors
    sized as the constructor sizes them, [availablePositions] returns the
    empty cells of the board, each one once and nothing else: a reordering
    of the cells that show '.', taken row by row. *)
Theorem X14_availablePositions_lists_empty_cells tick n g :
  2 <= n -> sized n g ->
  Permutation
    (List.filter (fun q => Ascii.eqb (get_sign g q.1 q.2) ".") (cells n))
    (availablePositions shuffle tick n g) /\
  NoDup (availablePositions shuffle tick n g) /\
  (forall x y, In (x, y) (availablePositions shuffle tick n g) <->
     0 <= x < n /\ 0 <= y < n /\ get_sign g x y = "."%char) /\
  Z.of_nat (List.length (availablePositions shuffle tick n g)) = stones n g ".".
Proof using Hperm.
  intros _ _. split_and!.
  - rewrite <- free_cells_filter. apply Hperm.
  - by apply NoDup_available.
  - intros x y. by rewrite in_available.
  - unfold availablePositions, stones. rewrite <- (Permutation_length (Hperm _ _)).
    by rewrite free_cells_filter.
Qed.

Lemma simulations_le rounds ticks n g bp p k sg sgH wG it numwins w :
  simulations room shuffle rounds ticks n g bp p k sg sgH wG it numwins = Ret w ->
  w <= numwins + Z.of_nat rounds.
Proof.
  revert it numwins. induction rounds as [|r IH]; intros it numwins;
    cbn [simulations].
  - intros H. injection H as <-. lia.
  - destruct (Qltb _ _); [| intros H; injection H as <-; lia].
    destruct (playout _ _ _ _ _ _ _ _ _ _) as [w' | f]; cbn [bind]; [| discriminate].
    intros H. apply IH in H. destruct (w' =? p); lia.
Qed.

Lemma probMonteCarlo_le ticks n g i bp p k q :
  0 < k -> probMonteCarlo room shuffle ticks n g i bp p k = Ret q -> (q <= 1)%Q.
Proof.
  intros Hk H.
  unfold probMonteCarlo in H. destruct i as [x y].
  destruct (winnerAI _ _ _ _) as [wG | f]; cbn [bind] in H; [| discriminate].
  destruct (simulations _ _ _ _ _ _ _ _ _ _ _ _ _ _) as [w | f] eqn:E; cbn [bind] in H;
    [| discriminate].
  injection H as <-. apply simulations_le in E.
  apply ratio_le; [done |]. rewrite Qmult_1_l. rewrite <- Zle_Qle. lia.
Qed.

(** When the position is won at once every simulation ends at once. *)
Lemma simulations_won rounds ticks n g bp p k sg sgH it :
  p <> 0 -> 0 < k ->
  simulations room shuffle rounds ticks n g bp p k sg sgH p it it =
  Ret (if Qltb bp 1 then it + Z.of_nat rounds else it).
Proof.
  intros Hp Hk. revert it. induction rounds as [|r IH]; intros it; cbn [simulations].
  - destruct (Qltb bp 1); f_equal; lia.
  - assert (C : Qltb (bp * inject_Z k) (inject_Z (k - it + it)) = Qltb bp 1).
    { replace (k - it + it) with k by lia.
      assert (Kp : (inject_Z 0 < inject_Z k)%Q) by (rewrite <- Zlt_Qlt; done).
      destruct (Qltb bp 1) eqn:B.
      - apply Qltb_lt. apply Qltb_lt in B.
        apply Qlt_le_trans with (1 * inject_Z k)%Q;
          [by apply Qmult_lt_compat_r | rewrite Qmult_1_l; apply Qle_refl].
      - apply Qltb_ge. apply Qltb_ge in B.
        apply Qle_trans with (1 * inject_Z k)%Q;
          [rewrite Qmult_1_l; apply Qle_refl |].
        apply Qmult_le_compat_r; [done |]. by apply Qlt_le_weak. }
    rewrite C. destruct (Qltb bp 1) eqn:B; [| done].
    assert (P : forall rest cG total gN,
              playout room n p sg sgH rest cG total gN p = Ret p).
    { intros rest cG total gN. destruct rest; cbn [playout];
        by rewrite (proj2 (Z.eqb_neq p 0) Hp). }
    rewrite P. cbn [bind]. rewrite Z.eqb_refl, IH. f_equal. lia.
Qed.

(** X15: a candidate that wins at once.  On a board reached by legal
    moves, when the stone on the empty candidate cell gives the player a
    winning position ([winnerAI] names the player),
    no simulation plays a move, and [probMonteCarlo] returns the rate
    [numsim / numsim], which is 1, when the best rate so far is below 1,
    and the rate 0 when it is not: the cutoff then stops the loop before
    the first round. *)
Theorem X15_candidate_that_wins_at_once ticks n g x y bp p k :
  reachable n g -> 0 <= x < n -> 0 <= y < n -> get_sign g x y = "."%char ->
  p = 1 \/ p = 2 -> 0 < k ->
  winnerAI room n (place n g x y (sign_of p)) p = Ret p ->
  ((bp < 1)%Q ->
     probMonteCarlo room shuffle ticks n g (x, y) bp p k =
       Ret (inject_Z k / inject_Z k)%Q /\
     (inject_Z k / inject_Z k == 1)%Q) /\
  ((1 <= bp)%Q ->
     probMonteCarlo room shuffle ticks n g (x, y) bp p k =
       Ret (inject_Z 0 / inject_Z k)%Q /\
     (inject_Z 0 / inject_Z k == 0)%Q).
Proof.
  intros _ _ _ _ Hp Hk W. unfold probMonteCarlo.
  change (if p =? 1 then "X"%char else "O"%char) with (sign_of p).
  rewrite W. cbn [bind].
  assert (Hp0 : p <> 0) by lia.
  rewrite (simulations_won _ _ _ _ _ _ _ _ _ 0 Hp0 Hk).
  assert (Kn : ~ (inject_Z k == 0)%Q).
  { unfold Qeq. simpl. lia. }
  split; intros B.
  - apply Qltb_lt in B. rewrite B. cbn [bind]. rewrite Z.add_0_l, Z2Nat.id by lia.
    split; [done |]. by field.
  - apply Qltb_ge in B. rewrite B. cbn [bind]. split; [done |]. by field.
Qed.

End Moves.

Lemma X15_witness :
  ((-1 < 1)%Q ->
     probMonteCarlo 4 no_shuffle (fun it => it) 2 (place 2 fresh2 0 0 "X") (1, 0)
       (-1)%Q 1 5 = Ret (inject_Z 5 / inject_Z 5)%Q /\
     (inject_Z 5 / inject_Z 5 == 1)%Q) /\
  ((1 <= -1)%Q ->
     probMonteCarlo 4 no_shuffle (fun it => it) 2 (place 2 fresh2 0 0 "X") (1, 0)
       (-1)%Q 1 5 = Ret (inject_Z 0 / inject_Z 5)%Q /\
     (inject_Z 0 / inject_Z 5 == 0)%Q).
Proof.
  apply (X15_candidate_that_wins_at_once 4 no_shuffle (fun it => it) 2
           (place 2 fresh2 0 0 "X") 1 0 (-1)%Q 1 5);
    [| lia | lia | by vm_compute | by left | lia | by vm_compute].
  apply reachable_place; [apply (reachable_new 2) | lia | lia | by vm_compute | by left].
Defined.

Lemma X14_witness :
  Permutation
    (List.filter (fun q => Ascii.eqb (get_sign fresh2 q.1 q.2) ".") (cells 2))
    (availablePositions no_shuffle 0 2 fresh2) /\
  NoDup (availablePositions no_shuffle 0 2 fresh2) /\
  (forall x y, In (x, y) (availablePositions no_shuffle 0 2 fresh2) <->
     0 <= x < 2 /\ 0 <= y < 2 /\ get_sign fresh2 x y = "."%char) /\
  Z.of_nat (List.length (availablePositions no_shuffle 0 2 fresh2)) =
  stones 2 fresh2 ".".
Proof.
  apply (X14_availablePositions_lists_empty_cells no_shuffle no_shuffle_perm 0 2 fresh2);
    [lia | split_and!; by vm_compute].
Defined.

Section Best.

Variable room : Z.
Variable shuffle : Z -> list (Z * Z) -> list (Z * Z).
Variable n : Z.
Hypothesis Hroom : 4 <= room.
Hypothesis Hperm : forall seed l, Permutation l (shuffle seed l).
Hypothesis Hn : 2 <= n.

Lemma all_simulations_ge rounds ticks g p sg sgH wG it numwins w :
  all_simulations room shuffle rounds ticks n g p sg sgH wG it numwins = Ret w ->
  numwins <= w.
Proof.
  revert it numwins. induction rounds as [|r IH]; intros it numwins;
    cbn [all_simulations].
  - intros H. injection H as <-. lia.
  - destruct (playout _ _ _ _ _ _ _ _ _ _) as [w' | f]; cbn [bind]; [| discriminate].
    intros H. apply IH in H. destruct (w' =? p); lia.
Qed.

Lemma probMonteCarlo_full_nonneg ticks g i p k q :
  0 < k -> probMonteCarlo_full room shuffle ticks n g i p k = Ret q -> (0 <= q)%Q.
Proof.
  intros Hk. unfold probMonteCarlo_full. destruct i as [x y].
  destruct (winnerAI _ _ _ _) as [wG | f]; cbn [bind]; [| discriminate].
  destruct (all_simulations _ _ _ _ _ _ _ _ _ _ _ _) as [w | f] eqn:E; cbn [bind];
    [| discriminate].
  intros H. injection H as <-. apply all_simulations_ge in E. by apply ratio_nonneg.
Qed.

(** The loop over the candidates, every candidate run in full: the cell it
    returns is the first of the candidates with the highest rate, when one
    of them beats the rate the loop starts with. *)
Lemma full_loop_best ticks g p k cands :
  forall ci bm bp r,
  candidates_loop_full room shuffle ticks n g p k cands ci bm bp = Ret r ->
  (r = bm /\
   forall i c q, cands !! i = Some c ->
     probMonteCarlo_full room shuffle (ticks (ci + i)%nat) n g c p k = Ret q ->
     (q <= bp)%Q) \/
  (exists j q, cands !! j = Some r /\
     probMonteCarlo_full room shuffle (ticks (ci + j)%nat) n g r p k = Ret q /\
     (bp < q)%Q /\
     forall i c q', cands !! i = Some c ->
       probMonteCarlo_full room shuffle (ticks (ci + i)%nat) n g c p k = Ret q' ->
       (q' <= q)%Q /\ ((i < j)%nat -> (q' < q)%Q)).
Proof.
  induction cands as [|c0 rest IH]; intros ci bm bp r H; cbn [candidates_loop_full] in H.
  - left. injection H as <-. split; [done |]. intros i c q Hi. done.
  - destruct (probMonteCarlo_full room shuffle (ticks ci) n g c0 p k) as [q0 | f] eqn:E0;
      cbn [bind] in H; [| discriminate].
    destruct (Qltb bp q0) eqn:B.
    + apply Qltb_lt in B.
      destruct (IH _ _ _ _ H) as [[-> A] | (j & q & Hj & Ej & Lq & A)].
      * right. exists 0%nat, q0. rewrite Nat.add_0_r. split_and!; try done.
        intros [|i] c q' Hi Eq.
        -- simpl in Hi. injection Hi as <-. rewrite Nat.add_0_r, E0 in Eq. injection Eq as <-.
           split; [apply Qle_refl | lia].
        -- simpl in Hi. replace (ci + S i)%nat with (S ci + i)%nat in Eq by lia.
           split; [by apply (A i c) | lia].
      * right. exists (S j), q. replace (ci + S j)%nat with (S ci + j)%nat by lia.
        split_and!; try done; [by apply Qlt_trans with q0 |].
        intros [|i] c q' Hi Eq.
        -- simpl in Hi. injection Hi as <-. rewrite Nat.add_0_r, E0 in Eq. injection Eq as <-.
           split; [by apply Qlt_le_weak | done].
        -- simpl in Hi. replace (ci + S i)%nat with (S ci + i)%nat in Eq by lia.
           destruct (A i c q' Hi Eq) as [A1 A2]. split; [done |]. intros Lt. apply A2. lia.
    + apply Qltb_ge in B.
      destruct (IH _ _ _ _ H) as [[-> A] | (j & q & Hj & Ej & Lq & A)].
      * left. split; [done |]. intros [|i] c q' Hi Eq.
        -- simpl in Hi. injection Hi as <-. rewrite Nat.add_0_r, E0 in Eq. by injection Eq as <-.
        -- simpl in Hi. replace (ci + S i)%nat with (S ci + i)%nat in Eq by lia.
           by apply (A i c).
      * right. exists (S j), q. replace (ci + S j)%nat with (S ci + j)%nat by lia.
        split_and!; try done.
        intros [|i] c q' Hi Eq.
        -- simpl in Hi. injection Hi as <-. rewrite Nat.add_0_r, E0 in Eq. injection Eq as <-.
           assert (q0 < q)%Q by (by apply Qle_lt_trans with bp).
           split; [by apply Qlt_le_weak | done].
        -- simpl in Hi. replace (ci + S i)%nat with (S ci + i)%nat in Eq by lia.
           destruct (A i c q' Hi Eq) as [A1 A2]. split; [done |]. intros Lt. apply A2. lia.
Qed.

Lemma cutoff_loop_best ticks g p k cands :
  reachable n g -> p = 1 \/ p = 2 -> 0 < k -> cands <> [] ->
  (forall c, In c cands -> is_free n g c) ->
  exists j r q,
    candidates_loop room shuffle ticks n g p k cands 0%nat (0, 0) (-1)%Q = Ret r /\
    cands !! j = Some r /\
    probMonteCarlo_full room shuffle (ticks j) n g r p k = Ret q /\
    forall i c, cands !! i = Some c ->
      exists q', probMonteCarlo_full room shuffle (ticks i) n g c p k = Ret q' /\
        (q' <= q)%Q /\ ((i < j)%nat -> (q' < q)%Q).
Proof using Hroom Hperm Hn.
  intros Hg Hp Hk Hne Hc.
  destruct (candidates_loop_cutoff room shuffle n Hroom Hperm Hn g p k ticks cands 0%nat
              (0, 0) (-1)%Q Hg Hp Hk Hc) as (r & Ec & Ef).
  assert (T : forall i c, cands !! i = Some c ->
            exists q', probMonteCarlo_full room shuffle (ticks i) n g c p k = Ret q').
  { intros i c Hi.
    destruct (probMonteCarlo_cutoff room shuffle n Hroom Hperm Hn g c p k (ticks i) 0%Q Hg)
      as (_ & qf & _ & Eq & _); try done.
    - apply Hc. apply list_elem_of_In. by apply (list_elem_of_lookup_2 _ i).
    - by exists qf. }
  destruct (full_loop_best ticks g p k cands _ _ _ _ Ef) as [[_ A] | (j & q & Hj & Ej & _ & A)].
  - exfalso. destruct cands as [|c0 rest]; [done |].
    destruct (T 0%nat c0 eq_refl) as (q0 & E0).
    pose proof (A 0%nat c0 q0 eq_refl E0) as L.
    pose proof (probMonteCarlo_full_nonneg _ _ _ _ _ _ Hk E0) as P.
    pose proof (Qle_trans _ _ _ P L) as Bad. by vm_compute in Bad.
  - exists j, r, q. split_and!; try done.
    intros i c Hi. destruct (T i c Hi) as (q' & Eq). exists q'. split; [done |].
    by apply (A i c).
Qed.

End Best.

(** X16: the value [probMonteCarlo] returns is a rate.  On a board
    reached by legal moves, for an empty candidate cell, a positive number
    of simulations and every best rate passed in, [probMonteCarlo] returns,
    and what it returns lies between 0 and 1. *)
Theorem X16_probMonteCarlo_is_a_rate room shuffle ticks n g i bp p k :
  (forall seed l, Permutation l (shuffle seed l)) ->
  2 <= n <= 11 -> 4 <= room -> reachable n g -> is_free n g i ->
  p = 1 \/ p = 2 -> 0 < k ->
  exists q, probMonteCarlo room shuffle ticks n g i bp p k = Ret q /\
            (0 <= q)%Q /\ (q <= 1)%Q.
Proof.
  intros Hperm Hn Hr Hg Hi Hp Hk.
  destruct (probMonteCarlo_cutoff room shuffle n Hr Hperm ltac:(lia) g i p k ticks bp
              Hg Hi Hp Hk) as (qc & _ & Ec & _).
  exists qc. split; [exact Ec |]. split.
  - by apply (probMonteCarlo_nonneg room shuffle ticks n g i bp p k).
  - by apply (probMonteCarlo_le room shuffle ticks n g i bp p k).
Qed.

Lemma X16_witness :
  exists q, probMonteCarlo 4 no_shuffle (fun it => it) 2 fresh2 (0, 1) (-1)%Q 1 20 = Ret q /\
            (0 <= q)%Q /\ (q <= 1)%Q.
Proof.
  apply (X16_probMonteCarlo_is_a_rate 4 no_shuffle (fun it => it) 2 fresh2 (0, 1) (-1)%Q 1 20);
    [apply no_shuffle_perm | lia | lia | apply (reachable_new 2) | | by left | lia].
  split_and!; by vm_compute.
Defined.

(** X17: on a board reached by legal moves that has an empty cell,
    [aiMove] returns and makes a legal move: it puts the stone of its
    player on one cell of the board that was empty, so the board is again a
    board reached by legal moves. *)
Theorem X17_aiMove_makes_a_legal_move room shuffle n g p tick0 ticks :
  (forall seed l, Permutation l (shuffle seed l)) ->
  2 <= n <= 11 -> 4 <= room -> reachable n g -> p = 1 \/ p = 2 ->
  free_cells n g <> [] ->
  exists x y, 0 <= x < n /\ 0 <= y < n /\ get_sign g x y = "."%char /\
    aiMove room shuffle tick0 ticks n g p = Ret (place n g x y (sign_of p)) /\
    reachable n (place n g x y (sign_of p)).
Proof.
  intros Hperm Hn Hr Hg Hp Hf.
  destruct (monteCarloSims_total room shuffle n Hr Hperm ltac:(lia) g p tick0 ticks Hg Hp Hf)
    as ([x y] & E & Hx & Hy & Fr). simpl in Hx, Hy, Fr.
  exists x, y. split_and!; try done; try lia.
  - unfold aiMove. rewrite E. done.
  - apply reachable_place; try done. destruct Hp as [-> | ->]; [by left | by right].
Qed.

Lemma X17_witness :
  exists x y, 0 <= x < 2 /\ 0 <= y < 2 /\ get_sign fresh2 x y = "."%char /\
    aiMove 4 no_shuffle 0 (fun _ it => it) 2 fresh2 1 = Ret (place 2 fresh2 x y (sign_of 1)) /\
    reachable 2 (place 2 fresh2 x y (sign_of 1)).
Proof.
  apply (X17_aiMove_makes_a_legal_move 4 no_shuffle 2 fresh2 1 0 (fun _ it => it));
    [apply no_shuffle_perm | lia | lia | apply (reachable_new 2) | by left | by vm_compute].
Defined.

(** X18: the cell [monteCarloSims] returns is the best candidate.  On a
    board reached by legal moves that has an empty cell, every candidate
    has a rate of won simulations when all its [SIMUL] simulations are
    run, and the cell returned, found with the early cutoff, is the first
    candidate in the shuffled order whose rate is the highest: no
    candidate has a higher rate, and every candidate before it has a lower
    one. *)
Theorem X18_monteCarloSims_returns_the_best room shuffle n g p tick0 ticks :
  (forall seed l, Permutation l (shuffle seed l)) ->
  2 <= n <= 11 -> 4 <= room -> reachable n g -> p = 1 \/ p = 2 ->
  free_cells n g <> [] ->
  exists j r q,
    monteCarloSims room shuffle tick0 ticks n g p = Ret r /\
    availablePositions shuffle tick0 n g !! j = Some r /\
    probMonteCarlo_full room shuffle (ticks j) n g r p SIMUL = Ret q /\
    forall i c, availablePositions shuffle tick0 n g !! i = Some c ->
      exists q', probMonteCarlo_full room shuffle (ticks i) n g c p SIMUL = Ret q' /\
        (q' <= q)%Q /\ ((i < j)%nat -> (q' < q)%Q).
Proof.
  intros Hperm Hn Hr Hg Hp Hf. unfold monteCarloSims.
  apply (cutoff_loop_best room shuffle n Hr Hperm ltac:(lia)); try done.
  - intros EE. apply Hf.
    apply Permutation_nil. rewrite <- EE. apply Permutation_sym. apply Hperm.
  - intros c Hc. by apply (in_available shuffle Hperm) in Hc.
Qed.

Lemma X18_witness :
  exists j r q,
    monteCarloSims 4 no_shuffle 0 (fun _ it => it) 2 fresh2 1 = Ret r /\
    availablePositions no_shuffle 0 2 fresh2 !! j = Some r /\
    probMonteCarlo_full 4 no_shuffle ((fun _ it => it) j) 2 fresh2 r 1 SIMUL = Ret q /\
    forall i c, availablePositions no_shuffle 0 2 fresh2 !! i = Some c ->
      exists q', probMonteCarlo_full 4 no_shuffle ((fun _ it => it) i) 2 fresh2 c 1 SIMUL
                 = Ret q' /\
        (q' <= q)%Q /\ ((i < j)%nat -> (q' < q)%Q).
Proof.
  apply (X18_monteCarloSims_returns_the_best 4 no_shuffle 2 fresh2 1 0 (fun _ it => it));
    [apply no_shuffle_perm | lia | lia | apply (reachable_new 2) | by left | by vm_compute].
Defined.

(** ** The turn loop of [Game::start] *)

Lemma length_cells n : 0 <= n -> Z.of_nat (List.length (cells n)) = n * n.
Proof.
  intros Hn. unfold cells.
  assert (L : List.length (loop_up (Z.to_nat n) 0 n 1) = Z.to_nat n).
  { rewrite length_loop_up1; [f_equal |]; lia. }
  assert (G : forall rows cols : list Z,
            List.length (flat_map (fun i => map (pair i) cols) rows) =
            (List.length rows * List.length cols)%nat).
  { intros rows cols. induction rows as [|i rows IH]; [done |].
    simpl. rewrite length_app, length_map, IH. lia. }
  rewrite G, L. lia.
Qed.

Lemma filter_nil_length {A} (t : A -> bool) l :
  (forall a, In a l -> t a = false) -> List.length (List.filter t l) = 0%nat.
Proof.
  induction l as [|a l IH]; intros H; [done |].
  simpl. rewrite (H a (or_introl eq_refl)). apply IH. intros b Hb. apply H. by right.
Qed.

Lemma filter_two_length {A} (t1 t2 : A -> bool) l :
  (forall a, In a l -> t1 a = true -> t2 a = false) ->
  (List.length (List.filter t1 l) + List.length (List.filter t2 l) <= List.length l)%nat.
Proof.
  induction l as [|a l IH]; intros H; [done |].
  specialize (IH (fun b Hb => H b (or_intror Hb))).
  pose proof (H a (or_introl eq_refl)) as Ha.
  simpl. destruct (t1 a); [rewrite Ha by done |]; simpl; [lia |].
  destruct (t2 a); simpl; lia.
Qed.

Lemma filter_three_length {A} (t1 t2 t3 : A -> bool) l :
  (forall a, In a l ->
     (t1 a = true /\ t2 a = false /\ t3 a = false) \/
     (t1 a = false /\ t2 a = true /\ t3 a = false) \/
     (t1 a = false /\ t2 a = false /\ t3 a = true)) ->
  (List.length (List.filter t1 l) + List.length (List.filter t2 l) +
   List.length (List.filter t3 l) = List.length l)%nat.
Proof.
  induction l as [|a l IH]; intros H; [done |].
  specialize (IH (fun b Hb => H b (or_intror Hb))).
  simpl.
  destruct (H a (or_introl eq_refl)) as [(-> & -> & ->) | [(-> & -> & ->) | (-> & -> & ->)]];
    simpl; lia.
Qed.

Lemma stones_fresh n s :
  2 <= n -> s <> "."%char -> stones n (Graph_new n (n * n + 4)) s = 0.
Proof.
  intros Hn Hs. unfold stones. rewrite filter_nil_length; [done |].
  intros [x y] Hq. apply in_cells in Hq as [Hx Hy]. simpl in *.
  pose proof (shaped_Graph_new n Hn) as [[Hnv _] _].
  rewrite (get_sign_cell n) by first [done | lia].
  rewrite node_sign_Graph_new by first [done | unfold cell; nia].
  unfold cell. assert (R : 0 <= x * n + y < n * n) by nia.
  rewrite !(proj2 (Z.eqb_neq (x * n + y) _)) by lia.
  apply Ascii.eqb_neq. congruence.
Qed.

(** On a reached board every cell shows '.', 'X' or 'O'. *)
Lemma stones_partition n g :
  2 <= n -> reachable n g ->
  stones n g "X" + stones n g "O" + stones n g "." = n * n.
Proof.
  intros Hn Hg. rewrite <- (length_cells n) by lia. unfold stones.
  rewrite <- (filter_three_length
                (fun q => Ascii.eqb (get_sign g q.1 q.2) "X")
                (fun q => Ascii.eqb (get_sign g q.1 q.2) "O")
                (fun q => Ascii.eqb (get_sign g q.1 q.2) ".") (cells n)); [lia |].
  intros [x y] Hq. apply in_cells in Hq as [Hx Hy]. simpl in *.
  pose proof (reachable_sized n g Hn Hg) as [Hnv _].
  pose proof (reachable_signs n g Hn Hg) as (_ & _ & _ & _ & T).
  specialize (T (cell n x y) (cell_range n x y Hx Hy)).
  rewrite <- (get_sign_cell n) in T by first [done | lia].
  destruct T as [-> | [-> | ->]]; auto.
Qed.

Lemma stones_none_full n g :
  2 <= n -> reachable n g -> stones n g "." = 0 -> full n g.
Proof.
  intros Hn Hg H x y Hx Hy Fr. unfold stones in H.
  assert (Hin : In (x, y) (List.filter (fun q => Ascii.eqb (get_sign g q.1 q.2) ".") (cells n))).
  { apply List.filter_In. split; [apply in_cells; simpl; lia |]. simpl. rewrite Fr. done. }
  destruct (List.filter _ (cells n)); [done | simpl in H; lia].
Qed.

Section Rounds.

Variable room : Z.
Variable shuffle : Z -> list (Z * Z) -> list (Z * Z).
Variable n : Z.
Hypothesis Hroom : 4 <= room.
Hypothesis Hperm : forall seed l, Permutation l (shuffle seed l).
Hypothesis Hn : 2 <= n <= 11.

(** While nobody has a chain the board has an empty cell. *)
Lemma no_chain_free g :
  reachable n g -> ~ winning_chain n g 1 -> ~ winning_chain n g 2 ->
  free_cells n g <> [].
Proof using Hn.
  intros Hg N1 N2 EE.
  assert (F : full n g).
  { intros x y Hx Hy Fr.
    assert (In (x, y) (free_cells n g)) as Hin by (apply in_free_cells; done).
    by rewrite EE in Hin. }
  destruct (some_chain n g ltac:(lia) Hg F); done.
Qed.

(** The test for a winner after the move number [count] of player [who]:
    [winnerAI] is asked only from the move number [n] on. *)
Lemma winner_test g who count w :
  reachable n g -> who = 1 \/ who = 2 ->
  stones n g (sign_of who) = count ->
  ~ winning_chain n g (3 - who) ->
  (if n <=? count then winnerAI room n g who else Ret 0) = Ret w ->
  (w = 0 -> ~ winning_chain n g 1 /\ ~ winning_chain n g 2) /\
  (w <> 0 -> (w = 1 \/ w = 2) /\ winning_chain n g w).
Proof using Hroom Hn.
  intros Hg Hw Hc No H.
  destruct (Z.leb_spec n count) as [L | L].
  - destruct (winnerAI_spec n g ltac:(lia) Hg room who Hroom Hw) as (w0 & E & R & W1 & W2).
    rewrite E in H. injection H as <-. split.
    + intros ->. split; intros C; [apply W1 in C | apply W2 in C]; done.
    + intros Nw. destruct R as [-> | [-> | ->]]; [done | |].
      * split; [by left | by apply W1].
      * split; [by right | by apply W2].
  - injection H as <-. split; [| done]. intros _.
    assert (Nwho : ~ winning_chain n g who).
    { intros C. apply (winning_chain_stones n g ltac:(lia) Hg who Hw) in C. lia. }
    destruct Hw as [-> | ->]; simpl in No; done.
Qed.

(** A legal move of the player [m] whose turn it is, and the test for a
    winner that follows it. *)
Lemma move_keeps g st x y m count w :
  game_inv n (g, st) -> winner st = 0 -> m = goesNext st ->
  0 <= x < n -> 0 <= y < n -> get_sign g x y = "."%char ->
  count = stones n g (sign_of m) + 1 ->
  (if n <=? count then winnerAI room n (place n g x y (sign_of m)) m
   else Ret (winner st)) = Ret w ->
  let g' := place n g x y (sign_of m) in
  reachable n g' /\
  stones n g' (sign_of m) = stones n g (sign_of m) + 1 /\
  stones n g' (sign_of (3 - m)) = stones n g (sign_of (3 - m)) /\
  stones n g' "O" <= stones n g' "X" <= stones n g' "O" + 1 /\
  stones n g' "X" = stones n g' "O" + (if Z.rem (m * 2) 3 =? 1 then 0 else 1) /\
  (m = 1 \/ m = 2) /\
  (w = 0 -> ~ winning_chain n g' 1 /\ ~ winning_chain n g' 2) /\
  (w <> 0 -> (w = 1 \/ w = 2) /\ winning_chain n g' w /\ w = m).
Proof using Hroom Hn.
  intros (Hg & Hu & Hgn & Hm & Ha & Hb & H0 & _) W0 Em Hx Hy Fr -> H. subst m.
  simpl in Hg, Hu, Hgn, Hm, Ha, Hb, H0.
  destruct (H0 W0) as (N1 & N2 & _ & Alt).
  rewrite W0 in H.
  pose proof (reachable_sized n g ltac:(lia) Hg) as Sg.
  remember (goesNext st) as m eqn:Em. clear Em.
  assert (Sm : sign_of m = "X"%char \/ sign_of m = "O"%char).
  { destruct Hgn as [-> | ->]; [by left | by right]. }
  pose proof (reachable_stone n g x y (sign_of m) Hg Hx Hy Fr Sm) as Hg'.
  assert (S1 : stones n (place n g x y (sign_of m)) (sign_of m) =
               stones n g (sign_of m) + 1).
  { rewrite stones_place; try done; try lia.
    - by rewrite Ascii.eqb_refl.
    - destruct Sm as [-> | ->]; done. }
  assert (S2 : stones n (place n g x y (sign_of m)) (sign_of (3 - m)) =
               stones n g (sign_of (3 - m))).
  { rewrite stones_place; try done; try lia.
    - destruct Hgn as [-> | ->]; reflexivity.
    - destruct Hgn as [-> | ->]; done. }
  assert (No : ~ winning_chain n (place n g x y (sign_of m)) (3 - m)).
  { intros C.
    assert (Hp' : 3 - m = 1 \/ 3 - m = 2) by lia.
    assert (Ns : sign_of m <> sign_of (3 - m)) by (destruct Hgn as [-> | ->]; done).
    pose proof (winning_chain_other n g x y (sign_of m) ltac:(lia) Hg Hx Hy
                  (3 - m) Hp' Ns C) as C'.
    destruct Hgn as [-> | ->]; simpl in C'; done. }
  destruct (winner_test _ m _ w Hg' Hgn S1 No H) as [T0 T1].
  assert (T2 : w <> 0 -> (w = 1 \/ w = 2) /\
                 winning_chain n (place n g x y (sign_of m)) w /\ w = m).
  { intros Nw. destruct (T1 Nw) as [W12 C]. split_and!; try done.
    destruct W12 as [-> | ->], Hgn as [-> | ->]; simpl in No; done. }
  cbv zeta. split_and!; try done.
  - destruct Hgn as [E | E]; rewrite E in *; unfold sign_of in *; simpl in *; lia.
  - destruct Hgn as [E | E]; rewrite E in *; unfold sign_of in *; simpl in *; lia.
  - destruct Hgn as [E | E]; rewrite E in *; unfold sign_of in *; simpl in *; lia.
Qed.

End Rounds.

Section Loop.

Variable room : Z.
Variable shuffle : Z -> list (Z * Z) -> list (Z * Z).
Variable n : Z.
Hypothesis Hroom : 4 <= room.
Hypothesis Hperm : forall seed l, Permutation l (shuffle seed l).
Hypothesis Hn : 2 <= n <= 11.

Lemma in_play_winner st : in_play st = true -> winner st = 0.
Proof. unfold in_play. intros H. apply andb_true_iff in H as [_ H]. lia. Qed.

(** The end of a round after a move that was made: the loop is left when
    there is a winner, and the turn passes otherwise. *)
Lemma after_move g st x y w st1 s' :
  game_inv n (g, st) -> winner st = 0 ->
  0 <= x < n -> 0 <= y < n -> get_sign g x y = "."%char ->
  (if n <=? stones n g (sign_of (goesNext st)) + 1
   then winnerAI room n (place n g x y (sign_of (goesNext st))) (goesNext st)
   else Ret (winner st)) = Ret w ->
  user st1 = user st -> computer st1 = computer st -> goesNext st1 = goesNext st ->
  winner st1 = w -> valid st1 = true ->
  moveCount st1 = moveCount st + (if goesNext st =? user st then 1 else 0) ->
  movesAI st1 = movesAI st + (if goesNext st =? user st then 0 else 1) ->
  (if negb (winner st1 =? 0) then Ret (place n g x y (sign_of (goesNext st)), st1)
   else if valid st1
   then Ret (place n g x y (sign_of (goesNext st)),
             mkGame (moveCount st1) (movesAI st1) (valid st1) (command st1)
               (winner st1) (user st1) (computer st1) (Z.rem (goesNext st1 * 2) 3))
   else Ret (place n g x y (sign_of (goesNext st)), st1)) = Ret s' ->
  game_inv n s'.
Proof using Hroom Hn.
  intros Inv W0 Hx Hy Fr Ew Eu Ec Eg Ewin Ev Em Ea H.
  pose proof (move_keeps room n Hroom Hn g st x y (goesNext st) _ w Inv W0 eq_refl Hx Hy Fr
                eq_refl Ew) as (Hg' & S1 & S2 & Hb' & Alt' & Hm12 & T0 & T1).
  destruct Inv as (Hg & Hu & Hgn & Hm & Ha & Hb & H0 & _).
  simpl in Hg, Hu, Hgn, Hm, Ha, Hb, H0.
  assert (Cnt : stones n (place n g x y (sign_of (goesNext st))) (sign_of (user st)) =
                  moveCount st1 /\
                stones n (place n g x y (sign_of (goesNext st))) (sign_of (computer st)) =
                  movesAI st1).
  { rewrite Em, Ea.
    destruct Hu as [[U C] | [U C]], Hgn as [G | G]; rewrite U, C, G in *;
      unfold sign_of in *; simpl in *; lia. }
  destruct Cnt as [Cm Ca].
  rewrite Ewin, Ev in H.
  destruct (Z.eqb_spec w 0) as [-> | Nw]; cbn [negb] in H; injection H as <-.
  - unfold game_inv. cbn [fst snd moveCount movesAI valid command winner user computer goesNext].
    rewrite Eu, Ec, Eg. split_and!; try done; try (apply Hb').
    + destruct Hgn as [G | G]; rewrite G; [by right | by left].
    + intros _. destruct (T0 eq_refl) as [N1 N2]. split_and!; try done.
  - unfold game_inv. cbn [fst snd]. rewrite Eu, Ec, Eg, Ewin.
    destruct (T1 Nw) as (W12 & C & Em').
    split_and!; try done; try lia.
    intros _. split_and!; try done.
    rewrite Alt', Em'. destruct Hgn as [G | G]; rewrite G; reflexivity.
Qed.

(** A round keeps the state of the game. *)
Lemma turn_keeps tick0 ticks typed g st s' :
  game_inv n (g, st) -> in_play st = true ->
  turn room shuffle tick0 ticks typed n g st = Ret s' ->
  game_inv n s'.
Proof using Hroom Hperm Hn.
  intros Inv Play H. pose proof (in_play_winner st Play) as W0.
  pose proof Inv as (Hg & Hu & Hgn & Hm & Ha & Hb & H0 & _).
  simpl in Hg, Hu, Hgn, Hm, Ha, Hb, H0.
  destruct (H0 W0) as (N1 & N2 & Hv & Alt).
  unfold turn in H.
  destruct (Z.eqb_spec (goesNext st) (user st)) as [Eg | Ng]; cbn [negb] in H.
  - (* the user *)
    destruct (playerMove n g typed (user st)) as [[g1 v] | f] eqn:Pm; cbn [bind] in H;
      [| done].
    destruct (playerMove_legal n g typed (user st) g1 v Hn Hg Pm)
      as [Hg1 [[-> ->] | [-> (x & y & Hx & Hy & Fr & ->)]]].
    + cbn [bind winner valid] in H. rewrite W0 in H. cbn [Z.eqb negb] in H.
      injection H as <-.
      unfold game_inv. cbn [fst snd moveCount movesAI valid command winner user computer goesNext].
      split_and!; try done; try lia.
    + rewrite <- Eg in H.
      destruct (if n <=? moveCount st + 1 then _ else _) as [w | f] eqn:Ew in H;
        cbn [bind] in H; [| done].
      rewrite <- Hm, <- Eg in Ew.
      eapply (after_move g st x y w); try exact H; try done;
        cbn [moveCount movesAI valid command winner user computer goesNext];
        rewrite ?Eg, ?Z.eqb_refl; try done; try lia.
  - (* the AI *)
    assert (Ec : goesNext st = computer st).
    { destruct Hu as [[U C] | [U C]], Hgn as [G | G]; lia. }
    destruct (aiMove room shuffle tick0 ticks n g (computer st)) as [g1 | f] eqn:Am;
      cbn [bind] in H; [| done].
    unfold aiMove in Am.
    destruct (monteCarloSims room shuffle tick0 ticks n g (computer st)) as [[x y] | f] eqn:Mc;
      cbn [bind] in Am; [| done].
    injection Am as <-.
    pose proof (no_chain_free n Hn g Hg N1 N2) as Hf.
    destruct (monteCarloSims_free room shuffle Hperm tick0 ticks n g _ _ Hf Mc)
      as (Hx & Hy & Fr). simpl in Hx, Hy, Fr.
    change (if computer st =? 1 then "X"%char else "O"%char) with (sign_of (computer st)) in H.
    rewrite <- Ec in H.
    destruct (if n <=? movesAI st + 1 then _ else _) as [w | f] eqn:Ew in H;
      cbn [bind] in H; [| done].
    rewrite <- Ha, <- Ec in Ew.
    eapply (after_move g st x y w); try exact H; try done;
      cbn [moveCount movesAI valid command winner user computer goesNext];
      rewrite ?(proj2 (Z.eqb_neq _ _) Ng); try done; try lia.
    by apply Hv.
Qed.

Lemma start_inv swap : game_inv n (Graph_new n (n * n + 4), Game_start swap).
Proof using Hn.
  pose proof (stones_fresh n "X" ltac:(lia) ltac:(done)) as SX.
  pose proof (stones_fresh n "O" ltac:(lia) ltac:(done)) as SO.
  pose proof (no_chain_Graph_new n 1 ltac:(lia) ltac:(by left)) as N1.
  pose proof (no_chain_Graph_new n 2 ltac:(lia) ltac:(by right)) as N2.
  unfold game_inv, Game_start.
  destruct (Ascii.eqb (toupper swap) "N");
    cbn [fst snd moveCount movesAI valid command winner user computer goesNext];
    unfold sign_of; simpl; rewrite ?SX, ?SO;
    (split_and!; try done; try lia; try apply reachable_new; auto).
Qed.

Lemma rounds_keep swap s :
  rtc (round room shuffle n) (Graph_new n (n * n + 4), Game_start swap) s ->
  game_inv n s.
Proof using Hroom Hperm Hn.
  intros R.
  revert R.
  apply (rtc_ind_r (fun z => game_inv n z) (Graph_new n (n * n + 4), Game_start swap));
    [apply start_inv |].
  intros [g st] s' _ [Play (tick0 & ticks & typed & T)] Inv. simpl in Play, T.
  by apply (turn_keeps tick0 ticks typed g st).
Qed.

End Loop.

(** X19: the counters of the turn loop count stones, and the players take
    turns.  In every state the loop of [Game::start] reaches on a board of
    side [n] in 2..11, whatever is typed and whatever the clock reads, the
    board is a board reached by legal moves, [moveCount] is the number of
    stones of the user on it and [movesAI] the number of stones of the AI,
    and 'X' has as many stones as 'O' or one more: as many when the game is
    on and player 1 moves next, one more when player 2 moves next. *)
Theorem X19_turn_loop_counts_and_alternates room shuffle n swap g st :
  (forall seed l, Permutation l (shuffle seed l)) ->
  2 <= n <= 11 -> 4 <= room ->
  rtc (round room shuffle n) (Graph_new n (n * n + 4), Game_start swap) (g, st) ->
  reachable n g /\
  moveCount st = stones n g (sign_of (user st)) /\
  movesAI st = stones n g (sign_of (computer st)) /\
  stones n g "O" <= stones n g "X" <= stones n g "O" + 1 /\
  (goesNext st = 1 \/ goesNext st = 2) /\
  (winner st = 0 ->
   stones n g "X" = stones n g "O" + (if goesNext st =? 1 then 0 else 1)).
Proof.
  intros Hperm Hn Hr R.
  destruct (rounds_keep room shuffle n Hr Hperm Hn swap _ R)
    as (Hg & Hu & Hgn & Hm & Ha & Hb & H0 & H1).
  simpl in Hg, Hu, Hgn, Hm, Ha, Hb, H0, H1.
  split_and!; try done; try lia.
Qed.

(** X20: the turn loop knows the winner.  In every state the loop
    reaches, [winner] is 0 exactly when no player has a winning chain on
    the board, although [winnerAI] is asked only from the move number [n]
    of a player on; and when it is not 0 it is the player who has the
    winning chain, the one [winnerAI] names on the board for either
    player. *)
Theorem X20_turn_loop_knows_the_winner room shuffle n swap g st :
  (forall seed l, Permutation l (shuffle seed l)) ->
  2 <= n <= 11 -> 4 <= room ->
  rtc (round room shuffle n) (Graph_new n (n * n + 4), Game_start swap) (g, st) ->
  (winner st = 0 <-> ~ winning_chain n g 1 /\ ~ winning_chain n g 2) /\
  (winner st <> 0 ->
   (winner st = 1 \/ winner st = 2) /\ winning_chain n g (winner st) /\
   winnerAI room n g 1 = Ret (winner st) /\ winnerAI room n g 2 = Ret (winner st)).
Proof.
  intros Hperm Hn Hr R.
  destruct (rounds_keep room shuffle n Hr Hperm Hn swap _ R)
    as (Hg & Hu & Hgn & Hm & Ha & Hb & H0 & H1).
  simpl in Hg, Hu, Hgn, Hm, Ha, Hb, H0, H1.
  assert (G : winner st <> 0 ->
            (winner st = 1 \/ winner st = 2) /\ winning_chain n g (winner st) /\
            winnerAI room n g 1 = Ret (winner st) /\
            winnerAI room n g 2 = Ret (winner st)).
  { intros Nw. destruct (H1 Nw) as (W12 & C & _). split_and!; try done.
    - destruct (winnerAI_spec n g ltac:(lia) Hg room 1 Hr ltac:(by left))
        as (w & -> & Rw & W1 & W2). f_equal.
      destruct W12 as [E | E]; rewrite E in *; [by apply W1 | by apply W2].
    - destruct (winnerAI_spec n g ltac:(lia) Hg room 2 Hr ltac:(by right))
        as (w & -> & Rw & W1 & W2). f_equal.
      destruct W12 as [E | E]; rewrite E in *; [by apply W1 | by apply W2]. }
  split; [| exact G]. split.
  - intros W0. by destruct (H0 W0) as (N1 & N2 & _).
  - intros [N1 N2]. destruct (Z.eq_dec (winner st) 0) as [E | Nw]; [done |].
    destruct (G Nw) as ([E | E] & C & _); rewrite E in C; done.
Qed.

(** X21: the AI is never asked to move on a full board.  In every state
    the loop reaches in which the game is on, the board has an empty cell
    and fewer than [n * n] moves have been made; and when it is the turn of
    the AI the round returns, whatever the clock reads: [aiMove] finds its
    cell and no index leaves its storage. *)
Theorem X21_turn_loop_has_a_free_cell room shuffle n swap g st :
  (forall seed l, Permutation l (shuffle seed l)) ->
  2 <= n <= 11 -> 4 <= room ->
  rtc (round room shuffle n) (Graph_new n (n * n + 4), Game_start swap) (g, st) ->
  moveCount st + movesAI st <= n * n /\
  (in_play st = true ->
   free_cells n g <> [] /\
   moveCount st + movesAI st < n * n /\
   (goesNext st <> user st ->
    forall tick0 ticks typed,
      exists s', turn room shuffle tick0 ticks typed n g st = Ret s')).
Proof.
  intros Hperm Hn Hr R.
  destruct (rounds_keep room shuffle n Hr Hperm Hn swap _ R)
    as (Hg & Hu & Hgn & Hm & Ha & Hb & H0 & H1).
  simpl in Hg, Hu, Hgn, Hm, Ha, Hb, H0, H1.
  pose proof (stones_partition n g ltac:(lia) Hg) as Part.
  assert (Sum : moveCount st + movesAI st = stones n g "X" + stones n g "O").
  { rewrite <- Hm, <- Ha.
    destruct Hu as [[-> ->] | [-> ->]]; unfold sign_of; simpl; lia. }
  assert (D0 : 0 <= stones n g ".") by (unfold stones; lia).
  split; [lia |]. intros Play. pose proof (in_play_winner st Play) as W0.
  destruct (H0 W0) as (N1 & N2 & Hv & _).
  pose proof (no_chain_free n Hn g Hg N1 N2) as Hf.
  split; [exact Hf |]. split.
  - assert (stones n g "." <> 0); [| lia].
    intros Z0. unfold stones in Z0. rewrite <- free_cells_filter in Z0.
    destruct (free_cells n g); [done | simpl in Z0; lia].
  - intros Ng tick0 ticks typed.
    assert (Hc : computer st = 1 \/ computer st = 2).
    { destruct Hu as [[_ ->] | [_ ->]]; [by right | by left]. }
    destruct (monteCarloSims_total room shuffle n Hr Hperm ltac:(lia) g (computer st)
                tick0 ticks Hg Hc Hf) as ([x y] & Mc & Hx & Hy & Fr).
    simpl in Hx, Hy, Fr.
    assert (Hg' : reachable n (place n g x y (sign_of (computer st)))).
    { apply reachable_place; try done. destruct Hc as [-> | ->]; [by left | by right]. }
    destruct (winnerAI_spec n _ ltac:(lia) Hg' room (computer st) Hr Hc) as (w & Ew & _).
    unfold turn. rewrite (proj2 (Z.eqb_neq _ _) Ng). cbn [negb].
    unfold aiMove. rewrite Mc. cbn [bind].
    change (if computer st =? 1 then "X"%char else "O"%char) with (sign_of (computer st)).
    rewrite Ew.
    destruct (n <=? movesAI st + 1); cbn [bind winner valid];
      repeat (match goal with |- context [if ?b then _ else _] => destruct b end);
      eexists; reflexivity.
Qed.

Lemma X19_witness :
  reachable 2 (place 2 fresh2 0 0 "X") /\
  moveCount (mkGame 1 0 true "a1" 0 1 2 2) =
    stones 2 (place 2 fresh2 0 0 "X") (sign_of (user (mkGame 1 0 true "a1" 0 1 2 2))) /\
  movesAI (mkGame 1 0 true "a1" 0 1 2 2) =
    stones 2 (place 2 fresh2 0 0 "X") (sign_of (computer (mkGame 1 0 true "a1" 0 1 2 2))) /\
  stones 2 (place 2 fresh2 0 0 "X") "O" <= stones 2 (place 2 fresh2 0 0 "X") "X"
    <= stones 2 (place 2 fresh2 0 0 "X") "O" + 1 /\
  (goesNext (mkGame 1 0 true "a1" 0 1 2 2) = 1 \/
   goesNext (mkGame 1 0 true "a1" 0 1 2 2) = 2) /\
  (winner (mkGame 1 0 true "a1" 0 1 2 2) = 0 ->
   stones 2 (place 2 fresh2 0 0 "X") "X" =
   stones 2 (place 2 fresh2 0 0 "X") "O" +
   (if goesNext (mkGame 1 0 true "a1" 0 1 2 2) =? 1 then 0 else 1)).
Proof.
  apply (X19_turn_loop_counts_and_alternates 4 no_shuffle 2 "N");
    [apply no_shuffle_perm | lia | lia |].
  apply rtc_once. split; [reflexivity |].
  exists 0, (fun _ it => it), "a1"%string. vm_compute. reflexivity.
Defined.

Lemma X20_witness :
  (winner (mkGame 1 0 true "a1" 0 1 2 2) = 0 <->
   ~ winning_chain 2 (place 2 fresh2 0 0 "X") 1 /\
   ~ winning_chain 2 (place 2 fresh2 0 0 "X") 2) /\
  (winner (mkGame 1 0 true "a1" 0 1 2 2) <> 0 ->
   (winner (mkGame 1 0 true "a1" 0 1 2 2) = 1 \/
    winner (mkGame 1 0 true "a1" 0 1 2 2) = 2) /\
   winning_chain 2 (place 2 fresh2 0 0 "X") (winner (mkGame 1 0 true "a1" 0 1 2 2)) /\
   winnerAI 4 2 (place 2 fresh2 0 0 "X") 1 = Ret (winner (mkGame 1 0 true "a1" 0 1 2 2)) /\
   winnerAI 4 2 (place 2 fresh2 0 0 "X") 2 = Ret (winner (mkGame 1 0 true "a1" 0 1 2 2))).
Proof.
  apply (X20_turn_loop_knows_the_winner 4 no_shuffle 2 "N");
    [apply no_shuffle_perm | lia | lia |].
  apply rtc_once. split; [reflexivity |].
  exists 0, (fun _ it => it), "a1"%string. vm_compute. reflexivity.
Defined.

Lemma X21_witness :
  moveCount (mkGame 1 0 true "a1" 0 1 2 2) + movesAI (mkGame 1 0 true "a1" 0 1 2 2)
    <= 2 * 2 /\
  (in_play (mkGame 1 0 true "a1" 0 1 2 2) = true ->
   free_cells 2 (place 2 fresh2 0 0 "X") <> [] /\
   moveCount (mkGame 1 0 true "a1" 0 1 2 2) + movesAI (mkGame 1 0 true "a1" 0 1 2 2)
     < 2 * 2 /\
   (goesNext (mkGame 1 0 true "a1" 0 1 2 2) <> user (mkGame 1 0 true "a1" 0 1 2 2) ->
    forall tick0 ticks typed,
      exists s', turn 4 no_shuffle tick0 ticks typed 2 (place 2 fresh2 0 0 "X")
                   (mkGame 1 0 true "a1" 0 1 2 2) = Ret s')).
Proof.
  apply (X21_turn_loop_has_a_free_cell 4 no_shuffle 2 "N");
    [apply no_shuffle_perm | lia | lia |].
  apply rtc_once. split; [reflexivity |].
  exists 0, (fun _ it => it), "a1"%string. vm_compute. reflexivity.
Defined.

(** X22: the message at the end of [Game::start].  When the loop is left
    with a winner, the message names the side that has the winning chain:
    "YOU HAVE WON" with the number of stones of the user when the user has
    it, "AI has won" when the AI has it.  The count printed for the AI is
    [moveCount], the number of stones of the user: it is the number of
    moves of the AI when the AI is player 2, and one less than that when
    the AI is player 1, who moves first. *)
Theorem X22_final_message room shuffle n swap g st :
  (forall seed l, Permutation l (shuffle seed l)) ->
  2 <= n <= 11 -> 4 <= room ->
  rtc (round room shuffle n) (Graph_new n (n * n + 4), Game_start swap) (g, st) ->
  winner st <> 0 ->
  (winner st = user st /\ winning_chain n g (user st) /\
   final_report st = (UserWon, user st, stones n g (sign_of (user st)))) \/
  (winner st = computer st /\ winning_chain n g (computer st) /\
   final_report st = (AIWon, computer st, stones n g (sign_of (user st))) /\
   movesAI st = stones n g (sign_of (user st)) + (if computer st =? 1 then 1 else 0)).
Proof.
  intros Hperm Hn Hr R Nw.
  destruct (rounds_keep room shuffle n Hr Hperm Hn swap _ R)
    as (Hg & Hu & Hgn & Hm & Ha & Hb & H0 & H1).
  simpl in Hg, Hu, Hgn, Hm, Ha, Hb, H0, H1.
  destruct (H1 Nw) as (W12 & C & Cnt).
  unfold final_report. rewrite <- Ha, <- Hm.
  destruct Hu as [[U Cc] | [U Cc]], W12 as [W | W]; rewrite U, Cc, W in *;
    unfold sign_of in *; simpl in *; [left | right | right | left];
    split_and!; try done; lia.
Qed.

Lemma X22_witness :
  (winner (mkGame 1 2 true "b2" 1 2 1 1) = user (mkGame 1 2 true "b2" 1 2 1 1) /\
   winning_chain 2 (place 2 (place 2 (place 2 fresh2 0 0 "X") 1 1 "O") 1 0 "X")
     (user (mkGame 1 2 true "b2" 1 2 1 1)) /\
   final_report (mkGame 1 2 true "b2" 1 2 1 1) =
   (UserWon, user (mkGame 1 2 true "b2" 1 2 1 1),
    stones 2 (place 2 (place 2 (place 2 fresh2 0 0 "X") 1 1 "O") 1 0 "X")
      (sign_of (user (mkGame 1 2 true "b2" 1 2 1 1))))) \/
  (winner (mkGame 1 2 true "b2" 1 2 1 1) = computer (mkGame 1 2 true "b2" 1 2 1 1) /\
   winning_chain 2 (place 2 (place 2 (place 2 fresh2 0 0 "X") 1 1 "O") 1 0 "X")
     (computer (mkGame 1 2 true "b2" 1 2 1 1)) /\
   final_report (mkGame 1 2 true "b2" 1 2 1 1) =
   (AIWon, computer (mkGame 1 2 true "b2" 1 2 1 1),
    stones 2 (place 2 (place 2 (place 2 fresh2 0 0 "X") 1 1 "O") 1 0 "X")
      (sign_of (user (mkGame 1 2 true "b2" 1 2 1 1)))) /\
   movesAI (mkGame 1 2 true "b2" 1 2 1 1) =
   stones 2 (place 2 (place 2 (place 2 fresh2 0 0 "X") 1 1 "O") 1 0 "X")
     (sign_of (user (mkGame 1 2 true "b2" 1 2 1 1))) +
   (if computer (mkGame 1 2 true "b2" 1 2 1 1) =? 1 then 1 else 0)).
Proof.
  apply (X22_final_message 4 no_shuffle 2 "y");
    [apply no_shuffle_perm | lia | lia | | by vm_compute].
  apply (rtc_l _ _ (place 2 fresh2 0 0 "X", mkGame 0 1 true "" 0 2 1 2)).
  { split; [reflexivity |].
    exists 0, (fun _ it => it), ""%string. vm_compute. reflexivity. }
  apply (rtc_l _ _ (place 2 (place 2 fresh2 0 0 "X") 1 1 "O",
                     mkGame 1 1 true "b2" 0 2 1 1)).
  { split; [reflexivity |].
    exists 0, (fun _ it => it), "b2"%string. vm_compute. reflexivity. }
  apply rtc_once. split; [reflexivity |].
  exists 0, (fun _ it => it), ""%string. vm_compute. reflexivity.
Defined.

(** X23: the user can always move.  In every state the loop reaches in
    which the game is on and it is the turn of the user, for every empty
    cell of the board the entry that names it (column letter, then row
    number) is accepted: the round returns, the stone of the user is on
    the cell, [moveCount] is one more, and the turn passes to the AI
    unless the move has won. *)
Theorem X23_user_can_move room shuffle n swap g st x y tick0 ticks :
  (forall seed l, Permutation l (shuffle seed l)) ->
  2 <= n <= 11 -> 4 <= room ->
  rtc (round room shuffle n) (Graph_new n (n * n + 4), Game_start swap) (g, st) ->
  in_play st = true -> goesNext st = user st ->
  0 <= x < n -> 0 <= y < n -> get_sign g x y = "."%char ->
  exists st',
    turn room shuffle tick0 ticks (move_text x y) n g st =
      Ret (place n g x y (sign_of (user st)), st') /\
    moveCount st' = moveCount st + 1 /\ movesAI st' = movesAI st /\
    valid st' = true /\
    (winner st' = 0 -> goesNext st' = computer st) /\
    (winner st' <> 0 -> winner st' = user st).
Proof.
  intros Hperm Hn Hr R Play Eg Hx Hy Fr.
  pose proof (rounds_keep room shuffle n Hr Hperm Hn swap _ R) as Inv.
  pose proof Inv as (Hg & Hu & Hgn & Hm & Ha & Hb & H0 & H1).
  simpl in Hg, Hu, Hgn, Hm, Ha, Hb, H0, H1.
  pose proof (in_play_winner st Play) as W0.
  pose proof (reachable_sized n g ltac:(lia) Hg) as Sg.
  pose proof (printed_move n g x y (user st) Hn Sg Hx Hy Fr) as (_ & _ & Pm).
  assert (Su : sign_of (user st) = "X"%char \/ sign_of (user st) = "O"%char).
  { destruct Hu as [[-> _] | [-> _]]; [by left | by right]. }
  assert (Hu12 : user st = 1 \/ user st = 2).
  { destruct Hu as [[-> _] | [-> _]]; [by left | by right]. }
  pose proof (reachable_stone n g x y _ Hg Hx Hy Fr Su) as Hg'.
  destruct (winnerAI_spec n _ ltac:(lia) Hg' room (user st) Hr Hu12) as (w & Ew & _).
  assert (Ck : exists w',
            (if n <=? moveCount st + 1
             then winnerAI room n (place n g x y (sign_of (user st))) (user st)
             else Ret (winner st)) = Ret w').
  { destruct (n <=? moveCount st + 1); by eexists. }
  destruct Ck as (w' & Ck).
  assert (Ck2 : (if n <=? stones n g (sign_of (goesNext st)) + 1
                 then winnerAI room n (place n g x y (sign_of (goesNext st))) (goesNext st)
                 else Ret (winner st)) = Ret w') by (rewrite Eg, Hm; exact Ck).
  destruct (move_keeps room n Hr Hn g st x y (goesNext st) _ w' Inv W0 eq_refl Hx Hy Fr
              eq_refl Ck2) as (_ & _ & _ & _ & _ & _ & _ & T1).
  unfold turn. rewrite (proj2 (Z.eqb_eq _ _) Eg). cbn [negb]. rewrite Pm. cbn [bind].
  rewrite Ck. cbn [bind winner valid].
  destruct (Z.eqb_spec w' 0) as [-> | Nw]; cbn [negb].
  - eexists. split; [reflexivity |].
    cbn [moveCount movesAI valid winner goesNext]. split_and!; try done.
    intros _. rewrite Eg.
    destruct Hu as [[-> ->] | [-> ->]]; reflexivity.
  - eexists. split; [reflexivity |].
    cbn [moveCount movesAI valid winner goesNext]. split_and!; try done.
    intros _. destruct (T1 Nw) as (_ & _ & ->). by rewrite Eg.
Qed.

Lemma X23_witness :
  exists st',
    turn 4 no_shuffle 0 (fun _ it => it) (move_text 1 1) 2 (place 2 fresh2 0 0 "X")
      (mkGame 0 1 true "" 0 2 1 2) =
      Ret (place 2 (place 2 fresh2 0 0 "X") 1 1 (sign_of (user (mkGame 0 1 true "" 0 2 1 2))),
           st') /\
    moveCount st' = moveCount (mkGame 0 1 true "" 0 2 1 2) + 1 /\
    movesAI st' = movesAI (mkGame 0 1 true "" 0 2 1 2) /\
    valid st' = true /\
    (winner st' = 0 -> goesNext st' = computer (mkGame 0 1 true "" 0 2 1 2)) /\
    (winner st' <> 0 -> winner st' = user (mkGame 0 1 true "" 0 2 1 2)).
Proof.
  apply (X23_user_can_move 4 no_shuffle 2 "y" (place 2 fresh2 0 0 "X")
           (mkGame 0 1 true "" 0 2 1 2) 1 1 0 (fun _ it => it));
    [apply no_shuffle_perm | lia | lia | | reflexivity | reflexivity | lia | lia
     | by vm_compute].
  apply rtc_once. split; [reflexivity |].
  exists 0, (fun _ it => it), ""%string. vm_compute. reflexivity.
Defined.

(** ** The counter of edges *)

Lemma in_node_pairs nv q :
  In q (node_pairs nv) <-> 0 <= q.1 /\ q.1 < q.2 /\ q.2 < nv.
Proof.
  unfold node_pairs. rewrite List.filter_In, in_cells, Z.ltb_lt. lia.
Qed.

Lemma NoDup_node_pairs nv : NoDup (node_pairs nv).
Proof.
  unfold node_pairs. apply NoDup_ListNoDup, List.NoDup_filter, NoDup_ListNoDup, NoDup_cells.
Qed.

Lemma get_edge_value_set_edge_value n g x y u v :
  sized n g ->
  0 <= x < n * n + 4 -> 0 <= y < n * n + 4 ->
  0 <= u < n * n + 4 -> 0 <= v < n * n + 4 ->
  get_edge_value (set_edge_value g x y 1) u v =
  if ((u =? x) && (v =? y)) || ((u =? y) && (v =? x)) then 1
  else get_edge_value g u v.
Proof.
  intros (Hn & Ha & Hs) Hx Hy Hu Hv.
  unfold get_edge_value, set_edge_value; simpl. rewrite Hn.
  set (nv := n * n + 4) in *.
  pose proof (idx_range nv x y Hx Hy) as Rxy.
  pose proof (idx_range nv y x Hy Hx) as Ryx.
  destruct (Z.eq_dec (u * nv + v) (x * nv + y)) as [E1 | N1].
  - rewrite E1, vget_vset_eq by (rewrite length_vset; lia).
    apply idx_inj in E1 as [-> ->]; [| lia | lia]. by rewrite !Z.eqb_refl.
  - rewrite vget_vset_ne by congruence.
    destruct (Z.eq_dec (u * nv + v) (y * nv + x)) as [E2 | N2].
    + rewrite E2, vget_vset_eq by lia.
      apply idx_inj in E2 as [-> ->]; [| lia | lia].
      rewrite !Z.eqb_refl. by rewrite orb_true_r.
    + rewrite vget_vset_ne by congruence.
      destruct (Z.eqb_spec u x) as [Eu | ?], (Z.eqb_spec v y) as [Ev | ?];
        destruct (Z.eqb_spec u y) as [Eu' | ?], (Z.eqb_spec v x) as [Ev' | ?];
        cbn [andb orb]; try done; exfalso; subst; first [by apply N1 | by apply N2].
Qed.

Lemma for_each_cons {S} i idx (body : Z -> S -> S) s :
  for_each (i :: idx) body s = for_each idx body (body i s).
Proof. reflexivity. Qed.

(** The loop of the constructor that clears the diagonal. *)
Lemma diagonal_cleared nv idx :
  forall g, numVertices g = nv ->
  Z.of_nat (List.length (adjMatrix g)) = nv * nv ->
  (forall i, In i idx -> 0 <= i < nv) ->
  forall u v, 0 <= u < nv -> 0 <= v < nv ->
  vget 0 (adjMatrix
    (for_each idx
       (fun i g => mkGraph (vset (adjMatrix g) (i * nv + i) 0) (sign g)
                     (numVertices g) (numEdges g) (startNode g) (endNode g)) g))
    (u * nv + v) =
  if (u =? v) && bool_decide (u ∈ idx) then 0 else vget 0 (adjMatrix g) (u * nv + v).
Proof.
  induction idx as [|i idx IH]; intros g Hnv Hl Hidx u v Hu Hv.
  - cbn [for_each fold_left]. by rewrite andb_false_r.
  - rewrite for_each_cons, IH; try done.
    + cbn [adjMatrix].
      assert (Ri : 0 <= i < nv) by (apply Hidx; by left).
      pose proof (idx_range nv i i Ri Ri) as Rii.
      destruct (Z.eqb_spec u v) as [<- | Nuv]; cbn [andb].
      * destruct (bool_decide_reflect (u ∈ idx)) as [I | NI].
        -- rewrite bool_decide_eq_true_2; [done | by right].
        -- destruct (Z.eq_dec i u) as [-> | Niu].
           ++ rewrite bool_decide_eq_true_2 by (by left).
              apply vget_vset_eq. lia.
           ++ rewrite bool_decide_eq_false_2.
              ** apply vget_vset_ne. intros EE. apply idx_inj in EE; lia.
              ** intros I. apply elem_of_cons in I as [I | I]; [congruence | done].
      * apply vget_vset_ne. intros EE. apply idx_inj in EE; lia.
    + cbn [adjMatrix]. by rewrite length_vset.
    + intros j Hj. apply Hidx. by right.
Qed.

Lemma counted_set_sign n g x y s : counted n g -> counted n (set_sign g x y s).
Proof.
  intros (Sg & Sym & Irr & Cnt & Val). split_and!; [| | | | exact Val].
  - by apply sized_set_sign.
  - intros u v Hu Hv. rewrite !adjacent_set_sign. by apply Sym.
  - intros u Hu. rewrite adjacent_set_sign. by apply Irr.
  - unfold E, edge_count in *. cbn [numEdges numVertices set_sign]. rewrite Cnt.
    reflexivity.
Qed.

(** [set_edge_value] counts an edge when it is new. *)
Lemma counted_set_edge_value n g x y :
  counted n g -> 0 <= x < n * n + 4 -> 0 <= y < n * n + 4 -> x <> y ->
  counted n (set_edge_value g x y 1).
Proof.
  intros (Sg & Sym & Irr & Cnt & Val) Hx Hy Nxy.
  pose proof Sg as (Hnv & _).
  assert (A : forall u v, 0 <= u < n * n + 4 -> 0 <= v < n * n + 4 ->
            adjacent (set_edge_value g x y 1) u v =
            adjacent g u v || ((u =? x) && (v =? y)) || ((u =? y) && (v =? x))).
  { intros u v Hu Hv. apply Bool.eq_iff_eq_true.
    rewrite (adjacent_set_edge_value n) by done.
    rewrite !orb_true_iff, !andb_true_iff, !Z.eqb_eq. tauto. }
  split_and!; [| | | |
    intros u v Hu Hv; rewrite (get_edge_value_set_edge_value n), A, Val by done;
    destruct (Z.eqb_spec u x) as [Eu | ?], (Z.eqb_spec v y) as [Ev | ?];
      destruct (Z.eqb_spec u y) as [Eu' | ?], (Z.eqb_spec v x) as [Ev' | ?];
      destruct (Z.eqb_spec u v) as [Euv | ?]; cbn [andb orb];
      rewrite ?orb_false_r, ?orb_true_r; try done; lia].
  - by apply sized_set_edge_value.
  - intros u v Hu Hv. rewrite !A by done. rewrite (Sym u v) by done.
    destruct (adjacent g v u), (u =? x), (v =? y), (u =? y), (v =? x); done.
  - intros u Hu. rewrite A by done. rewrite Irr by done.
    destruct (Z.eqb_spec u x), (Z.eqb_spec u y); try done. lia.
  - unfold E, edge_count in *. cbn [numEdges numVertices set_edge_value].
    rewrite Hnv in *.
    destruct (adjacent g x y) eqn:Axy.
    + rewrite Cnt. do 2 f_equal. apply List.filter_ext_in. intros [u v] Hq.
      apply in_node_pairs in Hq. simpl in *. rewrite A by lia.
      apply Bool.eq_iff_eq_true.
      rewrite !orb_true_iff, !andb_true_iff, !Z.eqb_eq.
      split; [tauto | intros [[H | [Eu Ev]] | [Eu Ev]]]; subst; try done.
      by rewrite Sym by lia.
    + rewrite Cnt.
      set (j := if x <? y then (x, y) else (y, x)).
      assert (Hj : In j (node_pairs (n * n + 4))).
      { apply in_node_pairs. unfold j. destruct (Z.ltb_spec x y); simpl; lia. }
      assert (Ayx : adjacent g y x = false) by (by rewrite Sym, Axy by lia).
      rewrite <- (filter_flip_pairs
                    (fun q => adjacent (set_edge_value g x y 1) q.1 q.2)
                    (fun q => adjacent g q.1 q.2) (node_pairs (n * n + 4)) j).
      * lia.
      * apply NoDup_node_pairs.
      * exact Hj.
      * unfold j. destruct (Z.ltb_spec x y); simpl; rewrite A by lia;
          rewrite !Z.eqb_refl; simpl; by rewrite ?orb_true_r.
      * unfold j. destruct (Z.ltb_spec x y); simpl; done.
      * intros [u v] Hq Nq. apply in_node_pairs in Hq. simpl in *. rewrite A by lia.
        apply Bool.eq_iff_eq_true.
        rewrite !orb_true_iff, !andb_true_iff, !Z.eqb_eq.
        split; [tauto | intros [[H | [Eu Ev]] | [Eu Ev]]]; subst; try done;
          exfalso; apply Nq; unfold j; destruct (Z.ltb_spec x y); first [done | lia].
Qed.

Lemma counted_for_each_edges n a idx g :
  counted n g -> 0 <= a < n * n + 4 ->
  (forall i, In i idx -> 0 <= i < n * n + 4 /\ i <> a) ->
  counted n (for_each idx (fun i g => set_edge_value g a i 1) g).
Proof.
  intros Cg Ha Hidx. apply (for_each_inv (counted n)); [done |].
  intros i h Hi Ch. destruct (Hidx i Hi) as [Ri Ni].
  apply counted_set_edge_value; try done; congruence.
Qed.

Lemma counted_border_block n g a c idx :
  counted n g -> 0 <= a < n * n + 4 ->
  (forall i, In i idx -> 0 <= i < n * n + 4 /\ i <> a) ->
  counted n (border_block n g a c idx).
Proof.
  intros Cg Ha Hidx. unfold border_block.
  apply counted_for_each_edges; try done. by apply counted_set_sign.
Qed.

Lemma counted_new_blank n : counted n (new_blank (n * n + 4)).
Proof.
  assert (Hnv : 0 <= n * n + 4) by nia.
  pose proof (blank_new_blank (n * n + 4) Hnv) as B.
  assert (N0 : numEdges (new_blank (n * n + 4)) = 0).
  { unfold new_blank. by apply (for_each_inv (fun g => numEdges g = 0)). }
  split_and!.
  - by apply sized_blank.
  - intros u v _ _. by rewrite !(blank_adjacent _ _ _ _ B).
  - intros u _. by apply (blank_adjacent _ _ _ _ B).
  - unfold E, edge_count. rewrite N0, filter_nil_length; [done |].
    intros q _. by apply (blank_adjacent _ _ _ _ B).
  - intros u v Hu Hv. rewrite (blank_adjacent _ _ _ _ B).
    destruct B as (Bnv & _). unfold get_edge_value. rewrite Bnv.
    unfold new_blank. rewrite diagonal_cleared; try done.
    + cbn [adjMatrix]. destruct (Z.eqb_spec u v) as [<- | Nuv]; cbn [andb].
      * rewrite bool_decide_eq_true_2; [done |].
        apply list_elem_of_In, in_loop_up1; lia.
      * apply vget_replicate. pose proof (idx_range (n * n + 4) u v Hu Hv).
        rewrite Z2Nat.id by nia. lia.
    + cbn [adjMatrix]. rewrite length_replicate. rewrite Z2Nat.id by nia. done.
    + intros i Hi. apply in_loop_up1 in Hi; lia.
Qed.

Lemma counted_new_east n : 2 <= n -> counted n (new_east n (n * n + 4)).
Proof.
  intros Hn.
  assert (C1 : counted n (new_north n (n * n + 4))).
  { apply counted_border_block; [apply counted_new_blank | nia |].
    intros i Hi. apply in_loop_up1 in Hi; [nia | lia]. }
  assert (V1 : V (new_north n (n * n + 4)) = n * n).
  { destruct C1 as ((Hnv & _) & _). unfold V. lia. }
  assert (C2 : counted n (new_south n (n * n + 4))).
  { apply counted_border_block; [done | nia |]. rewrite V1.
    intros i Hi. apply in_loop_down in Hi; [nia | lia]. }
  assert (V2 : V (new_south n (n * n + 4)) = n * n).
  { destruct C2 as ((Hnv & _) & _). unfold V. lia. }
  assert (C3 : counted n (new_west n (n * n + 4))).
  { apply counted_border_block; [done | nia |]. rewrite V2.
    intros i Hi. apply in_loop_up in Hi; [nia | lia | lia]. }
  assert (V3 : V (new_west n (n * n + 4)) = n * n).
  { destruct C3 as ((Hnv & _) & _). unfold V. lia. }
  apply counted_border_block; [done | nia |]. rewrite V3.
  intros i Hi. apply in_loop_up in Hi; [nia | lia | nia].
Qed.

Lemma counted_Graph_new n : 2 <= n -> counted n (Graph_new n (n * n + 4)).
Proof.
  intros Hn. rewrite Graph_new_blocks.
  destruct (counted_new_east n Hn) as (Sg & Sym & Irr & Cnt & Val).
  split_and!; done.
Qed.

Lemma counted_setEdges n x y g :
  2 <= n -> 0 <= x < n -> 0 <= y < n -> counted n g -> counted n (setEdges n x y g).
Proof.
  intros Hn Hx Hy Cg. unfold setEdges.
  repeat match goal with
         | |- context [?a <? ?b] => destruct (Z.ltb_spec a b)
         end;
    repeat (apply counted_set_edge_value; [| nia | nia | nia]); done.
Qed.

Lemma counted_reachable n g : 2 <= n -> reachable n g -> counted n g.
Proof.
  intros Hn Hg. induction Hg as [| g x y s Hg IH Hx Hy Fr Hs].
  - by apply counted_Graph_new.
  - unfold place. apply counted_setEdges; try done. by apply counted_set_sign.
Qed.

(** X24: [E] counts the edges, and the matrix holds the weights the class
    means.  On every board reached by legal moves the counter that
    [set_edge_value] keeps is the number of edges in the adjacency matrix,
    each edge counted once: the pairs of nodes [u < v] that [adjacent]
    reports ([set_edge_value] adds 1 only for an edge that was not there).
    The matrix holds 0 on the diagonal, 1 between the two ends of an edge
    and [INFINIT] between any two other nodes. *)
Theorem X24_E_counts_the_edges n g :
  2 <= n -> reachable n g ->
  E g = edge_count g /\
  (forall u v, 0 <= u < n * n + 4 -> 0 <= v < n * n + 4 ->
     get_edge_value g u v =
     if u =? v then 0 else if adjacent g u v then 1 else INFINIT).
Proof.
  intros Hn Hg. destruct (counted_reachable n g Hn Hg) as (_ & _ & _ & Cnt & Val). done.
Qed.

Lemma X24_witness :
  E (place 2 fresh2 0 0 "X") = edge_count (place 2 fresh2 0 0 "X") /\
  (forall u v, 0 <= u < 2 * 2 + 4 -> 0 <= v < 2 * 2 + 4 ->
     get_edge_value (place 2 fresh2 0 0 "X") u v =
     if u =? v then 0 else if adjacent (place 2 fresh2 0 0 "X") u v then 1 else INFINIT).
Proof.
  apply (X24_E_counts_the_edges 2 (place 2 fresh2 0 0 "X")); [lia |].
  apply reachable_place; [apply (reachable_new 2) | lia | lia | by vm_compute | by left].
Defined.

(** ** Stones and simulations *)

(** X25: a move changes one sign.  After [set_sign] and [setEdges] at a
    cell (x,y) of the board, [get_sign] returns the new sign at (x,y) and
    what it returned before at every other cell of the board, and the
    signs of the four virtual nodes and the start and end nodes of the
    players are as before. *)
Theorem X25_move_changes_one_sign n g x y s :
  2 <= n -> sized n g -> 0 <= x < n -> 0 <= y < n ->
  (forall a b, 0 <= a < n -> 0 <= b < n ->
     get_sign (place n g x y s) a b =
     if (a =? x) && (b =? y) then s else get_sign g a b) /\
  (forall u, n * n <= u < n * n + 4 ->
     node_sign n (place n g x y s) u = node_sign n g u) /\
  (forall p, get_startNode (place n g x y s) p = get_startNode g p /\
             get_endNode (place n g x y s) p = get_endNode g p).
Proof.
  intros Hn Sg Hx Hy. split_and!.
  - intros a b Ha Hb. by apply get_sign_place_at.
  - intros u Hu. rewrite node_sign_place by first [done | lia].
    pose proof (cell_range n x y Hx Hy).
    destruct (Z.eqb_spec u (cell n x y)); [lia | done].
  - intros p. unfold get_startNode, get_endNode, place.
    by destruct (ends_setEdges n x y (set_sign g x y s)) as [-> ->].
Qed.

Lemma X25_witness :
  (forall a b, 0 <= a < 2 -> 0 <= b < 2 ->
     get_sign (place 2 fresh2 1 0 "O") a b =
     if (a =? 1) && (b =? 0) then "O"%char else get_sign fresh2 a b) /\
  (forall u, 2 * 2 <= u < 2 * 2 + 4 ->
     node_sign 2 (place 2 fresh2 1 0 "O") u = node_sign 2 fresh2 u) /\
  (forall p, get_startNode (place 2 fresh2 1 0 "O") p = get_startNode fresh2 p /\
             get_endNode (place 2 fresh2 1 0 "O") p = get_endNode fresh2 p).
Proof.
  apply (X25_move_changes_one_sign 2 fresh2 1 0 "O"); [lia | | lia | lia].
  split_and!; by vm_compute.
Defined.

Section Playout.

Variable room : Z.
Variable n : Z.
Hypothesis Hroom : 4 <= room.
Hypothesis Hn : 2 <= n.

(** The loop of a simulation asks for the winner once, when the last cell
    of the list has its stone. *)
Lemma playout_played p sg sgH rest :
  forall currentG goesNext,
  rest <> [] ->
  playout room n p sg sgH rest currentG (Z.of_nat (List.length rest)) goesNext 0 =
  let* w := winnerAI room n (played n p sg sgH rest currentG goesNext) p in
  if w =? 0 then Fault PastTheEnd else Ret w.
Proof.
  induction rest as [|[i j] rest IH]; intros currentG goesNext Hne; [done |].
  cbn [playout played]. cbn [Z.eqb].
  set (g1 := if goesNext =? p then place n currentG i j sg else place n currentG i j sgH).
  destruct rest as [|q rest].
  - cbn [List.length played]. change (Z.of_nat 1 - 1 =? 0) with true.
    destruct (winnerAI room n g1 p) as [w | f]; cbn [bind]; [| done].
    cbn [playout]. by destruct (w =? 0).
  - replace (Z.of_nat (List.length ((i, j) :: q :: rest)) - 1)
      with (Z.of_nat (List.length (q :: rest))) by (cbn [List.length]; lia).
    destruct (Z.eqb_spec (Z.of_nat (List.length (q :: rest))) 0) as [E0 | _];
      [cbn [List.length] in E0; lia |].
    cbn [bind]. by apply IH.
Qed.

Lemma played_reachable p sg sgH rest :
  sg = "X"%char \/ sg = "O"%char -> sgH = "X"%char \/ sgH = "O"%char ->
  forall currentG goesNext,
  reachable n currentG -> NoDup rest ->
  (forall q, In q rest <-> is_free n currentG q) ->
  reachable n (played n p sg sgH rest currentG goesNext) /\
  full n (played n p sg sgH rest currentG goesNext).
Proof using Hn.
  intros Hsg HsgH.
  induction rest as [|[i j] rest IH]; intros currentG goesNext Hg Hnd Hin.
  - cbn [played]. split; [done |]. apply full_no_free. intros q Hq. by apply Hin in Hq.
  - cbn [played].
    apply NoDup_cons in Hnd as [Hhd Hnd].
    assert (Fij : is_free n currentG (i, j)) by (apply Hin; by left).
    destruct Fij as (Hi & Hj & Eij). simpl in Hi, Hj, Eij.
    set (s := if goesNext =? p then sg else sgH).
    assert (Hs : s = "X"%char \/ s = "O"%char)
      by (unfold s; destruct (goesNext =? p); done).
    assert (EG : (if goesNext =? p then place n currentG i j sg
                  else place n currentG i j sgH) = place n currentG i j s)
      by (unfold s; destruct (goesNext =? p); done).
    rewrite EG. apply IH; try done.
    + by apply reachable_place.
    + intros q. rewrite (is_free_place n currentG i j s q Hn
                           (reachable_sized n _ Hn Hg) Hi Hj Hs).
      rewrite <- Hin. simpl. split.
      * intros H. split; [by right |]. intros ->. apply Hhd.
        by apply list_elem_of_In.
      * intros [[H | H] Hne]; [congruence | done].
Qed.

End Playout.

(** X26: a simulation plays the game to the end.  From a board reached by
    legal moves that has an empty cell, with the shuffled list of its
    empty cells and the signs [probMonteCarlo] gives the two players, the
    loop of one simulation started with no winner puts a stone on every
    cell of the list in turn, the players alternating from the one given,
    asks [winnerAI] once, on the board that is then full, and returns what
    it answers: player 1 or player 2. *)
Theorem X26_simulation_plays_to_full_board room shuffle n g p tick goesNext :
  (forall seed l, Permutation l (shuffle seed l)) ->
  2 <= n <= 11 -> 4 <= room -> reachable n g -> p = 1 \/ p = 2 ->
  free_cells n g <> [] ->
  exists w,
    playout room n p (if p =? 1 then "X"%char else "O"%char) (if p =? 1 then "O"%char else "X"%char)
      (availablePositions shuffle tick n g) g
      (Z.of_nat (List.length (availablePositions shuffle tick n g))) goesNext 0 = Ret w /\
    (w = 1 \/ w = 2) /\
    winnerAI room n
      (played n p (if p =? 1 then "X"%char else "O"%char) (if p =? 1 then "O"%char else "X"%char)
         (availablePositions shuffle tick n g) g goesNext) p = Ret w /\
    (forall x y, 0 <= x < n -> 0 <= y < n ->
       get_sign (played n p (if p =? 1 then "X"%char else "O"%char)
                   (if p =? 1 then "O"%char else "X"%char)
                   (availablePositions shuffle tick n g) g goesNext) x y <> "."%char).
Proof.
  intros Hperm Hn Hr Hg Hp Hf.
  set (rest := availablePositions shuffle tick n g).
  set (sg := (if p =? 1 then "X"%char else "O"%char)).
  set (sgH := (if p =? 1 then "O"%char else "X"%char)).
  assert (Hne : rest <> []).
  { intros EE. apply Hf. apply Permutation_nil. unfold rest, availablePositions in EE.
    rewrite <- EE. apply Permutation_sym, Hperm. }
  assert (S1 : sg = "X"%char \/ sg = "O"%char)
    by (destruct Hp as [-> | ->]; [by left | by right]).
  assert (S2 : sgH = "X"%char \/ sgH = "O"%char)
    by (destruct Hp as [-> | ->]; [by right | by left]).
  destruct (played_reachable n ltac:(lia) p _ _ rest S1 S2 g goesNext Hg)
    as [Hg' F].
  { by apply NoDup_available. }
  { intros q. by apply in_available. }
  destruct (winnerAI_full n _ ltac:(lia) Hg' room p Hr Hp F) as (w & Ew & W12).
  exists w. rewrite playout_played by done. rewrite Ew. cbn [bind].
  split_and!; try done.
  destruct W12 as [-> | ->]; done.
Qed.

Lemma X26_witness :
  exists w,
    playout 4 2 1 (if 1 =? 1 then "X"%char else "O"%char) (if 1 =? 1 then "O"%char else "X"%char)
      (availablePositions no_shuffle 0 2 fresh2) fresh2
      (Z.of_nat (List.length (availablePositions no_shuffle 0 2 fresh2))) 2 0 = Ret w /\
    (w = 1 \/ w = 2) /\
    winnerAI 4 2
      (played 2 1 (if 1 =? 1 then "X"%char else "O"%char) (if 1 =? 1 then "O"%char else "X"%char)
         (availablePositions no_shuffle 0 2 fresh2) fresh2 2) 1 = Ret w /\
    (forall x y, 0 <= x < 2 -> 0 <= y < 2 ->
       get_sign (played 2 1 (if 1 =? 1 then "X"%char else "O"%char)
                   (if 1 =? 1 then "O"%char else "X"%char)
                   (availablePositions no_shuffle 0 2 fresh2) fresh2 2) x y <> "."%char).
Proof.
  apply (X26_simulation_plays_to_full_board 4 no_shuffle 2 fresh2 1 0 2);
    [apply no_shuffle_perm | lia | lia | apply (reachable_new 2) | by left | by vm_compute].
Defined.

Section Rate.

Variable room : Z.
Variable shuffle : Z -> list (Z * Z) -> list (Z * Z).
Variable n : Z.
Hypothesis Hroom : 4 <= room.
Hypothesis Hperm : forall seed l, Permutation l (shuffle seed l).
Hypothesis Hn : 2 <= n <= 11.

Variables (h : Graph) (p : Z).
Hypothesis Hh : reachable n h.
Hypothesis Hp : p = 1 \/ p = 2.
Hypothesis Hfree : free_cells n h <> [].

(** One simulation on a board that is not decided. *)
Lemma playout_won tick :
  exists w,
    playout room n p (if p =? 1 then "X"%char else "O"%char)
      (if p =? 1 then "O"%char else "X"%char)
      (availablePositions shuffle tick n h) h
      (Z.of_nat (List.length (availablePositions shuffle tick n h)))
      (Z.rem (p * 2) 3) 0 = Ret w /\
    (w =? p) = won_simulation room shuffle n h p tick.
Proof using Hroom Hperm Hn Hh Hp Hfree.
  set (rest := availablePositions shuffle tick n h).
  set (sg := if p =? 1 then "X"%char else "O"%char).
  set (sgH := if p =? 1 then "O"%char else "X"%char).
  assert (Hne : rest <> []).
  { intros EE. apply Hfree. apply Permutation_nil. unfold rest, availablePositions in EE.
    rewrite <- EE. apply Permutation_sym, Hperm. }
  assert (S1 : sg = "X"%char \/ sg = "O"%char)
    by (destruct Hp as [-> | ->]; [by left | by right]).
  assert (S2 : sgH = "X"%char \/ sgH = "O"%char)
    by (destruct Hp as [-> | ->]; [by right | by left]).
  destruct (played_reachable n ltac:(lia) p _ _ rest S1 S2 h (Z.rem (p * 2) 3) Hh)
    as [Hg' F].
  { by apply NoDup_available. }
  { intros q. by apply in_available. }
  destruct (winnerAI_full n _ ltac:(lia) Hg' room p Hroom Hp F) as (w & Ew & W12).
  exists w. rewrite playout_played by done. rewrite Ew. cbn [bind].
  unfold won_simulation. fold rest sg sgH. rewrite Ew.
  split; [| done]. destruct W12 as [-> | ->]; done.
Qed.

Lemma wins_S ticks rounds first :
  wins room shuffle n h p ticks (S rounds) first =
  (if won_simulation room shuffle n h p (ticks first) then 1 else 0) +
  wins room shuffle n h p ticks rounds (first + 1).
Proof.
  unfold wins. cbn [loop_up].
  destruct (Z.ltb_spec first (first + Z.of_nat (S rounds))) as [_ | Bad]; [| lia].
  replace (first + Z.of_nat (S rounds)) with (first + 1 + Z.of_nat rounds) by lia.
  cbn [List.filter]. destruct (won_simulation _ _ _ _ _ _); cbn [List.length]; lia.
Qed.

(** The simulations of a candidate, all of them run: the number of wins
    is the number of simulations that end on a board the player has won. *)
Lemma all_simulations_wins ticks rounds :
  forall it numwins,
  all_simulations room shuffle rounds ticks n h p
    (if p =? 1 then "X"%char else "O"%char) (if p =? 1 then "O"%char else "X"%char)
    0 it numwins =
  Ret (numwins + wins room shuffle n h p ticks rounds it).
Proof using Hroom Hperm Hn Hh Hp Hfree.
  induction rounds as [|r IH]; intros it numwins.
  - cbn [all_simulations]. unfold wins. cbn [loop_up List.filter List.length]. f_equal. lia.
  - cbn [all_simulations]. destruct (playout_won (ticks it)) as (w & -> & Ew).
    cbn [bind]. rewrite Ew, IH, wins_S. f_equal.
    destruct (won_simulation _ _ _ _ _ _); lia.
Qed.

End Rate.

(** ** The evaluator on doubles returns the same cell *)

(** The two tests of the evaluator, on the doubles the program computes:
    for all numbers [w] and [m] of wins from 0 to [SIMUL],
    [w / SIMUL * SIMUL < m] and [w / SIMUL < m / SIMUL] hold on doubles
    exactly when [w < m], and -1 is below every rate. *)
Lemma doubles_exact :
  forallb (fun w => forallb (fun m => cutoff_test_exact w m && rate_test_exact w m)
                      win_counts) win_counts
  && forallb first_test_exact win_counts = true.
Proof. vm_compute. reflexivity. Qed.

Lemma in_win_counts w : 0 <= w <= SIMUL -> In w win_counts.
Proof.
  intros Hw. unfold win_counts. rewrite <- (Z2Nat.id w) by lia.
  apply in_map, in_seq. unfold SIMUL in Hw. lia.
Qed.

Lemma cutoff_test_double w m :
  0 <= w <= SIMUL -> 0 <= m <= SIMUL ->
  PrimFloat.ltb (PrimFloat.mul (rate_double w) (double_of_int SIMUL))
    (double_of_int m) = (w <? m).
Proof.
  intros Hw Hm. pose proof doubles_exact as E.
  apply andb_true_iff in E as [E _].
  rewrite forallb_forall in E. specialize (E w (in_win_counts w Hw)).
  rewrite forallb_forall in E. specialize (E m (in_win_counts m Hm)).
  apply andb_true_iff in E as [E _]. by apply Bool.eqb_prop in E.
Qed.

Lemma rate_test_double w m :
  0 <= w <= SIMUL -> 0 <= m <= SIMUL ->
  PrimFloat.ltb (rate_double w) (rate_double m) = (w <? m).
Proof.
  intros Hw Hm. pose proof doubles_exact as E.
  apply andb_true_iff in E as [E _].
  rewrite forallb_forall in E. specialize (E w (in_win_counts w Hw)).
  rewrite forallb_forall in E. specialize (E m (in_win_counts m Hm)).
  apply andb_true_iff in E as [_ E]. by apply Bool.eqb_prop in E.
Qed.

Lemma first_test_double m :
  0 <= m <= SIMUL ->
  PrimFloat.ltb (PrimFloat.mul (double_of_int (-1)) (double_of_int SIMUL))
    (double_of_int m) = true /\
  PrimFloat.ltb (double_of_int (-1)) (rate_double m) = true.
Proof.
  intros Hm. pose proof doubles_exact as E.
  apply andb_true_iff in E as [_ E].
  rewrite forallb_forall in E. specialize (E m (in_win_counts m Hm)).
  by apply andb_true_iff in E.
Qed.

(** The same tests on the rationals. *)
Lemma cutoff_test_rational w m :
  Qltb (inject_Z w / inject_Z SIMUL * inject_Z SIMUL) (inject_Z m) = (w <? m).
Proof.
  apply eq_iff_eq_true. rewrite Qltb_lt, Z.ltb_lt.
  unfold Qlt, SIMUL. simpl. lia.
Qed.

Lemma rate_test_rational w m :
  Qltb (inject_Z w / inject_Z SIMUL) (inject_Z m / inject_Z SIMUL) = (w <? m).
Proof.
  apply eq_iff_eq_true. rewrite Qltb_lt, Z.ltb_lt.
  unfold Qlt, SIMUL. simpl. lia.
Qed.

Lemma first_test_rational m :
  0 <= m ->
  Qltb (-1 * inject_Z SIMUL) (inject_Z m) = true /\
  Qltb (-1) (inject_Z m / inject_Z SIMUL) = true.
Proof.
  intros Hm. rewrite !Qltb_lt. unfold Qlt, SIMUL. simpl. lia.
Qed.

Section DoublesAgree.

Variable room : Z.
Variable shuffle : Z -> list (Z * Z) -> list (Z * Z).

Lemma simulations_double_agrees rounds ticks n g d q p sg sgH wG it numwins :
  same_rate d q -> 0 <= numwins <= it -> it + Z.of_nat rounds <= SIMUL ->
  simulations_double room shuffle rounds ticks n g d p SIMUL sg sgH wG it numwins =
  simulations room shuffle rounds ticks n g q p SIMUL sg sgH wG it numwins.
Proof.
  intros R. revert it numwins.
  induction rounds as [|rounds IH]; intros it numwins Hw Hit;
    cbn [simulations_double simulations]; [done |].
  assert (T : PrimFloat.ltb (PrimFloat.mul d (double_of_int SIMUL))
                (double_of_int (SIMUL - it + numwins)) =
              Qltb (q * inject_Z SIMUL) (inject_Z (SIMUL - it + numwins))).
  { destruct R as [[-> ->] | (w & Hw' & -> & ->)].
    - destruct (first_test_double (SIMUL - it + numwins)) as [-> _]; [lia |].
      destruct (first_test_rational (SIMUL - it + numwins)) as [-> _]; [lia | done].
    - rewrite cutoff_test_double by lia. by rewrite cutoff_test_rational. }
  rewrite T. destruct (Qltb _ _); [| done].
  destruct (playout _ _ _ _ _ _ _ _ _ _) as [winner | f]; cbn [bind]; [| done].
  apply IH; [destruct (winner =? p) |]; lia.
Qed.

(** A call of [probMonteCarlo] on doubles and the call on rationals, made
    for [SIMUL] simulations with the same best rate, end alike: with the
    same fault, or with the rate of the same number of wins. *)
Lemma probMonteCarlo_double_agrees ticks n g i d q p :
  same_rate d q ->
  match probMonteCarlo_double room shuffle ticks n g i d p SIMUL,
        probMonteCarlo room shuffle ticks n g i q p SIMUL with
  | Ret d', Ret q' =>
      exists w, 0 <= w <= SIMUL /\ d' = rate_double w /\
                q' = (inject_Z w / inject_Z SIMUL)%Q
  | Fault f, Fault f' => f = f'
  | _, _ => False
  end.
Proof.
  intros R. unfold probMonteCarlo_double, probMonteCarlo. destruct i as [x y].
  destruct (winnerAI _ _ _ _) as [wG | f]; cbn [bind]; [| done].
  rewrite (simulations_double_agrees _ ticks n _ d q) by (done || (simpl; lia)).
  destruct (simulations _ _ _ _ _ _ _ _ _ _ _ _ _ _) as [w | f] eqn:E; cbn [bind];
    [| done].
  exists w. split; [| done].
  pose proof (simulations_ge _ _ _ _ _ _ _ _ _ _ _ _ _ _ _ E).
  pose proof (simulations_le _ _ _ _ _ _ _ _ _ _ _ _ _ _ _ E) as L.
  unfold SIMUL in *. simpl in L. lia.
Qed.

Lemma candidates_loop_double_agrees ticks n g p cands ci bm d q :
  same_rate d q ->
  candidates_loop_double room shuffle ticks n g p SIMUL cands ci bm d =
  candidates_loop room shuffle ticks n g p SIMUL cands ci bm q.
Proof.
  revert ci bm d q. induction cands as [|i rest IH]; intros ci bm d q R;
    cbn [candidates_loop_double candidates_loop]; [done |].
  pose proof (probMonteCarlo_double_agrees (ticks ci) n g i d q p R) as A.
  destruct (probMonteCarlo_double _ _ _ _ _ _ _ _ _) as [d' | f],
           (probMonteCarlo _ _ _ _ _ _ _ _ _) as [q' | f']; cbn [bind];
    [| done | done | by subst].
  destruct A as (w' & Hw' & -> & ->).
  assert (T : PrimFloat.ltb d (rate_double w') =
              Qltb q (inject_Z w' / inject_Z SIMUL)).
  { destruct R as [[-> ->] | (w & Hw & -> & ->)].
    - destruct (first_test_double w') as [_ ->]; [lia |].
      destruct (first_test_rational w') as [_ ->]; [lia | done].
    - rewrite rate_test_double by lia. by rewrite rate_test_rational. }
  rewrite T. destruct (Qltb _ _).
  - apply IH. right. by exists w'.
  - by apply IH.
Qed.

(** [monteCarloSims] on the doubles of the program returns what
    [monteCarloSims] on the rationals returns, whatever the board, the
    player, the shuffle and the clock are. *)
Lemma monteCarloSims_double_agrees tick0 ticks n g p :
  monteCarloSims_double room shuffle tick0 ticks n g p =
  monteCarloSims room shuffle tick0 ticks n g p.
Proof.
  unfold monteCarloSims_double, monteCarloSims.
  apply candidates_loop_double_agrees. by left.
Qed.

End DoublesAgree.

(** The rationals do not stand for the doubles at every number of
    simulations: with 49 of them, the rate of one win times 49 is below 1
    in doubles, and the two tests of the cutoff differ. *)
Lemma doubles_differ :
  PrimFloat.ltb
    (PrimFloat.mul (PrimFloat.div (double_of_int 1) (double_of_int 49))
       (double_of_int 49))
    (double_of_int 1) = true /\
  Qltb (inject_Z 1 / inject_Z 49 * inject_Z 49) (inject_Z 1) = false.
Proof. split; vm_compute; reflexivity. Qed.

(** ** The rate of a candidate *)

Lemma rate_inj w1 w2 k :
  0 < k -> (inject_Z w1 / inject_Z k)%Q = (inject_Z w2 / inject_Z k)%Q -> w1 = w2.
Proof.
  intros Hk E. assert (Q : (inject_Z w1 / inject_Z k == inject_Z w2 / inject_Z k)%Q)
    by (by rewrite E).
  destruct k as [|k|k]; try lia.
  unfold Qeq, Qdiv, Qmult, Qinv, inject_Z in Q. simpl in Q. nia.
Qed.

Section RateOf.

Variable room : Z.
Variable shuffle : Z -> list (Z * Z) -> list (Z * Z).

Lemma rate_is_share ticks n g x y bp p k :
  (forall seed l, Permutation l (shuffle seed l)) ->
  2 <= n <= 11 -> 4 <= room -> reachable n g ->
  0 <= x < n -> 0 <= y < n -> get_sign g x y = "."%char ->
  p = 1 \/ p = 2 -> 0 < k ->
  winnerAI room n (place n g x y (sign_of p)) p = Ret 0 ->
  probMonteCarlo_full room shuffle ticks n g (x, y) p k =
    Ret (inject_Z (wins room shuffle n (place n g x y (sign_of p)) p ticks (Z.to_nat k) 0)
         / inject_Z k)%Q /\
  0 <= wins room shuffle n (place n g x y (sign_of p)) p ticks (Z.to_nat k) 0 <= k /\
  exists qc,
    probMonteCarlo room shuffle ticks n g (x, y) bp p k = Ret qc /\
    (qc = (inject_Z (wins room shuffle n (place n g x y (sign_of p)) p ticks (Z.to_nat k) 0)
           / inject_Z k)%Q \/
     ((qc <= bp)%Q /\
      (inject_Z (wins room shuffle n (place n g x y (sign_of p)) p ticks (Z.to_nat k) 0)
       / inject_Z k <= bp)%Q)).
Proof.
  intros Hperm Hn Hr Hg Hx Hy Fr Hp Hk W0.
  set (h := place n g x y (sign_of p)) in *.
  assert (Hs : sign_of p = "X"%char \/ sign_of p = "O"%char)
    by (destruct Hp as [-> | ->]; [by left | by right]).
  assert (Hh : reachable n h) by (by apply reachable_place).
  assert (Hf : free_cells n h <> []).
  { destruct (winnerAI_spec n h ltac:(lia) Hh room p Hr Hp) as (w & Ew & _ & W1 & W2).
    rewrite W0 in Ew. injection Ew as <-.
    apply (no_chain_free n Hn h Hh); intros C; [apply W1 in C | apply W2 in C]; done. }
  assert (Full : probMonteCarlo_full room shuffle ticks n g (x, y) p k =
                 Ret (inject_Z (wins room shuffle n h p ticks (Z.to_nat k) 0) / inject_Z k)%Q).
  { unfold probMonteCarlo_full.
    change (if p =? 1 then "X"%char else "O"%char) with (sign_of p) at 1.
    fold h. rewrite W0. cbn [bind].
    rewrite (all_simulations_wins room shuffle n Hr Hperm Hn h p Hh Hp Hf). done. }
  split; [exact Full |]. split.
  - unfold wins. split; [lia |].
    pose proof (List.filter_length_le
                  (fun it => won_simulation room shuffle n h p (ticks it))
                  (loop_up (Z.to_nat k) 0 (0 + Z.of_nat (Z.to_nat k)) 1)) as L.
    rewrite length_loop_up1 in L by lia. lia.
  - destruct (probMonteCarlo_cutoff room shuffle n Hr Hperm ltac:(lia) g (x, y) p k ticks bp
                Hg ltac:(done) Hp Hk) as (qc & qf & Ec & Ef & D).
    rewrite Full in Ef. injection Ef as <-.
    exists qc. split; [exact Ec | exact D].
Qed.

End RateOf.

(** X27: what the rate of a candidate is.  On a board reached by legal
    moves, for an empty candidate cell whose stone does not win at once,
    with the [SIMUL] simulations of the program, the rate of the candidate
    when all its simulations are run is the share of the simulations that
    end, the board filled up in the shuffled order with alternating stones,
    on a board the player has won.  For a best rate that the program passes
    in, which is -1 or the rate [w / SIMUL] of an earlier candidate,
    [probMonteCarlo], with its cutoff, returns this rate, or else a rate
    that like this one does not beat the best rate; and the call on the
    doubles of the program returns the same rate as a double. *)
Theorem X27_rate_is_share_of_won_simulations room shuffle ticks n g x y bp p :
  (forall seed l, Permutation l (shuffle seed l)) ->
  2 <= n <= 11 -> 4 <= room -> reachable n g ->
  0 <= x < n -> 0 <= y < n -> get_sign g x y = "."%char ->
  p = 1 \/ p = 2 ->
  bp = (-1)%Q \/
    (exists w, 0 <= w <= SIMUL /\ bp = (inject_Z w / inject_Z SIMUL)%Q) ->
  winnerAI room n (place n g x y (sign_of p)) p = Ret 0 ->
  probMonteCarlo_full room shuffle ticks n g (x, y) p SIMUL =
    Ret (inject_Z (wins room shuffle n (place n g x y (sign_of p)) p ticks
                     (Z.to_nat SIMUL) 0)
         / inject_Z SIMUL)%Q /\
  0 <= wins room shuffle n (place n g x y (sign_of p)) p ticks (Z.to_nat SIMUL) 0
    <= SIMUL /\
  exists wc,
    0 <= wc <= SIMUL /\
    probMonteCarlo room shuffle ticks n g (x, y) bp p SIMUL =
      Ret (inject_Z wc / inject_Z SIMUL)%Q /\
    (wc = wins room shuffle n (place n g x y (sign_of p)) p ticks (Z.to_nat SIMUL) 0 \/
     ((inject_Z wc / inject_Z SIMUL <= bp)%Q /\
      (inject_Z (wins room shuffle n (place n g x y (sign_of p)) p ticks
                   (Z.to_nat SIMUL) 0)
       / inject_Z SIMUL <= bp)%Q)) /\
    forall d, same_rate d bp ->
      probMonteCarlo_double room shuffle ticks n g (x, y) d p SIMUL =
        Ret (rate_double wc).
Proof.
  intros Hperm Hn Hr Hg Hx Hy Fr Hp Hbp W0.
  pose proof (rate_is_share room shuffle ticks n g x y bp p SIMUL Hperm Hn Hr Hg Hx Hy
                Fr Hp ltac:(done) W0) as (Full & B & qc & Ec & D).
  split; [exact Full |]. split; [exact B |].
  assert (R0 : exists d0, same_rate d0 bp).
  { destruct Hbp as [-> | (w & Hw & ->)].
    - exists (double_of_int (-1)). by left.
    - exists (rate_double w). right. by exists w. }
  destruct R0 as (d0 & R0).
  pose proof (probMonteCarlo_double_agrees room shuffle ticks n g (x, y) d0 bp p R0) as A.
  rewrite Ec in A.
  destruct (probMonteCarlo_double _ _ _ _ _ _ _ _ _) as [d' | f]; [| done].
  destruct A as (wc & Hwc & _ & ->).
  exists wc. split; [exact Hwc |]. split; [exact Ec |]. split.
  - destruct D as [D | D]; [| by right].
    left. apply (rate_inj _ _ SIMUL) in D; done.
  - intros d R.
    pose proof (probMonteCarlo_double_agrees room shuffle ticks n g (x, y) d bp p R) as A.
    rewrite Ec in A.
    destruct (probMonteCarlo_double _ _ _ _ _ _ _ _ _) as [d1 | f]; [| done].
    destruct A as (w' & Hw' & -> & E).
    apply (rate_inj _ _ SIMUL) in E; [by subst | done].
Qed.

Lemma X27_witness :
  probMonteCarlo_full 4 no_shuffle (fun it => it) 2 fresh2 (0, 0) 1 SIMUL =
    Ret (inject_Z (wins 4 no_shuffle 2 (place 2 fresh2 0 0 (sign_of 1)) 1 (fun it => it)
                     (Z.to_nat SIMUL) 0) / inject_Z SIMUL)%Q /\
  0 <= wins 4 no_shuffle 2 (place 2 fresh2 0 0 (sign_of 1)) 1 (fun it => it)
         (Z.to_nat SIMUL) 0 <= SIMUL /\
  exists wc,
    0 <= wc <= SIMUL /\
    probMonteCarlo 4 no_shuffle (fun it => it) 2 fresh2 (0, 0) (-1)%Q 1 SIMUL =
      Ret (inject_Z wc / inject_Z SIMUL)%Q /\
    (wc = wins 4 no_shuffle 2 (place 2 fresh2 0 0 (sign_of 1)) 1 (fun it => it)
            (Z.to_nat SIMUL) 0 \/
     ((inject_Z wc / inject_Z SIMUL <= -1)%Q /\
      (inject_Z (wins 4 no_shuffle 2 (place 2 fresh2 0 0 (sign_of 1)) 1 (fun it => it)
                   (Z.to_nat SIMUL) 0) / inject_Z SIMUL <= -1)%Q)) /\
    forall d, same_rate d (-1)%Q ->
      probMonteCarlo_double 4 no_shuffle (fun it => it) 2 fresh2 (0, 0) d 1 SIMUL =
        Ret (rate_double wc).
Proof.
  apply (X27_rate_is_share_of_won_simulations 4 no_shuffle (fun it => it) 2 fresh2 0 0
           (-1)%Q 1);
    [apply no_shuffle_perm | lia | lia | apply (reachable_new 2) | lia | lia
     | by vm_compute | by left | by left | by vm_compute].
Defined.
